(** * File deduplication and copy tool: a shallow embedding of the main process

    The development follows the main-process script of the tool: the path
    helpers it calls, [normalizeFolderName], the streaming [hashFile], the
    scanners, the folder-signature builders, [mergeFolderRecursive] and the
    handlers [start-process], [resume-process], [merge-folders] and
    [confirm-merge].  Asynchronous code is written in a state-and-exception
    monad over a world made of the global [state] object, a file-system tree,
    the JavaScript [Map] objects allocated so far and a clock that says at
    which suspension point the [pause-process] handler runs. *)

From Stdlib Require Import String Ascii List Arith Lia DecimalString.
From stdpp Require Import gmap strings list sorting.
Import ListNotations.
Open Scope string_scope.
Open Scope list_scope.
Set Warnings "-register-all".

(** ** Strings and the [path] module (POSIX flavour) *)

Module Path.

Definition sepChar : ascii := "/"%char.
Definition sep : string := "/".

Definition nonEmpty (s : string) : bool :=
  match s with EmptyString => false | String _ _ => true end.

(** [s.split(c)] for a one-character separator. *)
Fixpoint split (c : ascii) (s : string) : list string :=
  match s with
  | EmptyString => [EmptyString]
  | String a r =>
      if Ascii.eqb a c then EmptyString :: split c r
      else match split c r with
           | [] => [String a EmptyString]
           | h :: t => String a h :: t
           end
  end.

(** The segment walk of [normalizeString]: empty and [.] segments vanish,
    [..] pops the previous segment, or is kept when the path is relative and
    nothing is left to pop.  [acc] holds the result so far, last segment
    first. *)
Fixpoint normalizeSegs (allowAboveRoot : bool) (segs acc : list string)
  : list string :=
  match segs with
  | [] => rev acc
  | s :: r =>
      if (s =? "") || (s =? ".") then normalizeSegs allowAboveRoot r acc
      else if s =? ".." then
        match acc with
        | a :: acc' =>
            if a =? ".." then normalizeSegs allowAboveRoot r (s :: acc)
            else normalizeSegs allowAboveRoot r acc'
        | [] =>
            if allowAboveRoot then normalizeSegs allowAboveRoot r [s]
            else normalizeSegs allowAboveRoot r []
        end
      else normalizeSegs allowAboveRoot r (s :: acc)
  end.

Definition isAbsolute (p : string) : bool :=
  match p with String a _ => Ascii.eqb a sepChar | EmptyString => false end.

Definition endsWithSep (p : string) : bool :=
  match rev (list_ascii_of_string p) with
  | a :: _ => Ascii.eqb a sepChar
  | [] => false
  end.

Definition normalize (p : string) : string :=
  if nonEmpty p then
    let body := String.concat sep (normalizeSegs (negb (isAbsolute p)) (split sepChar p) []) in
    if nonEmpty body then
      (if isAbsolute p then sep else "") +:+ body +:+ (if endsWithSep p then sep else "")
    else if isAbsolute p then sep
    else if endsWithSep p then "./" else "."
  else ".".

(** [path.join(...args)]: zero-length arguments are skipped, the others are
    glued with the separator and the result is normalized. *)
Definition join (args : list string) : string :=
  match filter (fun a => nonEmpty a = true) args with
  | [] => "."
  | ne => normalize (String.concat sep ne)
  end.

(** The segments a path denotes from the root of the file system. *)
Definition resolve (p : string) : list string :=
  normalizeSegs false (split sepChar p) [].

Definition basename (p : string) : string :=
  List.last (filter (fun a => nonEmpty a = true) (split sepChar p)) "".

Definition endsWith (s suffix : string) : bool :=
  String.prefix (string_of_list_ascii (rev (list_ascii_of_string suffix)))
                (string_of_list_ascii (rev (list_ascii_of_string s))).

(** [path.basename(p, ext)]. *)
Definition basenameExt (p ext : string) : string :=
  let b := basename p in
  if nonEmpty ext && endsWith b ext && negb (b =? ext)
  then substring 0 (String.length b - String.length ext) b
  else b.

Fixpoint dropWhile {A} (f : A -> bool) (l : list A) : list A :=
  match l with
  | [] => []
  | x :: r => if f x then dropWhile f r else l
  end.

Fixpoint takeWhile {A} (f : A -> bool) (l : list A) : list A :=
  match l with
  | [] => []
  | x :: r => if f x then x :: takeWhile f r else []
  end.

Definition isSep (a : ascii) : bool := Ascii.eqb a sepChar.

(** [path.dirname(p)]: trailing separators are skipped, then the last
    portion, and what precedes the separator found there is returned. *)
Definition dirname (p : string) : string :=
  match list_ascii_of_string p with
  | [] => "."
  | c0 :: body =>
      let afterName := dropWhile (fun a => negb (isSep a)) (dropWhile isSep (rev body)) in
      match afterName with
      | [] => if isSep c0 then sep else "."
      | _ :: before =>
          if isSep c0 && (match before with [] => true | _ => false end)
          then "//"
          else string_of_list_ascii (c0 :: rev before)
      end
  end.

(** [path.extname(name)] of a plain entry name. *)
Definition extname (name : string) : string :=
  let cs := rev (list_ascii_of_string (basename name)) in
  let isDot := fun a => Ascii.eqb a "."%char in
  let ext := takeWhile (fun a => negb (isDot a)) cs in
  match dropWhile (fun a => negb (isDot a)) cs with
  | [] => ""
  | _ :: before =>
      match before with
      | [] => ""
      | _ => if basename name =? ".." then ""
             else string_of_list_ascii ("."%char :: rev ext)
      end
  end.

Fixpoint stripCommon (a b : list string) : list string * list string :=
  match a, b with
  | x :: a', y :: b' => if x =? y then stripCommon a' b' else (a, b)
  | _, _ => (a, b)
  end.

(** [path.relative(from, to)] on absolute paths. *)
Definition relative (from to : string) : string :=
  let '(up, down) := stripCommon (resolve from) (resolve to) in
  String.concat sep (map (fun _ => "..") up ++ down).

Definition lowerChar (a : ascii) : ascii :=
  let n := nat_of_ascii a in
  if (65 <=? n)%nat && (n <=? 90)%nat then ascii_of_nat (n + 32) else a.

Definition toLowerCase (s : string) : string :=
  string_of_list_ascii (map lowerChar (list_ascii_of_string s)).

(** [s.slice(1)]. *)
Definition slice1 (s : string) : string :=
  match s with EmptyString => "" | String _ r => r end.

End Path.

(** ** normalizeFolderName *)

Definition normalizeFolderName (folderName : string) : string :=
  match String.index 0 "_" folderName with
  | Some underscoreIndex => substring 0 underscoreIndex folderName
  | None => folderName
  end.

(** ** Destination folder of a file in the per-file pass

    Both handlers start from [file.folderRelativePath || ''] and leave the
    destination root unchanged when that path is empty or [.]; they differ
    in the [filter(p => p)] that only [start-process] applies to the
    segments. *)

Definition destFolderPath_start (destinationFolder folderRelativePath : string)
  : string :=
  let sourceFolderRelativePath := folderRelativePath in
  if Path.nonEmpty sourceFolderRelativePath && negb (sourceFolderRelativePath =? ".")
  then
    let folderParts :=
      filter (fun p => Path.nonEmpty p = true)
             (Path.split Path.sepChar sourceFolderRelativePath) in
    let normalizedParts := map normalizeFolderName folderParts in
    Path.join (destinationFolder :: normalizedParts)
  else destinationFolder.

Definition destFolderPath_resume (destinationFolder folderRelativePath : string)
  : string :=
  let sourceFolderRelativePath := folderRelativePath in
  if Path.nonEmpty sourceFolderRelativePath && negb (sourceFolderRelativePath =? ".")
  then
    let folderParts := Path.split Path.sepChar sourceFolderRelativePath in
    let normalizedParts := map normalizeFolderName folderParts in
    Path.join (destinationFolder :: normalizedParts)
  else destinationFolder.

(** ** What the platform provides

    The digest of [crypto.createHash('sha256')], the way a read stream cuts
    a file into chunks and [String.prototype.localeCompare] come from the
    runtime, not from the tool. *)

Class Platform := {
  sha256 : string -> string;
  chunksOf : string -> list string;
  localeCompare : string -> string -> Z
}.

(** ** The file system: a tree of named entries, in directory order *)

Inductive node : Type :=
| File (content : string)
| Dir (entries : list (string * node)).

Module FS.

Fixpoint lookupEntry (name : string) (es : list (string * node)) : option node :=
  match es with
  | [] => None
  | (n, c) :: r => if n =? name then Some c else lookupEntry name r
  end.

(** Replaces the entry called [name], or adds it after the others. *)
Fixpoint putEntry (name : string) (new : node) (es : list (string * node))
  : list (string * node) :=
  match es with
  | [] => [(name, new)]
  | (n, c) :: r => if n =? name then (n, new) :: r else (n, c) :: putEntry name new r
  end.

Fixpoint removeEntry (name : string) (es : list (string * node))
  : list (string * node) :=
  match es with
  | [] => []
  | (n, c) :: r => if n =? name then r else (n, c) :: removeEntry name r
  end.

Fixpoint lookup (root : node) (p : list string) : option node :=
  match p with
  | [] => Some root
  | s :: r =>
      match root with
      | Dir es => match lookupEntry s es with
                  | Some c => lookup c r
                  | None => None
                  end
      | File _ => None
      end
  end.

(** Writes [new] at [p]; the parent of [p] has to be a directory. *)
Fixpoint put (root : node) (p : list string) (new : node) : option node :=
  match p with
  | [] => Some new
  | s :: r =>
      match root with
      | File _ => None
      | Dir es =>
          match r with
          | [] => Some (Dir (putEntry s new es))
          | _ => match lookupEntry s es with
                 | Some c => match put c r new with
                             | Some c' => Some (Dir (putEntry s c' es))
                             | None => None
                             end
                 | None => None
                 end
          end
      end
  end.

Fixpoint remove (root : node) (p : list string) : node :=
  match p with
  | [] => root
  | s :: r =>
      match root with
      | File _ => root
      | Dir es =>
          match r with
          | [] => Dir (removeEntry s es)
          | _ => match lookupEntry s es with
                 | Some c => Dir (putEntry s (remove c r) es)
                 | None => root
                 end
          end
      end
  end.

(** [mkdir -p]: fails when a component of [p] is a file. *)
Fixpoint mkdirp (root : node) (p : list string) : option node :=
  match root with
  | File _ => None
  | Dir es =>
      match p with
      | [] => Some root
      | s :: r =>
          match lookupEntry s es with
          | Some c => match mkdirp c r with
                      | Some c' => Some (Dir (putEntry s c' es))
                      | None => None
                      end
          | None => match mkdirp (Dir []) r with
                    | Some c' => Some (Dir (es ++ [(s, c')]))
                    | None => None
                    end
          end
      end
  end.

Definition isDir (n : node) : bool :=
  match n with Dir _ => true | File _ => false end.

(** Every entry below a directory, parents before their children. *)
Fixpoint descendants (n : node) : list (string * bool) :=
  match n with
  | File _ => []
  | Dir es =>
      (fix go (l : list (string * node)) : list (string * bool) :=
         match l with
         | [] => []
         | (nm, c) :: r => (nm, isDir c) :: descendants c ++ go r
         end) es
  end.

(** Number of entries in the tree. *)
Definition entryCount (n : node) : nat := List.length (descendants n).

End FS.

(** ** Records of the tool *)

Record Stats := mkStats {
  scanned : nat;
  copied : nat;
  duplicates : nat;
  sizeCopied : nat
}.

Record FileInfo := mkFileInfo {
  f_path : string;
  f_size : nat;
  f_name : string;
  f_relativePath : string;
  f_folderPath : string;
  f_folderRelativePath : string
}.

Record FolderInfo := mkFolderInfo {
  d_path : string;
  d_relativePath : string;
  d_files : list FileInfo;
  d_subFolders : list string;
  d_isLeaf : bool
}.

(** An element of [fileHashes]. *)
Record FileHash := mkFileHash {
  h_name : string;
  h_size : nat;
  h_hash : string
}.

(** What [buildFolderSignature] returns. *)
Record Signature := mkSignature {
  s_hash : string;
  s_fileCount : nat;
  s_totalSize : nat;
  s_files : list FileHash
}.

Record FolderData := mkFolderData {
  fd_signature : Signature;
  fd_folderInfo : FolderInfo
}.

Record ReportEntry := mkReportEntry {
  r_sourcePath : string;
  r_destinationPath : string;
  r_status : string
}.

(** A file of [scanDestinationFolder]'s result, and the result itself. *)
Record DestFile := mkDestFile {
  df_path : string;
  df_size : nat;
  df_name : string;
  df_hash : string
}.

Inductive DestFolderInfo : Type :=
| mkDestFolderInfo (path relativePath : string) (files : list DestFile)
                   (subFolders : list DestFolderInfo).

Definition dfi_files (d : DestFolderInfo) : list DestFile :=
  match d with mkDestFolderInfo _ _ files _ => files end.

(** A leaf folder as [getAllFolders] records it, and a group of them as the
    merge handlers exchange it with the renderer. *)
Record LeafFolder := mkLeafFolder {
  lf_path : string;
  lf_name : string;
  lf_parent : string;
  lf_isLeaf : bool
}.

Record MergeGroup := mkMergeGroup {
  mg_name : string;
  mg_folders : list LeafFolder;
  mg_parent : string
}.

(** The global [state] object. *)
Record State := mkState {
  paused : bool;
  currentIndex : nat;
  deduplicationMap : gset string;
  fileList : list FileInfo;
  folderList : list FolderInfo;
  folderMap : gset string;
  copiedFolders : list string;
  folderReport : list ReportEntry;
  stats : Stats
}.

Definition initialState : State :=
  mkState false 0 ∅ [] [] ∅ [] [] (mkStats 0 0 0 0).

(** Messages sent to the renderer. *)
Inductive Message : Type :=
| ProgressUpdate (currentFile : string) (s : Stats)
| ProcessComplete (s : Stats) (report : list ReportEntry) (error : option string)
| MergeComplete (s : Stats) (message error : option string)
| MergeConfirmation (folders : list MergeGroup).

(** One completed [fs.copyFile]. *)
Record CopyEvent := mkCopyEvent {
  c_src : string;
  c_dst : string;
  c_content : string
}.

(** ** The world

    [pauseIn = Some n] says that the [pause-process] handler runs once [n]
    suspension points from now have passed; [None] that it does not run.
    While a handler runs, then, the flag is only ever raised: what lowers it
    is the first statement of the handlers that begin or resume a run.
    [maps] holds the [Map] and [Set] objects of string keys created with
    [new], addressed by their allocation number, so that a callee that is
    handed one mutates the caller's object; an address that was never
    allocated holds nothing and takes nothing. *)

Record World := mkWorld {
  state : State;
  fs : node;
  pauseIn : option nat;
  maps : list (gset string);
  copyLog : list CopyEvent;
  outbox : list Message
}.

Definition withState (f : State -> State) (w : World) : World :=
  mkWorld (f (state w)) (fs w) (pauseIn w) (maps w) (copyLog w) (outbox w).

Definition setPaused (b : bool) (s : State) : State :=
  mkState b (currentIndex s) (deduplicationMap s) (fileList s) (folderList s)
          (folderMap s) (copiedFolders s) (folderReport s) (stats s).

Definition setCurrentIndex (i : nat) (s : State) : State :=
  mkState (paused s) i (deduplicationMap s) (fileList s) (folderList s)
          (folderMap s) (copiedFolders s) (folderReport s) (stats s).

Definition setDeduplicationMap (m : gset string) (s : State) : State :=
  mkState (paused s) (currentIndex s) m (fileList s) (folderList s)
          (folderMap s) (copiedFolders s) (folderReport s) (stats s).

Definition setFileList (l : list FileInfo) (s : State) : State :=
  mkState (paused s) (currentIndex s) (deduplicationMap s) l (folderList s)
          (folderMap s) (copiedFolders s) (folderReport s) (stats s).

Definition setFolderList (l : list FolderInfo) (s : State) : State :=
  mkState (paused s) (currentIndex s) (deduplicationMap s) (fileList s) l
          (folderMap s) (copiedFolders s) (folderReport s) (stats s).

Definition setCopiedFolders (l : list string) (s : State) : State :=
  mkState (paused s) (currentIndex s) (deduplicationMap s) (fileList s) (folderList s)
          (folderMap s) l (folderReport s) (stats s).

Definition setFolderReport (l : list ReportEntry) (s : State) : State :=
  mkState (paused s) (currentIndex s) (deduplicationMap s) (fileList s) (folderList s)
          (folderMap s) (copiedFolders s) l (stats s).

Definition setStats (st : Stats) (s : State) : State :=
  mkState (paused s) (currentIndex s) (deduplicationMap s) (fileList s) (folderList s)
          (folderMap s) (copiedFolders s) (folderReport s) st.

Definition setFs (n : node) (w : World) : World :=
  mkWorld (state w) n (pauseIn w) (maps w) (copyLog w) (outbox w).

Definition setPauseIn (c : option nat) (w : World) : World :=
  mkWorld (state w) (fs w) c (maps w) (copyLog w) (outbox w).

Definition setMaps (m : list (gset string)) (w : World) : World :=
  mkWorld (state w) (fs w) (pauseIn w) m (copyLog w) (outbox w).

Definition setCopyLog (l : list CopyEvent) (w : World) : World :=
  mkWorld (state w) (fs w) (pauseIn w) (maps w) l (outbox w).

Definition setOutbox (l : list Message) (w : World) : World :=
  mkWorld (state w) (fs w) (pauseIn w) (maps w) (copyLog w) l.

(** ** The monad of asynchronous code: a state, and [throw] *)

Inductive Res (A : Type) : Type :=
| Ok (a : A)
| Throw (err : string).
Arguments Ok {A} a.
Arguments Throw {A} err.

Definition M (A : Type) : Type := World -> Res A * World.

Definition ret {A} (a : A) : M A := fun w => (Ok a, w).

Definition bind {A B} (m : M A) (k : A -> M B) : M B :=
  fun w => match m w with
           | (Ok a, w') => k a w'
           | (Throw e, w') => (Throw e, w')
           end.

Definition throw {A} (e : string) : M A := fun w => (Throw e, w).

(** [try { m } catch (err) { h err }]. *)
Definition catch {A} (m : M A) (h : string -> M A) : M A :=
  fun w => match m w with
           | (Ok a, w') => (Ok a, w')
           | (Throw e, w') => h e w'
           end.

Declare Scope js_scope.
Delimit Scope js_scope with js.
Notation "'let*' x := m 'in' k" := (bind m (fun x => k))
  (at level 10, x pattern, m at level 100, k at level 200) : js_scope.
Notation "m >> k" := (bind m (fun _ => k))
  (at level 90, right associativity) : js_scope.
Open Scope js_scope.

Definition get : M World := fun w => (Ok w, w).
Definition modify (f : World -> World) : M unit := fun w => (Ok tt, f w).
Definition getState : M State := fun w => (Ok (state w), w).
Definition modifyState (f : State -> State) : M unit := modify (withState f).
Definition isPaused : M bool := fun w => (Ok (paused (state w)), w).

(** A suspension point: the handler yields to the event loop, where the
    [pause-process] handler may run and raise the flag. *)
Definition tick : M unit :=
  fun w => match pauseIn w with
           | Some 0 => (Ok tt, setPauseIn None (withState (setPaused true) w))
           | Some (S n) => (Ok tt, setPauseIn (Some n) w)
           | None => (Ok tt, w)
           end.

Definition send (msg : Message) : M unit :=
  modify (fun w => setOutbox (outbox w ++ [msg]) w).

(** [new Map()] / [new Set()], [has] and [set] / [add]. *)
Definition newMap : M nat :=
  fun w => (Ok (List.length (maps w)), setMaps (maps w ++ [∅]) w).

Definition mapAt (w : World) (l : nat) : gset string :=
  default ∅ (maps w !! l).

Definition mapHas (l : nat) (k : string) : M bool :=
  fun w => (Ok (bool_decide (k ∈ mapAt w l)), w).

Definition mapSet (l : nat) (k : string) : M unit :=
  modify (fun w => setMaps (<[l := {[k]} ∪ mapAt w l]> (maps w)) w).

(** Loops: [for (const x of l)] with [break] and [continue]. *)
Inductive LoopCtl : Type := Next | Break.

Fixpoint forOf {A} (l : list A) (body : A -> M LoopCtl) : M unit :=
  match l with
  | [] => ret tt
  | x :: r => let* c := body x in
              match c with
              | Break => ret tt
              | Next => forOf r body
              end
  end.

(** The same with the loop's local variables threaded through. *)
Fixpoint forOfAcc {A S} (l : list A) (acc : S) (body : A -> S -> M (LoopCtl * S))
  : M S :=
  match l with
  | [] => ret acc
  | x :: r => let* (c, acc') := body x acc in
              match c with
              | Break => ret acc'
              | Next => forOfAcc r acc' body
              end
  end.

(** ** The [fs] promises API

    Each call awaits once.  Failures are the ones the tree decides: a
    missing entry, a file where a directory is needed and the reverse. *)

Record Dirent := mkDirent { de_name : string; de_isDirectory : bool }.
Definition de_isFile (e : Dirent) : bool := negb (de_isDirectory e).

Record StatResult := mkStat { st_size : nat; st_isDirectory : bool }.

Definition readdir (p : string) : M (list Dirent) :=
  tick >>
  let* w := get in
  match FS.lookup (fs w) (Path.resolve p) with
  | Some (Dir es) => ret (map (fun e => mkDirent (fst e) (FS.isDir (snd e))) es)
  | Some (File _) => throw "ENOTDIR"
  | None => throw "ENOENT"
  end.

(** [readdir(p, { recursive: true, withFileTypes: true })]. *)
Definition readdirRecursive (p : string) : M (list Dirent) :=
  tick >>
  let* w := get in
  match FS.lookup (fs w) (Path.resolve p) with
  | Some (Dir es) => ret (map (fun e => mkDirent (fst e) (snd e)) (FS.descendants (Dir es)))
  | Some (File _) => throw "ENOTDIR"
  | None => throw "ENOENT"
  end.

Definition stat (p : string) : M StatResult :=
  tick >>
  let* w := get in
  match FS.lookup (fs w) (Path.resolve p) with
  | Some (File c) => ret (mkStat (String.length c) false)
  | Some (Dir _) => ret (mkStat 0 true)
  | None => throw "ENOENT"
  end.

Definition access (p : string) : M unit :=
  tick >>
  let* w := get in
  match FS.lookup (fs w) (Path.resolve p) with
  | Some _ => ret tt
  | None => throw "ENOENT"
  end.

(** [mkdir(p, { recursive: true })]. *)
Definition mkdir (p : string) : M unit :=
  tick >>
  let* w := get in
  match FS.mkdirp (fs w) (Path.resolve p) with
  | Some root => modify (setFs root)
  | None => throw "EEXIST"
  end.

(** [copyFile(src, dst)]: an existing file at [dst] is overwritten. *)
Definition copyFile (src dst : string) : M unit :=
  tick >>
  let* w := get in
  match FS.lookup (fs w) (Path.resolve src) with
  | Some (File c) =>
      match FS.lookup (fs w) (Path.resolve dst) with
      | Some (Dir _) => throw "EISDIR"
      | _ =>
          match Path.resolve dst, FS.put (fs w) (Path.resolve dst) (File c) with
          | _ :: _, Some root =>
              modify (fun w => setCopyLog (copyLog w ++ [mkCopyEvent src dst c])
                                          (setFs root w))
          | _, _ => throw "ENOENT"
          end
      end
  | Some (Dir _) => throw "EISDIR"
  | None => throw "ENOENT"
  end.

(** [rm(p, { recursive: true, force: true })]. *)
Definition rm (p : string) : M unit :=
  tick >>
  modify (fun w => setFs (FS.remove (fs w) (Path.resolve p)) w).

Definition modifyStats (f : Stats -> Stats) : M unit :=
  modifyState (fun s => setStats (f (stats s)) s).

Definition incScanned (s : Stats) : Stats :=
  mkStats (S (scanned s)) (copied s) (duplicates s) (sizeCopied s).
Definition addCopied (n size : nat) (s : Stats) : Stats :=
  mkStats (scanned s) (copied s + n) (duplicates s) (sizeCopied s + size).
Definition addDuplicates (n : nat) (s : Stats) : Stats :=
  mkStats (scanned s) (copied s) (duplicates s + n) (sizeCopied s).

(** [event.sender.send('progress-update', ...)] with a copy of the counters. *)
Definition sendProgress (currentFile : string) : M unit :=
  let* s := getState in send (ProgressUpdate currentFile (stats s)).

(** A number inside a template literal. *)
Definition showNat (n : nat) : string := NilZero.string_of_uint (Nat.to_uint n).

(** The key [`${size}:${hash}`] under which file content is remembered. *)
Definition keyOf (size : nat) (hash : string) : string :=
  showNat size +:+ ":" +:+ hash.

(** [extensions.length === 0 || extensions.includes(ext)]. *)
Definition extensionAllowed (allowedExtensions : list string) (name : string) : bool :=
  let ext := Path.slice1 (Path.toLowerCase (Path.extname name)) in
  match allowedExtensions with
  | [] => true
  | _ => existsb (String.eqb ext) allowedExtensions
  end.

(** [copiedFolders.add(p)] on a [Set] that is later iterated in insertion
    order. *)
Definition setAdd (p : string) (l : list string) : list string :=
  if existsb (String.eqb p) l then l else l ++ [p].

(** [groups.get(name).push(x)], creating the array for a new name; a [Map]
    iterates in the order its keys were first set. *)
Fixpoint pushGroup {A} (name : string) (x : A) (groups : list (string * list A))
  : list (string * list A) :=
  match groups with
  | [] => [(name, [x])]
  | (n, l) :: r => if n =? name then (n, l ++ [x]) :: r
                   else (n, l) :: pushGroup name x r
  end.

(** The files under the folders of [copiedFolders]: same folder, or a path
    below it. *)
Definition absorbedBy (folderPath : string) (file : FileInfo) : bool :=
  (f_folderPath file =? folderPath)
  || String.prefix (folderPath +:+ Path.sep) (f_path file).

Definition processedFilesOf (copied : list string) (files : list FileInfo)
  : gset string :=
  list_to_set
    (flat_map (fun folderPath =>
                 map f_path (filter (fun file => absorbedBy folderPath file = true) files))
              copied).

Section Engine.

Context `{Platform}.

(** ** hashFile

    The promise is settled by the stream's events.  [observed] pairs every
    chunk with the value of [state.paused] when its ['data'] event ran;
    [pausedAtEnd] is the flag when ['end'] ran.  The handlers read the
    global flag each time, so [hashFile_events] takes any sequence of
    values; [hashFile] below feeds it the values of one run. *)

Definition onData (hash : string) (ev : bool * string) : string :=
  if fst ev then hash else hash +:+ snd ev.

Definition hashFile_events (observed : list (bool * string)) (pausedAtEnd : bool)
  : Res string :=
  let hash := fold_left onData observed "" in
  if pausedAtEnd then Throw "Paused" else Ok (sha256 hash).

Fixpoint readStream (chunks : list string) : M (list (bool * string)) :=
  match chunks with
  | [] => ret []
  | c :: r =>
      tick >>
      let* p := isPaused in
      let* rest := readStream r in
      ret ((p, c) :: rest)
  end.

Definition hashFile (filePath : string) : M string :=
  let* w := get in
  match FS.lookup (fs w) (Path.resolve filePath) with
  | Some (File content) =>
      let* observed := readStream (chunksOf content) in
      tick >>
      let* pausedAtEnd := isPaused in
      fun w' => (hashFile_events observed pausedAtEnd, w')
  | Some (Dir _) => tick >> throw "EISDIR"
  | None => tick >> throw "ENOENT"
  end.

(** The digest [hashFile] gives for a file that is read to its end. *)
Definition digestOf (content : string) : string :=
  sha256 (fold_left onData (map (pair false) (chunksOf content)) "").

(** The ContentKey of a file with this content. *)
Definition contentKey (content : string) : string :=
  keyOf (String.length content) (digestOf content).

(** ** Folder signatures *)

Definition nameBefore (a b : FileHash) : bool :=
  (localeCompare (h_name a) (h_name b) <=? 0)%Z.

(** The order the comparator gives, as a proposition. *)
Definition nameLe (a b : FileHash) : Prop :=
  (localeCompare (h_name a) (h_name b) <= 0)%Z.

Fixpoint insertByName (x : FileHash) (l : list FileHash) : list FileHash :=
  match l with
  | [] => [x]
  | y :: r => if nameBefore x y then x :: l else y :: insertByName x r
  end.

(** [fileHashes.sort((a, b) => a.name.localeCompare(b.name))]; the sort is
    stable. *)
Fixpoint sortByName (l : list FileHash) : list FileHash :=
  match l with
  | [] => []
  | x :: r => insertByName x (sortByName r)
  end.

Definition signatureLine (fh : FileHash) : string :=
  h_name fh +:+ ":" +:+ showNat (h_size fh) +:+ ":" +:+ h_hash fh.

(** The digest after one [signature.update] per sorted element. *)
Definition signatureDigest (fileHashes : list FileHash) : string :=
  sha256 (String.concat "" (map signatureLine (sortByName fileHashes))).

(** The body of the loop of [buildFolderSignature] over the folder's
    files. *)
Definition signBody (file : FileInfo) (fileHashes : list FileHash)
  : M (LoopCtl * list FileHash) :=
  let* p := isPaused in
  if p then ret (Break, fileHashes)
  else catch
         (let* hash := hashFile (f_path file) in
          ret (Next, fileHashes ++ [mkFileHash (f_name file) (f_size file) hash]))
         (fun _ => ret (Next, fileHashes)).

Definition buildFolderSignature (folderInfo : FolderInfo)
    (allowedExtensions : list string) : M Signature :=
  let* fileHashes := forOfAcc (d_files folderInfo) [] signBody in
  ret (mkSignature (signatureDigest fileHashes)
                   (List.length fileHashes)
                   (fold_left (fun sum f => sum + f_size f) (d_files folderInfo) 0)
                   (sortByName fileHashes)).

(** The [fileHashes] that [buildDestinationFolderSignature] collects. *)
Definition destFileHashes (folderInfo : DestFolderInfo) : list FileHash :=
  map (fun file => mkFileHash (df_name file) (df_size file) (df_hash file))
      (dfi_files folderInfo).

Definition buildDestinationFolderSignature (folderInfo : DestFolderInfo) : string :=
  signatureDigest (destFileHashes folderInfo).

(** ** Scanners

    [depth] is the deepest nesting of directories the operating system
    resolves: below it [readdir] and [mkdir] fail, as they do on a path that
    is too long. *)

Fixpoint scanDirectory (depth : nat) (dirPath : string)
    (allowedExtensions : list string) (relativePath sourceRoot : string) : M unit :=
  match depth with
  | 0 => tick
  | S depth' =>
      catch
        (let sourceRoot := if Path.nonEmpty sourceRoot then sourceRoot else dirPath in
         let* entries := readdir dirPath in
         let* (folderFiles, subFolders, hasSubDirectories) :=
           forOfAcc entries ([], [], false)
             (fun entry '(folderFiles, subFolders, hasSubDirectories) =>
                let* p := isPaused in
                if p then ret (Break, (folderFiles, subFolders, hasSubDirectories))
                else
                  let fullPath := Path.join [dirPath; de_name entry] in
                  let relPath := if Path.nonEmpty relativePath
                                 then Path.join [relativePath; de_name entry]
                                 else de_name entry in
                  let relativeFromRoot := Path.relative sourceRoot fullPath in
                  if de_isDirectory entry then
                    let subFolders' := subFolders ++ [relPath] in
                    catch
                      (scanDirectory depth' fullPath allowedExtensions relPath sourceRoot >>
                       ret (Next, (folderFiles, subFolders', true)))
                      (fun _ => ret (Next, (folderFiles, subFolders', true)))
                  else if extensionAllowed allowedExtensions (de_name entry) then
                    catch
                      (let* stats := stat fullPath in
                       let fileInfo :=
                         mkFileInfo fullPath (st_size stats) (de_name entry)
                                    relativeFromRoot dirPath
                                    (Path.dirname relativeFromRoot) in
                       modifyState (fun s => setFileList (fileList s ++ [fileInfo]) s) >>
                       ret (Next, (folderFiles ++ [fileInfo], subFolders, hasSubDirectories)))
                      (fun _ => ret (Next, (folderFiles, subFolders, hasSubDirectories)))
                  else ret (Next, (folderFiles, subFolders, hasSubDirectories))) in
         if (0 <? List.length folderFiles)%nat || (0 <? List.length subFolders)%nat then
           modifyState
             (fun s => setFolderList
                (folderList s ++
                 [mkFolderInfo dirPath
                    (if Path.nonEmpty relativePath then relativePath
                     else Path.basename dirPath)
                    folderFiles subFolders (negb hasSubDirectories)]) s)
         else ret tt)
        (fun _ => ret tt)
  end.

Fixpoint scanDestinationFolder (depth : nat) (dirPath : string)
    (allowedExtensions : list string) (relativePath : string) : M DestFolderInfo :=
  let shownPath := if Path.nonEmpty relativePath then relativePath
                   else Path.basename dirPath in
  match depth with
  | 0 => tick >> ret (mkDestFolderInfo dirPath shownPath [] [])
  | S depth' =>
      let* listing := catch (let* entries := readdir dirPath in ret (Some entries))
                            (fun _ => ret None) in
      match listing with
      | None => ret (mkDestFolderInfo dirPath shownPath [] [])
      | Some entries =>
          let* (files, subFolders) :=
            forOfAcc entries ([], [])
              (fun entry '(files, subFolders) =>
                 let* p := isPaused in
                 if p then ret (Break, (files, subFolders))
                 else
                   let fullPath := Path.join [dirPath; de_name entry] in
                   let relPath := Path.join [relativePath; de_name entry] in
                   catch
                     (if de_isDirectory entry then
                        let* subFolder :=
                          scanDestinationFolder depth' fullPath allowedExtensions relPath in
                        ret (Next, (files, subFolders ++ [subFolder]))
                      else if extensionAllowed allowedExtensions (de_name entry) then
                        let* stats := stat fullPath in
                        catch
                          (let* hash := hashFile fullPath in
                           ret (Next, (files ++ [mkDestFile fullPath (st_size stats)
                                                            (de_name entry) hash],
                                       subFolders)))
                          (fun _ => ret (Next, (files, subFolders)))
                      else ret (Next, (files, subFolders)))
                     (fun _ => ret (Next, (files, subFolders)))) in
          ret (mkDestFolderInfo dirPath shownPath files subFolders)
      end
  end.

(** The closure of [start-process] that fills [destinationMap]. *)
Fixpoint scanDestinationRecursive (depth : nat) (destinationMap : nat)
    (dirPath : string) : M unit :=
  match depth with
  | 0 => tick
  | S depth' =>
      catch
        (let* entries := readdir dirPath in
         forOf entries
           (fun entry =>
              let* p := isPaused in
              if p then ret Break
              else
                let fullPath := Path.join [dirPath; de_name entry] in
                catch
                  (if de_isDirectory entry then
                     scanDestinationRecursive depth' destinationMap fullPath >> ret Next
                   else
                     let* stats := stat fullPath in
                     let* hash := hashFile fullPath in
                     mapSet destinationMap (keyOf (st_size stats) hash) >> ret Next)
                  (fun _ => ret Next)))
        (fun _ => ret tt)
  end.

(** ** mergeFolderRecursive *)

Fixpoint mergeFolderRecursive (depth : nat) (sourcePath destPath : string)
    (fileHashMap : nat) : M unit :=
  match depth with
  | 0 => tick >> throw "ENAMETOOLONG"
  | S depth' =>
      mkdir destPath >>
      let* entries := readdir sourcePath in
      forOf entries
        (fun entry =>
           let* p := isPaused in
           if p then ret Break
           else
             let sourceEntry := Path.join [sourcePath; de_name entry] in
             let destEntry := Path.join [destPath; de_name entry] in
             catch
               (if de_isDirectory entry then
                  mergeFolderRecursive depth' sourceEntry destEntry fileHashMap >> ret Next
                else
                  catch
                    (let* stats := stat sourceEntry in
                     let* hash := hashFile sourceEntry in
                     let key := keyOf (st_size stats) hash in
                     let* present := mapHas fileHashMap key in
                     if negb present then
                       copyFile sourceEntry destEntry >>
                       mapSet fileHashMap key >>
                       ret Next
                     else ret Next)
                    (fun _ => ret Next))
               (fun _ => ret Next))
  end.

(** The loop that seeds a fresh [fileHashMap] from the files listed under
    [folder]; every entry is looked for directly under [folder], by its
    name. *)
Definition seedFileHashMap (fileHashMap : nat) (folder : string) : M unit :=
  let* existingFiles := readdirRecursive folder in
  forOf existingFiles
    (fun entry =>
       if de_isFile entry then
         let fullPath := Path.join [folder; de_name entry] in
         catch
           (let* stats := stat fullPath in
            let* hash := hashFile fullPath in
            mapSet fileHashMap (keyOf (st_size stats) hash) >> ret Next)
           (fun _ => ret Next)
       else ret Next).

(** ** start-process, phase by phase *)

(** Lines 347-350: the source roots are scanned in turn. *)
Definition scanSources (depth : nat) (sourceFolders allowedExtensions : list string)
  : M unit :=
  forOf sourceFolders
    (fun folder =>
       let* p := isPaused in
       if p then ret Break
       else scanDirectory depth folder allowedExtensions "" folder >> ret Next).

(** The loop over the directories directly under the destination root, which
    both handlers run to fill [destinationFolderSignatures]. *)
Definition signDestinationFolders (depth : nat) (destinationFolderSignatures : nat)
    (destinationFolder : string) (allowedExtensions : list string) : M unit :=
  let* destFolders := readdir destinationFolder in
  forOf destFolders
    (fun entry =>
       let* p := isPaused in
       if p then ret Break
       else if de_isDirectory entry then
         let fullPath := Path.join [destinationFolder; de_name entry] in
         catch
           (let* destFolderInfo :=
              scanDestinationFolder depth fullPath allowedExtensions "" in
            let destSignature := buildDestinationFolderSignature destFolderInfo in
            mapSet destinationFolderSignatures destSignature >> ret Next)
           (fun _ => ret Next)
       else ret Next).

(** Lines 352-404; the result is the pair of [destinationMap] and
    [destinationFolderSignatures]. *)
Definition indexDestination (depth : nat) (destinationFolder : string)
    (allowedExtensions : list string) : M (nat * nat) :=
  let* destinationMap := newMap in
  let* destinationFolderSignatures := newMap in
  catch
    (sendProgress "Scanning destination folder..." >>
     scanDestinationRecursive depth destinationMap destinationFolder >>
     catch
       (signDestinationFolders depth destinationFolderSignatures destinationFolder
                               allowedExtensions)
       (fun _ => ret tt))
    (fun _ => ret tt) >>
  ret (destinationMap, destinationFolderSignatures).

(** Lines 406-430: leaf folders are signed and grouped by normalized name. *)
Definition groupLeafFolders (allowedExtensions : list string)
  : M (list (string * list FolderData)) :=
  let* s := getState in
  let leafFolders := filter (fun f => d_isLeaf f = true) (folderList s) in
  forOfAcc leafFolders []
    (fun folderInfo folderGroupsByName =>
       let* p := isPaused in
       if p then ret (Break, folderGroupsByName)
       else
         catch
           (let* signature := buildFolderSignature folderInfo allowedExtensions in
            let* p' := isPaused in
            if p' then ret (Break, folderGroupsByName)
            else
              let folderName := Path.basename (d_path folderInfo) in
              let normalizedName := normalizeFolderName folderName in
              ret (Next, pushGroup normalizedName (mkFolderData signature folderInfo)
                                   folderGroupsByName))
           (fun _ => ret (Next, folderGroupsByName))).

(** Lines 473-507: one member of a group. *)
Definition mergeMember (depth : nat) (destinationFolderSignatures : nat)
    (normalizedName destFolderPath : string) (fileHashMap : nat)
    (folderData : FolderData) : M LoopCtl :=
  let* p := isPaused in
  if p then ret Break
  else
    let folderKey := s_hash (fd_signature folderData) in
    let sourcePath := d_path (fd_folderInfo folderData) in
    let* known := mapHas destinationFolderSignatures folderKey in
    let* status :=
      if known then
        modifyState (fun s => setCopiedFolders (setAdd sourcePath (copiedFolders s)) s) >>
        modifyStats (addDuplicates (s_fileCount (fd_signature folderData))) >>
        ret "Duplicate (Exists in Destination)"
      else
        catch
          (mergeFolderRecursive depth sourcePath destFolderPath fileHashMap >>
           modifyState (fun s => setCopiedFolders (setAdd sourcePath (copiedFolders s)) s) >>
           modifyStats (addCopied (s_fileCount (fd_signature folderData))
                                  (s_totalSize (fd_signature folderData))) >>
           sendProgress ("Folder: " +:+ normalizedName) >>
           ret "Copied")
          (fun err => ret ("Error: " +:+ err)) in
    modifyState
      (fun s => setFolderReport
                  (folderReport s ++ [mkReportEntry sourcePath destFolderPath status]) s) >>
    ret Next.

(** Lines 432-508: one group. *)
Definition mergeGroup (depth : nat) (destinationFolderSignatures : nat)
    (destinationFolder : string) (group : string * list FolderData) : M LoopCtl :=
  let '(normalizedName, folderGroup) := group in
  let* p := isPaused in
  if p then ret Break
  else
    let destFolderPath := Path.join [destinationFolder; normalizedName] in
    let* fileHashMap := newMap in
    let* destFolderExists :=
      catch
        (let* stats := stat destFolderPath in
         if st_isDirectory stats then
           catch (seedFileHashMap fileHashMap destFolderPath) (fun _ => ret tt) >>
           ret true
         else ret false)
        (fun _ => ret false) in
    let* ready :=
      if destFolderExists then ret true
      else catch (mkdir destFolderPath >> ret true) (fun _ => ret false) in
    if ready then
      forOf folderGroup
        (mergeMember depth destinationFolderSignatures normalizedName destFolderPath
                     fileHashMap) >>
      ret Next
    else ret Next.

Definition folderMergePass (depth : nat) (destinationFolderSignatures : nat)
    (destinationFolder : string) (folderGroupsByName : list (string * list FolderData))
  : M unit :=
  forOf folderGroupsByName (mergeGroup depth destinationFolderSignatures destinationFolder).

(** ** The per-file pass *)

(** Lines 578-591: the search for a free name.  The names tried after
    [destPath] are pairwise different entries of one directory, so the loop
    ends within as many rounds as the tree has entries, plus two; [fuel]
    carries that bound. *)
Fixpoint uniquePathLoop (fuel : nat) (fileName uniquePath : string) (counter : nat)
  : M string :=
  match fuel with
  | 0 => throw "unreachable"
  | S fuel' =>
      let* taken := catch (access uniquePath >> ret true) (fun _ => ret false) in
      if taken then
        let ext := Path.extname fileName in
        let base := Path.basenameExt fileName ext in
        let dir := Path.dirname uniquePath in
        uniquePathLoop fuel' fileName
          (Path.join [dir; base +:+ "_" +:+ showNat counter +:+ ext]) (S counter)
      else ret uniquePath
  end.

(** The body of the loop over [state.fileList], lines 525-603 and 835-913.
    The two handlers differ in [destFolderOf] only. *)
Definition processFile (destFolderOf : string -> string -> string)
    (destinationFolder : string) (destinationMap : nat)
    (processedFiles : gset string) (i : nat) (file : FileInfo) : M LoopCtl :=
  if bool_decide (f_path file ∈ processedFiles) then ret Next
  else
    modifyStats incScanned >>
    sendProgress (f_name file) >>
    catch
      (let* hash := hashFile (f_path file) in
       let* p := isPaused in
       if p then modifyState (setCurrentIndex i) >> ret Break
       else
         let key := keyOf (f_size file) hash in
         let* s := getState in
         let* inDestination := mapHas destinationMap key in
         if bool_decide (key ∈ deduplicationMap s) || inDestination then
           modifyStats (addDuplicates 1) >> ret Next
         else
           modifyState (fun s => setDeduplicationMap ({[key]} ∪ deduplicationMap s) s) >>
           let fileName := f_name file in
           let destFolderPath := destFolderOf destinationFolder (f_folderRelativePath file) in
           catch (mkdir destFolderPath) (fun _ => ret tt) >>
           let destPath := Path.join [destFolderPath; fileName] in
           let* occupied := catch (access destPath >> ret true) (fun _ => ret false) in
           if occupied then modifyStats (addDuplicates 1) >> ret Next
           else
             let* w := get in
             let* uniquePath :=
               uniquePathLoop (FS.entryCount (fs w) + 2) fileName destPath 1 in
             copyFile (f_path file) uniquePath >>
             modifyStats (addCopied 1 (f_size file)) >>
             sendProgress (f_name file) >>
             ret Next)
      (fun _ => ret Next).

(** [for (let i = ...; i < state.fileList.length; i++)], on the files from
    index [i] on. *)
Fixpoint fileLoop (destFolderOf : string -> string -> string)
    (destinationFolder : string) (destinationMap : nat)
    (processedFiles : gset string) (files : list FileInfo) (i : nat) : M unit :=
  match files with
  | [] => ret tt
  | file :: rest =>
      let* p := isPaused in
      if p then modifyState (setCurrentIndex i)
      else
        let* c := processFile destFolderOf destinationFolder destinationMap
                              processedFiles i file in
        match c with
        | Break => ret tt
        | Next => fileLoop destFolderOf destinationFolder destinationMap
                           processedFiles rest (S i)
        end
  end.

Definition sendProcessComplete (error : option string) : M unit :=
  let* s := getState in send (ProcessComplete (stats s) (folderReport s) error).

Definition start_process (depth : nat) (sourceFolders : list string)
    (destinationFolder : string) (extensions : list string) : M unit :=
  catch
    (modifyState (fun _ => initialState) >>
     let allowedExtensions := map Path.toLowerCase extensions in
     scanSources depth sourceFolders allowedExtensions >>
     let* (destinationMap, destinationFolderSignatures) :=
       indexDestination depth destinationFolder allowedExtensions in
     let* folderGroupsByName := groupLeafFolders allowedExtensions in
     folderMergePass depth destinationFolderSignatures destinationFolder
                     folderGroupsByName >>
     let* s := getState in
     let processedFiles := processedFilesOf (copiedFolders s) (fileList s) in
     fileLoop destFolderPath_start destinationFolder destinationMap processedFiles
              (fileList s) 0 >>
     let* p := isPaused in
     if negb p then sendProcessComplete None else ret tt)
    (fun err => sendProcessComplete (Some err)).

Definition pause_process : M unit := modifyState (setPaused true).

(** ** resume-process *)

(** Lines 784-818. *)
Definition reindexDestination (depth : nat) (destinationFolder : string)
    (allowedExtensions : list string) : M (nat * nat) :=
  let* destinationMap := newMap in
  let* destinationFolderSignatures := newMap in
  catch
    (seedFileHashMap destinationMap destinationFolder >>
     signDestinationFolders depth destinationFolderSignatures destinationFolder
                            allowedExtensions)
    (fun _ => ret tt) >>
  ret (destinationMap, destinationFolderSignatures).

Definition resume_process (depth : nat) (sourceFolders : list string)
    (destinationFolder : string) (extensions : list string) : M unit :=
  modifyState (setPaused false) >>
  let allowedExtensions := map Path.toLowerCase extensions in
  let* (destinationMap, destinationFolderSignatures) :=
    reindexDestination depth destinationFolder allowedExtensions in
  let* s := getState in
  let processedFiles := processedFilesOf (copiedFolders s) (fileList s) in
  fileLoop destFolderPath_resume destinationFolder destinationMap processedFiles
           (drop (currentIndex s) (fileList s)) (currentIndex s) >>
  let* p := isPaused in
  if negb p then sendProcessComplete None else ret tt.

(** Resuming as the specification words it: destination indexing, then the
    whole folder-merge pass again (grouping, signature check, merge of the
    members that are not duplicates), then the per-file pass from the saved
    cursor. *)
Definition resume_process_replaying (depth : nat) (sourceFolders : list string)
    (destinationFolder : string) (extensions : list string) : M unit :=
  modifyState (setPaused false) >>
  let allowedExtensions := map Path.toLowerCase extensions in
  let* (destinationMap, destinationFolderSignatures) :=
    reindexDestination depth destinationFolder allowedExtensions in
  let* folderGroupsByName := groupLeafFolders allowedExtensions in
  folderMergePass depth destinationFolderSignatures destinationFolder
                  folderGroupsByName >>
  let* s := getState in
  let processedFiles := processedFilesOf (copiedFolders s) (fileList s) in
  fileLoop destFolderPath_resume destinationFolder destinationMap processedFiles
           (drop (currentIndex s) (fileList s)) (currentIndex s) >>
  let* p := isPaused in
  if negb p then sendProcessComplete None else ret tt.

(** ** merge-folders and confirm-merge *)

Fixpoint getAllFolders (depth : nat) (dirPath : string) (folderList : list LeafFolder)
  : M (list LeafFolder) :=
  match depth with
  | 0 => tick >> ret folderList
  | S depth' =>
      let* listing := catch (let* entries := readdir dirPath in ret (Some entries))
                            (fun _ => ret None) in
      match listing with
      | None => ret folderList
      | Some entries =>
          let* (folderList', hasSubFolders) :=
            forOfAcc entries (folderList, false)
              (fun entry '(folderList, hasSubFolders) =>
                 if de_isDirectory entry then
                   let fullPath := Path.join [dirPath; de_name entry] in
                   let* folderList' := getAllFolders depth' fullPath folderList in
                   ret (Next, (folderList', true))
                 else ret (Next, (folderList, hasSubFolders))) in
          if hasSubFolders then ret folderList'
          else ret (folderList' ++
                    [mkLeafFolder dirPath (Path.basename dirPath)
                                  (Path.dirname dirPath) true])
      end
  end.

Definition zeroStats : Stats := mkStats 0 0 0 0.

Definition merge_folders (depth : nat) (destinationFolder : string) : M unit :=
  catch
    (modifyState (setPaused false) >>
     modifyState (setStats zeroStats) >>
     sendProgress "Scanning destination folder..." >>
     let* allFolders := getAllFolders depth destinationFolder [] in
     let leafFolders := filter (fun f => lf_isLeaf f = true) allFolders in
     let* folderGroups :=
       forOfAcc leafFolders []
         (fun folder folderGroups =>
            let* p := isPaused in
            if p then ret (Break, folderGroups)
            else ret (Next, pushGroup (normalizeFolderName (lf_name folder)) folder
                                      folderGroups)) in
     let foldersToMerge :=
       flat_map (fun '(normalizedName, folders) =>
                   match folders with
                   | firstFolder :: _ :: _ =>
                       [mkMergeGroup normalizedName folders (lf_parent firstFolder)]
                   | _ => []
                   end)
                folderGroups in
     let* s := getState in
     match foldersToMerge with
     | [] => send (MergeComplete (stats s)
                     (Some "No duplicate folders found to merge.") None)
     | _ => send (MergeConfirmation foldersToMerge)
     end)
    (fun err => let* s := getState in send (MergeComplete (stats s) None (Some err))).

Definition confirm_merge (depth : nat) (destinationFolder : string)
    (foldersToMerge : list MergeGroup) : M unit :=
  catch
    (modifyState (setPaused false) >>
     forOf foldersToMerge
       (fun folderInfo =>
          let* p := isPaused in
          if p then ret Break
          else
            let normalizedName := mg_name folderInfo in
            let folders := mg_folders folderInfo in
            match folders with
            | [] => throw "TypeError"
            | firstFolder :: _ =>
                let targetFolder := lf_path firstFolder in
                sendProgress ("Merging folder: " +:+ normalizedName) >>
                let* fileHashMap := newMap in
                catch (seedFileHashMap fileHashMap targetFolder) (fun _ => ret tt) >>
                forOf folders
                  (fun folder =>
                     let* p := isPaused in
                     if p then ret Break
                     else if lf_path folder =? targetFolder then ret Next
                     else
                       catch
                         (mergeFolderRecursive depth (lf_path folder) targetFolder
                                               fileHashMap >>
                          rm (lf_path folder) >>
                          ret Next)
                         (fun _ => ret Next)) >>
                ret Next
            end) >>
     let* s := getState in
     send (MergeComplete (stats s) None None))
    (fun err => let* s := getState in send (MergeComplete (stats s) None (Some err))).

End Engine.

(** ** A platform to run the model on

    The digest is replaced by a marker in front of the hashed bytes, so that
    different inputs have different digests; a stream delivers a file in one
    chunk; names are ordered by their code. *)

Definition codeCompare (a b : string) : Z :=
  (Z.pos (encode a) - Z.pos (encode b))%Z.

Definition samplePlatform : Platform :=
  {| sha256 := fun bytes => "#" +:+ bytes;
     chunksOf := fun content => if Path.nonEmpty content then [content] else [];
     localeCompare := codeCompare |}.

(** A world with nothing but the file system [root]; the [pause-process]
    handler runs at the suspension point given by [pauseAt]. *)
Definition freshWorld (root : node) (pauseAt : option nat) : World :=
  mkWorld initialState root pauseAt [] [] [].

(** The world in which the next handler is invoked: the earlier copies are
    forgotten and the pause request, if any, is set anew. *)
Definition nextCall (pauseAt : option nat) (w : World) : World :=
  setPauseIn pauseAt (setCopyLog [] w).

(** Two source folders of one group, each with a file [x.txt] of different
    content, next to a file that no leaf folder holds. *)
Definition tripsRoot : node :=
  Dir [("S", Dir [("Trip", Dir [("x.txt", File "1")]);
                  ("Trip_2", Dir [("x.txt", File "2")]);
                  ("notes.txt", File "n")]);
       ("D", Dir [])].

(** A source root with two files of its own and a leaf folder. *)
Definition looseRoot : node :=
  Dir [("S", Dir [("a.txt", File "A");
                  ("b.txt", File "B");
                  ("sub", Dir [("c.txt", File "C")])]);
       ("D", Dir [])].

(** A destination with two leaf folders of one normalized name; the second
    holds a file the first has and one it has not. *)
Definition photosRoot : node :=
  Dir [("D", Dir [("Photos", Dir [("p1.jpg", File "one")]);
                  ("Photos_bak", Dir [("p1.jpg", File "one");
                                      ("p2.jpg", File "two")])])].

(** The groups that [merge-folders] proposes for [photosRoot], as it sends
    them for confirmation. *)
Definition photosGroups : list MergeGroup :=
  [mkMergeGroup "Photos"
     [mkLeafFolder "/D/Photos" "Photos" "/D" true;
      mkLeafFolder "/D/Photos_bak" "Photos_bak" "/D" true]
     "/D"].

(** Two folders with the same two files, enumerated in opposite orders, and
    the records a scan makes of them. *)
Definition orderRoot : node :=
  Dir [("A", Dir [("x.txt", File "1"); ("y.txt", File "22")]);
       ("B", Dir [("y.txt", File "22"); ("x.txt", File "1")])].

Definition folderXY : FolderInfo :=
  mkFolderInfo "/A" "A"
    [mkFileInfo "/A/x.txt" 1 "x.txt" "x.txt" "/A" ".";
     mkFileInfo "/A/y.txt" 2 "y.txt" "y.txt" "/A" "."]
    [] true.

Definition folderYX : FolderInfo :=
  mkFolderInfo "/B" "B"
    [mkFileInfo "/B/y.txt" 2 "y.txt" "y.txt" "/B" ".";
     mkFileInfo "/B/x.txt" 1 "x.txt" "x.txt" "/B" "."]
    [] true.

(** A source file whose name is taken in the destination by a file of other
    content, and the record a scan makes of it. *)
Definition clashRoot : node :=
  Dir [("S", Dir [("notes.txt", File "new"); ("sub", Dir [])]);
       ("D", Dir [("notes.txt", File "old")])].

Definition clashFile : FileInfo :=
  mkFileInfo "/S/notes.txt" 3 "notes.txt" "notes.txt" "/S" ".".

(** Nesting deeper than any of the sample trees. *)
Definition sampleDepth : nat := 8.

(** * Vocabulary of the statements

    [preserves R m] says that running [m] relates the world before to the
    world after by [R], whatever [m] returns or throws. *)

Definition preserves {A} (R : World -> World -> Prop) (m : M A) : Prop :=
  forall w, R w (snd (m w)).

(** [quiet w w'] holds when [w'] differs from [w] at most by the pause
    request having been served, which raises the flag, and by messages sent:
    the file system, the maps, the copies made and the rest of [state] are
    the same. *)

Definition quiet (w w' : World) : Prop :=
  fs w' = fs w
  /\ maps w' = maps w
  /\ copyLog w' = copyLog w
  /\ setPaused false (state w') = setPaused false (state w)
  /\ (paused (state w) = true -> paused (state w') = true).

(** [sameBooks w w']: the maps and the record of copies are the same. *)

Definition sameBooks (w w' : World) : Prop :=
  maps w' = maps w /\ copyLog w' = copyLog w.

(** [growsFs w w']: like [quiet], but directories may have been added. *)

Definition growsFs (w w' : World) : Prop :=
  maps w' = maps w
  /\ copyLog w' = copyLog w
  /\ setPaused false (state w') = setPaused false (state w)
  /\ forall q, is_Some (FS.lookup (fs w) q) -> is_Some (FS.lookup (fs w') q).

(** [indexing w w']: only maps, the flag and the outbox changed. *)

Definition indexing (w w' : World) : Prop :=
  fs w' = fs w
  /\ copyLog w' = copyLog w
  /\ setPaused false (state w') = setPaused false (state w).

(** [keepsFolders w w']: the absorbed folders, the merge report and the file
    list are the same. *)

Definition keepsFolders (w w' : World) : Prop :=
  copiedFolders (state w') = copiedFolders (state w)
  /\ folderReport (state w') = folderReport (state w)
  /\ fileList (state w') = fileList (state w).

Definition isSome {A} (o : option A) : bool :=
  match o with Some _ => true | None => false end.

Section CopyKeys.

Context `{Platform}.

(** The ContentKey of the content that a copy wrote. *)
Definition eventKey (e : CopyEvent) : string := contentKey (c_content e).

(** Between [w] and [w'] the map at [fileHashMap] only grew, and the copies
    made in between have pairwise different keys, none of which the map
    held before and all of which it holds after. *)
Definition mergedOnce (fileHashMap : nat) (w w' : World) : Prop :=
  fileHashMap < List.length (maps w) ->
  List.length (maps w') = List.length (maps w)
  /\ (mapAt w fileHashMap ⊆ mapAt w' fileHashMap)
  /\ exists new,
       copyLog w' = copyLog w ++ new
       /\ NoDup (map eventKey new)
       /\ forall e, e ∈ new ->
                    (eventKey e ∉ mapAt w fileHashMap)
                    /\ (eventKey e ∈ mapAt w' fileHashMap).

End CopyKeys.

(** ** copyFolderRecursive

    The plain recursive copy; no handler calls it. *)

Fixpoint copyFolderRecursive (depth : nat) (sourcePath destPath : string) : M unit :=
  match depth with
  | 0 => tick >> throw "ENAMETOOLONG"
  | S depth' =>
      mkdir destPath >>
      let* entries := readdir sourcePath in
      forOf entries
        (fun entry =>
           let* p := isPaused in
           if p then ret Break
           else
             let sourceEntry := Path.join [sourcePath; de_name entry] in
             let destEntry := Path.join [destPath; de_name entry] in
             catch
               (if de_isDirectory entry then
                  copyFolderRecursive depth' sourceEntry destEntry >> ret Next
                else if de_isFile entry then
                  copyFile sourceEntry destEntry >> ret Next
                else ret Next)
               (fun _ => ret Next))
  end.

(** ** More vocabulary

    [ensures P m Q E]: started in a world where [P] holds, [m] ends in a
    world where [Q] holds of its result, or throws in a world where [E]
    holds of the error. *)

Definition ensures {A} (P : World -> Prop) (m : M A)
    (Q : A -> World -> Prop) (E : string -> World -> Prop) : Prop :=
  forall w, P w ->
    match m w with
    | (Ok a, w') => Q a w'
    | (Throw e, w') => E e w'
    end.

(** [noThrow m]: whatever the world, [m] returns. *)

Definition noThrow {A} (m : M A) : Prop :=
  forall w, exists a w', m w = (Ok a, w').

(** A name with an underscore in it. *)

Definition hasUnderscore (s : string) : Prop :=
  "_"%char ∈ list_ascii_of_string s.

(** [reads w w']: like [quiet], and no message was sent. *)

Definition reads (w w' : World) : Prop :=
  quiet w w' /\ outbox w' = outbox w.

(** [yields R w0 m Q]: run from a world that [R] relates to [w0], [m] ends
    in such a world again, and what it returns satisfies [Q]. *)

Definition yields {A} (R : World -> World -> Prop) (w0 : World) (m : M A)
    (Q : A -> Prop) : Prop :=
  ensures (R w0) m (fun a w' => Q a /\ R w0 w') (fun _ w' => R w0 w').

(** The size that [stat] reports for what is at [p]. *)

Definition sizeAt (root : node) (p : string) : option nat :=
  match FS.lookup root (Path.resolve p) with
  | Some (File c) => Some (String.length c)
  | Some (Dir _) => Some 0
  | None => None
  end.

(** What holds of a file record and of a folder record that [scanDirectory]
    makes with the extension filter [allowedExtensions] on the tree
    [root]. *)

Definition scannedFile (allowedExtensions : list string) (root : node)
    (f : FileInfo) : Prop :=
  extensionAllowed allowedExtensions (f_name f) = true
  /\ f_path f = Path.join [f_folderPath f; f_name f]
  /\ sizeAt root (f_path f) = Some (f_size f).

Definition scannedFolder (allowedExtensions : list string) (root : node)
    (d : FolderInfo) : Prop :=
  (d_isLeaf d = true <-> d_subFolders d = [])
  /\ (d_files d <> [] \/ d_subFolders d <> [])
  /\ Forall (fun f => f_folderPath f = d_path d
                      /\ scannedFile allowedExtensions root f)
            (d_files d).

(** [scanning allowedExtensions w w']: the two lists of [state] grew by
    records of that kind, the flag may have changed, and nothing else
    did. *)

Definition scanning (allowedExtensions : list string) (w w' : World) : Prop :=
  fs w' = fs w /\ maps w' = maps w /\ copyLog w' = copyLog w
  /\ outbox w' = outbox w
  /\ setFileList [] (setFolderList [] (setPaused false (state w')))
     = setFileList [] (setFolderList [] (setPaused false (state w)))
  /\ (exists files,
        fileList (state w') = fileList (state w) ++ files
        /\ Forall (scannedFile allowedExtensions (fs w)) files)
  /\ (exists folders,
        folderList (state w') = folderList (state w) ++ folders
        /\ Forall (scannedFolder allowedExtensions (fs w)) folders).

(** Groups as [pushGroup] builds them from elements [x] pushed under a
    name [n] with [P n x]: no two groups have the same name, no group is
    empty, and [P] holds of the name of a group and each of its elements. *)

Definition grouped {A} (P : string -> A -> Prop) (groups : list (string * list A))
  : Prop :=
  NoDup (map fst groups)
  /\ Forall (fun g => snd g <> [] /\ Forall (P (fst g)) (snd g)) groups.

(** [onlyAdds w w']: no entry of the file system went away or changed its
    kind (the content of a file may have changed); no message was sent and
    [state] is the same but for the flag. *)

Definition onlyAdds (w w' : World) : Prop :=
  setPaused false (state w') = setPaused false (state w)
  /\ outbox w' = outbox w
  /\ forall q n, FS.lookup (fs w) q = Some n ->
       exists n', FS.lookup (fs w') q = Some n' /\ FS.isDir n' = FS.isDir n.

(** [mirrors sourcePath destPath s d]: [s] is reached from [sourcePath] by
    joining the same names, in the same order, that lead from [destPath] to
    [d]. *)

Inductive mirrors (sourcePath destPath : string) : string -> string -> Prop :=
| mirrors_here : mirrors sourcePath destPath sourcePath destPath
| mirrors_below (s d name : string) :
    mirrors sourcePath destPath s d ->
    mirrors sourcePath destPath (Path.join [s; name]) (Path.join [d; name]).

(** [copying P w w']: the copies made between [w] and [w'] satisfy [P]. *)

Definition copying (P : CopyEvent -> Prop) (w w' : World) : Prop :=
  exists new, copyLog w' = copyLog w ++ new /\ Forall P new.

(** [keepsState w w']: [state] is the same but for the flag. *)

Definition keepsState (w w' : World) : Prop :=
  setPaused false (state w') = setPaused false (state w).

(** [onlyProgress w w']: the messages sent between [w] and [w'] are progress
    updates. *)

Definition isProgress (msg : Message) : Prop :=
  exists currentFile s, msg = ProgressUpdate currentFile s.

Definition onlyProgress (w w' : World) : Prop :=
  exists msgs, outbox w' = outbox w ++ msgs /\ Forall isProgress msgs.

(** [sameStats w w']: the counters are the same. *)

Definition sameStats (w w' : World) : Prop :=
  stats (state w') = stats (state w).

(** [counting w w']: no counter went down, and the files counted as copied
    or as duplicates between [w] and [w'] are no more than the files counted
    as scanned. *)

Definition counting (w w' : World) : Prop :=
  scanned (stats (state w)) <= scanned (stats (state w'))
  /\ copied (stats (state w)) <= copied (stats (state w'))
  /\ duplicates (stats (state w)) <= duplicates (stats (state w'))
  /\ sizeCopied (stats (state w)) <= sizeCopied (stats (state w'))
  /\ copied (stats (state w')) + duplicates (stats (state w'))
     + scanned (stats (state w))
     <= copied (stats (state w)) + duplicates (stats (state w))
        + scanned (stats (state w')).

(** What one round of the per-file pass does to the counters after it has
    counted the file as scanned: nothing more, or one duplicate, or one copy
    of the recorded size. *)

Definition countedOnce (file : FileInfo) (st st' : Stats) : Prop :=
  st' = st \/ st' = addDuplicates 1 st \/ st' = addCopied 1 (f_size file) st.

Section IndexKeys.

Context `{Platform}.

(** [indexes m w w']: the file system is the same, no map was made, and
    every key that the map at [m] gained is the ContentKey of a file of the
    file system. *)

Definition indexes (m : nat) (w w' : World) : Prop :=
  fs w' = fs w
  /\ List.length (maps w') = List.length (maps w)
  /\ forall k, k ∈ mapAt w' m ->
       k ∈ mapAt w m
       \/ exists p content,
            FS.lookup (fs w) (Path.resolve p) = Some (File content)
            /\ k = contentKey content.

End IndexKeys.

(** [steady w w']: the scanned counter is the same, and a run in which no
    pause is requested stays so, with the flag as it was. *)

Definition steady (w w' : World) : Prop :=
  scanned (stats (state w')) = scanned (stats (state w))
  /\ (pauseIn w = None ->
      pauseIn w' = None /\ paused (state w') = paused (state w)).

(** [calmAt n w]: the flag is down, no pause is requested, and [n] files
    have been counted as scanned. *)

Definition calmAt (n : nat) (w : World) : Prop :=
  paused (state w) = false /\ pauseIn w = None
  /\ scanned (stats (state w)) = n.

(** ** A platform whose comparator has ties

    [localeCompare] gives 0 for two strings that are canonically
    equivalent, such as the letter e with an acute accent written as one
    code point (U+00E9, the bytes C3 A9 in UTF-8) and written as the letter
    followed by the combining accent (U+0065 U+0301, the bytes 65 CC 81).
    [composeAccent] brings the second form to the first, and
    [canonicalCompare] orders names by their code after that. *)

Fixpoint composeAccent (s : string) : string :=
  match s with
  | EmptyString => EmptyString
  | String a t =>
      match t with
      | String b (String c r) =>
          if Ascii.eqb a "e" && Ascii.eqb b (ascii_of_nat 204)
             && Ascii.eqb c (ascii_of_nat 129)
          then String (ascii_of_nat 195) (String (ascii_of_nat 169) (composeAccent r))
          else String a (composeAccent t)
      | _ => String a (composeAccent t)
      end
  end.

Definition canonicalCompare (a b : string) : Z :=
  codeCompare (composeAccent a) (composeAccent b).

Definition canonicalPlatform : Platform :=
  {| sha256 := fun bytes => "#" +:+ bytes;
     chunksOf := fun content => if Path.nonEmpty content then [content] else [];
     localeCompare := canonicalCompare |}.

(** The two spellings of one file name. *)
Definition composedName : string :=
  String (ascii_of_nat 195) (String (ascii_of_nat 169) ".txt").

Definition decomposedName : string :=
  String "e" (String (ascii_of_nat 204) (String (ascii_of_nat 129) ".txt")).

(** Two folders that hold the same two files, of those two names, and list
    them in opposite orders. *)
Definition accentRoot : node :=
  Dir [("A", Dir [(composedName, File "1"); (decomposedName, File "2")]);
       ("B", Dir [(decomposedName, File "2"); (composedName, File "1")])].

(** A source folder with two files and a destination folder that holds the
    first of them, before and after the second file of the source folder
    went away. *)
Definition vanishingBefore : node :=
  Dir [("S", Dir [("Trip_2", Dir [("x.txt", File "1"); ("y.txt", File "22")])]);
       ("D", Dir [("Trip", Dir [("x.txt", File "1")])])].

Definition vanishingAfter : node :=
  Dir [("S", Dir [("Trip_2", Dir [("x.txt", File "1")])]);
       ("D", Dir [("Trip", Dir [("x.txt", File "1")])])].

Section AfterScan.

Context `{Platform}.

(** What start-process does between the scan of the sources and the
    per-file pass, lines 352-508. *)
Definition indexAndMerge (depth : nat) (destinationFolder : string)
    (allowedExtensions : list string) : M unit :=
  let* (destinationMap, destinationFolderSignatures) :=
    indexDestination depth destinationFolder allowedExtensions in
  let* folderGroupsByName := groupLeafFolders allowedExtensions in
  folderMergePass depth destinationFolderSignatures destinationFolder
                  folderGroupsByName.

End AfterScan.

(** The records that a scan makes of the two folders of [accentRoot]. *)
Definition folderComposedFirst : FolderInfo :=
  mkFolderInfo "/A" "A"
    [mkFileInfo ("/A/" +:+ composedName) 1 composedName composedName "/A" ".";
     mkFileInfo ("/A/" +:+ decomposedName) 1 decomposedName decomposedName "/A" "."]
    [] true.

Definition folderDecomposedFirst : FolderInfo :=
  mkFolderInfo "/B" "B"
    [mkFileInfo ("/B/" +:+ decomposedName) 1 decomposedName decomposedName "/B" ".";
     mkFileInfo ("/B/" +:+ composedName) 1 composedName composedName "/B" "."]
    [] true.

(** * Properties *)

(** ** Destination paths of the two per-file passes *)

Lemma normalizeFolderName_empty : normalizeFolderName "" = "".
Proof. reflexivity. Qed.

Lemma nonEmpty_false (s : string) : Path.nonEmpty s <> true -> s = "".
Proof. destruct s; simpl; congruence. Qed.

(** Dropping the empty segments before normalizing the names changes
    nothing once the empty names are dropped afterwards. *)
Lemma filter_normalized_parts (parts : list string) :
  filter (fun a => Path.nonEmpty a = true)
         (map normalizeFolderName (filter (fun p => Path.nonEmpty p = true) parts))
  = filter (fun a => Path.nonEmpty a = true) (map normalizeFolderName parts).
Proof.
  induction parts as [|part parts IH]; [reflexivity|].
  rewrite filter_cons. destruct (decide (Path.nonEmpty part = true)) as [Hne|Hne].
  - simpl map. rewrite !filter_cons, IH. reflexivity.
  - apply nonEmpty_false in Hne. subst part. simpl map.
    rewrite normalizeFolderName_empty, filter_cons_False by (simpl; congruence).
    exact IH.
Qed.

Lemma join_skips_empty (first : string) (parts : list string) :
  Path.join (first :: map normalizeFolderName
                        (filter (fun p => Path.nonEmpty p = true) parts))
  = Path.join (first :: map normalizeFolderName parts).
Proof.
  unfold Path.join. rewrite !(filter_cons _ first), filter_normalized_parts.
  reflexivity.
Qed.

(** C10. For every file record and destination root, the destination folder
    computed by the per-file pass of start-process (which filters out the
    empty segments of folderRelativePath before normalizing them) is the one
    computed by the pass of resume-process (which does not), whatever the
    folder-relative path is, segments that normalize to the empty string
    included. *)
Theorem destFolderPath_start_eq_resume :
  forall (destinationFolder : string) (file : FileInfo),
    destFolderPath_start destinationFolder (f_folderRelativePath file)
    = destFolderPath_resume destinationFolder (f_folderRelativePath file).
Proof.
  intros destinationFolder file.
  unfold destFolderPath_start, destFolderPath_resume.
  destruct (Path.nonEmpty (f_folderRelativePath file)
            && negb (f_folderRelativePath file =? ".")); [|reflexivity].
  apply join_skips_empty.
Qed.

(** A folder name that begins with an underscore normalizes to the empty
    string and leaves no segment in either path. *)
Example destFolderPath_underscore :
  destFolderPath_start "/D" "Trip_2/_old/img" = "/D/Trip/img"
  /\ destFolderPath_resume "/D" "Trip_2/_old/img" = "/D/Trip/img".
Proof. split; reflexivity. Qed.

(** ** hashFile and the pause flag *)

Section HashEvents.

Context `{Platform}.

Lemma onData_paused (observed : list (bool * string)) (hash : string) :
  Forall (fun ev => fst ev = true) observed ->
  fold_left onData observed hash = hash.
Proof.
  intros Hall. revert hash.
  induction Hall as [|[p c] l Hp _ IH]; intros hash; [reflexivity|].
  simpl in *. subst p. apply IH.
Qed.

Lemma append_cons (a : ascii) (s t : string) :
  String a s +:+ t = String a (s +:+ t).
Proof. reflexivity. Qed.

Lemma append_empty_r (s : string) : s +:+ "" = s.
Proof. induction s; [reflexivity|]. rewrite append_cons. congruence. Qed.

Lemma append_assoc (a b c : string) : (a +:+ b) +:+ c = a +:+ (b +:+ c).
Proof. induction a; [reflexivity|]. rewrite !append_cons. congruence. Qed.

Lemma onData_unpaused (chunks : list string) (hash : string) :
  fold_left onData (map (pair false) chunks) hash
  = hash +:+ String.concat "" chunks.
Proof.
  revert hash. induction chunks as [|c l IH]; intros hash.
  - simpl. symmetry. apply append_empty_r.
  - change (fold_left onData (map (pair false) (c :: l)) hash)
      with (fold_left onData (map (pair false) l) (hash +:+ c)).
    rewrite IH, append_assoc. destruct l as [|c' l]; [|reflexivity].
    simpl String.concat. now rewrite append_empty_r.
Qed.

(** When the flag is up as the stream ends, the promise is rejected, and
    the digest accumulated so far is dropped. *)
Lemma hashFile_events_paused_at_end (observed : list (bool * string)) :
  hashFile_events observed true = Throw "Paused".
Proof. reflexivity. Qed.

(** A promise that resolves while the flag was never seen raised carries the
    digest of the whole file. *)
Lemma hashFile_events_unpaused (chunks : list string) :
  hashFile_events (map (pair false) chunks) false
  = Ok (sha256 (String.concat "" chunks)).
Proof.
  unfold hashFile_events. rewrite onData_unpaused. reflexivity.
Qed.

(** C2. The flag is up while the first chunk of a two-chunk file is
    delivered and down again when the second chunk and the end of the stream
    arrive (a handler that starts or resumes a run has lowered it): the
    promise resolves, with the digest of the second chunk alone. *)
Theorem hashFile_events_resolves_partial_digest :
  hashFile_events [(true, "first"); (false, "second")] false
  = Ok (sha256 "second")
  /\ hashFile_events [(false, "first"); (false, "second")] false
     = Ok (sha256 "firstsecond").
Proof. split; reflexivity. Qed.

End HashEvents.

(** ** Folder signatures and the order of enumeration *)

Section SignatureOrder.

Context `{Platform}.

(** The comparator is taken to be total and transitive.  It is not taken to
    tell any two names apart: [localeCompare] gives 0 for two spellings of
    one name.  The lemmas below are about the lists of triples whose names
    it does tell apart, which is a premise on the list. *)
Hypothesis localeCompare_total :
  forall a b, (localeCompare a b <= 0)%Z \/ (localeCompare b a <= 0)%Z.
Hypothesis localeCompare_trans :
  forall a b c, (localeCompare a b <= 0)%Z -> (localeCompare b c <= 0)%Z ->
                (localeCompare a c <= 0)%Z.

Lemma nameBefore_le (a b : FileHash) : nameBefore a b = true <-> nameLe a b.
Proof. unfold nameBefore, nameLe. apply Z.leb_le. Qed.

Lemma insertByName_perm (x : FileHash) (l : list FileHash) :
  insertByName x l ≡ₚ x :: l.
Proof.
  induction l as [|y l IH]; simpl; [reflexivity|].
  destruct (nameBefore x y); [reflexivity|].
  rewrite IH. apply Permutation_swap.
Qed.

Lemma sortByName_perm (l : list FileHash) : sortByName l ≡ₚ l.
Proof.
  induction l as [|x l IH]; simpl; [reflexivity|].
  rewrite insertByName_perm, IH. reflexivity.
Qed.

Lemma insertByName_sorted (x : FileHash) (l : list FileHash) :
  StronglySorted nameLe l -> StronglySorted nameLe (insertByName x l).
Proof.
  induction 1 as [|y l Hl IH Hy]; simpl.
  - repeat constructor.
  - destruct (nameBefore x y) eqn:Hxy.
    + apply nameBefore_le in Hxy. constructor; [constructor; assumption|].
      constructor; [assumption|].
      eapply Forall_impl; [exact Hy|].
      intros z Hz. unfold nameLe in *. eauto.
    + constructor; [assumption|].
      assert (Hyx : nameLe y x).
      { destruct (localeCompare_total (h_name x) (h_name y)) as [Hle|Hle];
          [|exact Hle].
        apply nameBefore_le in Hle. congruence. }
      rewrite insertByName_perm. constructor; assumption.
Qed.

Lemma sortByName_sorted (l : list FileHash) : StronglySorted nameLe (sortByName l).
Proof.
  induction l as [|x l IH]; simpl; [constructor|].
  apply insertByName_sorted, IH.
Qed.

(** Two sorted lists with the same elements, no name twice and no two
    names that the comparator ties, are equal. *)
Lemma sorted_perm_unique (l1 l2 : list FileHash) :
  StronglySorted nameLe l1 -> StronglySorted nameLe l2 ->
  l1 ≡ₚ l2 -> NoDup (map h_name l1) ->
  (forall a b, a ∈ l1 -> b ∈ l1 -> nameLe a b -> nameLe b a -> h_name a = h_name b) ->
  l1 = l2.
Proof.
  intros Hs1. revert l2.
  induction Hs1 as [|x l1 Hs1 IH Hx]; intros l2 Hs2 Hperm Hnd Hapart.
  - apply Permutation_nil_l in Hperm. congruence.
  - destruct Hs2 as [|y l2 Hs2 Hy].
    + symmetry in Hperm. apply Permutation_nil_l in Hperm. discriminate.
    + assert (Hxy : x = y).
      { assert (Hin_x : x ∈ y :: l2) by (rewrite <- Hperm; left).
        assert (Hin_y : y ∈ x :: l1) by (rewrite Hperm; left).
        apply elem_of_cons in Hin_x as [?|Hin_x]; [assumption|].
        apply elem_of_cons in Hin_y as [?|Hin_y]; [congruence|].
        assert (Hname : h_name x = h_name y).
        { apply Hapart; [left|right; exact Hin_y| |].
          - rewrite Forall_forall in Hx. apply Hx, Hin_y.
          - rewrite Forall_forall in Hy. apply Hy, Hin_x. }
        simpl in Hnd. apply NoDup_cons in Hnd as [Hnotin _].
        exfalso. apply Hnotin. rewrite Hname.
        apply list_elem_of_fmap. exists y. split; [reflexivity|assumption]. }
      subst y. f_equal. apply IH; [assumption| | |].
      * eapply Permutation_cons_inv. exact Hperm.
      * simpl in Hnd. apply NoDup_cons in Hnd as [_ Hnd]. exact Hnd.
      * intros a b Ha Hb. apply Hapart; right; assumption.
Qed.

Lemma sortByName_unique (l1 l2 : list FileHash) :
  l1 ≡ₚ l2 -> NoDup (map h_name l1) ->
  (forall a b, a ∈ l1 -> b ∈ l1 -> nameLe a b -> nameLe b a -> h_name a = h_name b) ->
  sortByName l1 = sortByName l2.
Proof.
  intros Hperm Hnd Hapart.
  apply sorted_perm_unique; try apply sortByName_sorted.
  - rewrite !sortByName_perm. exact Hperm.
  - eapply NoDup_Permutation_proper; [|exact Hnd].
    apply fmap_Permutation, sortByName_perm.
  - intros a b Ha Hb. rewrite sortByName_perm in Ha, Hb. auto.
Qed.

Lemma signatureDigest_perm (l1 l2 : list FileHash) :
  l1 ≡ₚ l2 -> NoDup (map h_name l1) ->
  (forall a b, a ∈ l1 -> b ∈ l1 -> nameLe a b -> nameLe b a -> h_name a = h_name b) ->
  signatureDigest l1 = signatureDigest l2.
Proof.
  intros Hperm Hnd Hapart. unfold signatureDigest.
  rewrite (sortByName_unique l1 l2 Hperm Hnd Hapart). reflexivity.
Qed.

(** What [buildFolderSignature] returns is made from the triples it
    collected: their digest, and the triples themselves, sorted. *)
Lemma buildFolderSignature_result (folderInfo : FolderInfo)
    (allowedExtensions : list string) (w : World) (s : Signature) :
  fst (buildFolderSignature folderInfo allowedExtensions w) = Ok s ->
  exists fileHashes,
    s_hash s = signatureDigest fileHashes
    /\ s_files s = sortByName fileHashes
    /\ s_fileCount s = List.length fileHashes.
Proof.
  unfold buildFolderSignature, bind.
  destruct (forOfAcc _ _ _ w) as [[fileHashes|err] w']; simpl; [|discriminate].
  intros [= <-]. exists fileHashes. simpl. auto.
Qed.

(** Two folders whose direct files give the same multiset of (name, size,
    hash) triples, no name occurring twice in a folder and no two names of
    the folder tied by the comparator, have the same signature digest from
    buildFolderSignature, in whatever order the files were enumerated; and
    the digest buildDestinationFolderSignature computes for a destination
    folder with these triples is that digest too. *)
Lemma folder_signature_order_independent :
  forall (folderA folderB : FolderInfo) (extA extB : list string) (wA wB : World)
         (sigA sigB : Signature) (destFolder : DestFolderInfo),
    fst (buildFolderSignature folderA extA wA) = Ok sigA ->
    fst (buildFolderSignature folderB extB wB) = Ok sigB ->
    NoDup (map h_name (s_files sigA)) ->
    (forall a b, a ∈ s_files sigA -> b ∈ s_files sigA ->
                 (localeCompare (h_name a) (h_name b) <= 0)%Z ->
                 (localeCompare (h_name b) (h_name a) <= 0)%Z ->
                 h_name a = h_name b) ->
    (s_files sigA ≡ₚ s_files sigB -> s_hash sigA = s_hash sigB)
    /\ (s_files sigA ≡ₚ destFileHashes destFolder ->
        s_hash sigA = buildDestinationFolderSignature destFolder).
Proof.
  intros folderA folderB extA extB wA wB sigA sigB destFolder HA HB Hnd Hapart.
  apply buildFolderSignature_result in HA as (lA & HhashA & HfilesA & _).
  apply buildFolderSignature_result in HB as (lB & HhashB & HfilesB & _).
  assert (HndA : NoDup (map h_name lA)).
  { eapply NoDup_Permutation_proper; [|exact Hnd].
    rewrite HfilesA. symmetry. apply fmap_Permutation, sortByName_perm. }
  assert (HapartA : forall a b, a ∈ lA -> b ∈ lA -> nameLe a b -> nameLe b a ->
                                h_name a = h_name b).
  { intros a b Ha Hb. apply Hapart; rewrite HfilesA, sortByName_perm; assumption. }
  split; intros Hperm.
  - rewrite HhashA, HhashB. apply signatureDigest_perm; [|exact HndA|exact HapartA].
    rewrite <- (sortByName_perm lA), <- (sortByName_perm lB).
    rewrite <- HfilesA, <- HfilesB. exact Hperm.
  - rewrite HhashA. unfold buildDestinationFolderSignature.
    apply signatureDigest_perm; [|exact HndA|exact HapartA].
    rewrite <- (sortByName_perm lA), <- HfilesA. exact Hperm.
Qed.

End SignatureOrder.

(** ** Reasoning about handlers *)

Section Preserves.

Context (R : World -> World -> Prop) `{!PreOrder R}.

Lemma preserves_ret {A} (a : A) : preserves R (ret a).
Proof. intros w. simpl. reflexivity. Qed.

Lemma preserves_throw {A} (e : string) : preserves R (@throw A e).
Proof. intros w. simpl. reflexivity. Qed.

Lemma preserves_bind {A B} (m : M A) (k : A -> M B) :
  preserves R m -> (forall a, preserves R (k a)) -> preserves R (bind m k).
Proof.
  intros Hm Hk w. unfold bind. specialize (Hm w).
  destruct (m w) as [[a|e] w1]; simpl in *; [|exact Hm].
  etransitivity; [exact Hm|apply Hk].
Qed.

Lemma preserves_catch {A} (m : M A) (h : string -> M A) :
  preserves R m -> (forall e, preserves R (h e)) -> preserves R (catch m h).
Proof.
  intros Hm Hh w. unfold catch. specialize (Hm w).
  destruct (m w) as [[a|e] w1]; simpl in *; [exact Hm|].
  etransitivity; [exact Hm|apply Hh].
Qed.

Lemma preserves_forOf {A} (l : list A) (body : A -> M LoopCtl) :
  (forall x, preserves R (body x)) -> preserves R (forOf l body).
Proof.
  intros Hbody. induction l as [|x l IH]; simpl.
  - apply preserves_ret.
  - apply preserves_bind; [apply Hbody|].
    intros [|]; [exact IH|apply preserves_ret].
Qed.

Lemma preserves_forOfAcc {A S} (l : list A) (acc : S)
    (body : A -> S -> M (LoopCtl * S)) :
  (forall x a, preserves R (body x a)) -> preserves R (forOfAcc l acc body).
Proof.
  intros Hbody. revert acc. induction l as [|x l IH]; intros acc; simpl.
  - apply preserves_ret.
  - apply preserves_bind; [apply Hbody|].
    intros [[|] acc']; [apply IH|apply preserves_ret].
Qed.

End Preserves.

Lemma preserves_weaken {A} (R R' : World -> World -> Prop) (m : M A) :
  (forall w w', R w w' -> R' w w') -> preserves R m -> preserves R' m.
Proof. intros Hsub Hm w. apply Hsub, Hm. Qed.

(** Running a bind or a catch one step. *)
Lemma run_bind {A B} (m : M A) (k : A -> M B) (w : World) :
  bind m k w = match m w with
               | (Ok a, w') => k a w'
               | (Throw e, w') => (Throw e, w')
               end.
Proof. reflexivity. Qed.

Lemma run_catch {A} (m : M A) (h : string -> M A) (w : World) :
  catch m h w = match m w with
                | (Ok a, w') => (Ok a, w')
                | (Throw e, w') => h e w'
                end.
Proof. reflexivity. Qed.

Lemma tick_run (w : World) : tick w = (Ok tt, snd (tick w)).
Proof. unfold tick. destruct (pauseIn w) as [[|n]|]; reflexivity. Qed.

(** With no pause requested, a suspension point changes nothing. *)
Lemma tick_idle (w : World) :
  paused (state w) = false -> pauseIn w = None ->
  paused (state (snd (tick w))) = false /\ pauseIn (snd (tick w)) = None.
Proof. intros Hp Hc. unfold tick. rewrite Hc. simpl. auto. Qed.

Lemma modify_preserves (R : World -> World -> Prop) (f : World -> World) :
  (forall w, R w (f w)) -> preserves R (modify f).
Proof. intros Hf w. apply Hf. Qed.

Create HintDb frames discriminated.

Ltac frame_step :=
  match goal with
  | |- PreOrder _ => typeclasses eauto
  | |- preserves _ _ => solve [eauto 3 with frames]
  | |- preserves _ (bind _ _) => apply preserves_bind; [| |intros]
  | |- preserves _ (catch _ _) => apply preserves_catch; [| |intros]
  | |- preserves _ (ret _) => apply preserves_ret
  | |- preserves _ (throw _) => apply preserves_throw
  | |- preserves _ (forOf _ _) => apply preserves_forOf; [|intros]
  | |- preserves _ (forOfAcc _ _ _) => apply preserves_forOfAcc; [|intros]
  | |- preserves _ (if ?b then _ else _) => destruct b
  | |- preserves _ (match ?x with _ => _ end) => destruct x
  | |- preserves _ (modifyStats _) => unfold modifyStats
  | |- preserves _ (modifyState _) => unfold modifyState
  | |- preserves ?R (modify _) =>
      apply modify_preserves; intros ?; unfold R; simpl; solve [auto]
  | |- preserves _ _ => progress cbv zeta
  end.

Ltac frame := repeat frame_step.

(** *** Steps that only read *)

#[export] Instance quiet_preorder : PreOrder quiet.
Proof.
  split.
  - intros w. unfold quiet. auto.
  - intros w1 w2 w3 (Hf & Hm & Hc & Hs & Hp) (Hf' & Hm' & Hc' & Hs' & Hp').
    unfold quiet. repeat split; try congruence. auto.
Qed.

Lemma tick_quiet : preserves quiet tick.
Proof.
  intros w. unfold tick, quiet.
  destruct (pauseIn w) as [[|n]|]; simpl; auto.
Qed.

Lemma get_quiet : preserves quiet get.
Proof. intros w. reflexivity. Qed.

Lemma getState_quiet : preserves quiet getState.
Proof. intros w. reflexivity. Qed.

Lemma isPaused_quiet : preserves quiet isPaused.
Proof. intros w. reflexivity. Qed.

Lemma send_quiet (msg : Message) : preserves quiet (send msg).
Proof. intros w. unfold quiet. simpl. auto. Qed.

Lemma mapHas_quiet (l : nat) (k : string) : preserves quiet (mapHas l k).
Proof. intros w. reflexivity. Qed.

#[export] Hint Resolve tick_quiet get_quiet getState_quiet isPaused_quiet
  send_quiet mapHas_quiet : frames.

Lemma sendProgress_quiet (currentFile : string) : preserves quiet (sendProgress currentFile).
Proof. unfold sendProgress. frame. Qed.

Lemma readdir_quiet (p : string) : preserves quiet (readdir p).
Proof. unfold readdir. frame. Qed.

Lemma readdirRecursive_quiet (p : string) : preserves quiet (readdirRecursive p).
Proof. unfold readdirRecursive. frame. Qed.

Lemma stat_quiet (p : string) : preserves quiet (stat p).
Proof. unfold stat. frame. Qed.

Lemma access_quiet (p : string) : preserves quiet (access p).
Proof. unfold access. frame. Qed.

#[export] Hint Resolve sendProgress_quiet readdir_quiet readdirRecursive_quiet
  stat_quiet access_quiet : frames.

Section HashFile.

Context `{Platform}.

Lemma lift_quiet {A} (r : Res A) : preserves quiet (fun w => (r, w)).
Proof. intros w. reflexivity. Qed.

Lemma readStream_quiet (chunks : list string) : preserves quiet (readStream chunks).
Proof. induction chunks; simpl; frame. Qed.

Lemma hashFile_quiet (filePath : string) : preserves quiet (hashFile filePath).
Proof.
  unfold hashFile. pose proof readStream_quiet. pose proof (@lift_quiet string).
  frame.
Qed.

(** The stream delivers every chunk, and a flag that is down at the end was
    down at every chunk. *)
Lemma readStream_spec (chunks : list string) (w : World) :
  exists observed w',
    readStream chunks w = (Ok observed, w')
    /\ (paused (state w') = false -> observed = map (pair false) chunks)
    /\ (paused (state w) = false -> pauseIn w = None ->
        paused (state w') = false /\ pauseIn w' = None).
Proof.
  revert w. induction chunks as [|c chunks IH]; intros w.
  - exists [], w. simpl. auto.
  - simpl. rewrite run_bind, (tick_run w).
    pose proof (tick_quiet w) as Htick.
    pose proof (tick_idle w) as Hnone.
    set (w1 := snd (tick w)) in *.
    rewrite run_bind. unfold isPaused at 1. rewrite run_bind.
    destruct (IH w1) as (rest & w2 & Hrest & Hflags & Hrun).
    pose proof (readStream_quiet chunks w1) as Hq.
    rewrite Hrest in Hq |- *. simpl in Hq.
    exists ((paused (state w1), c) :: rest), w2.
    split; [reflexivity|]. split.
    + intros Hend. rewrite (Hflags Hend).
      destruct (paused (state w1)) eqn:Hp1; [|reflexivity].
      destruct Hq as (_ & _ & _ & _ & Hmono). rewrite (Hmono Hp1) in Hend.
      discriminate.
    + intros Hp Hc. destruct (Hnone Hp Hc) as [Hp1 Hc1]. auto.
Qed.

(** A digest that [hashFile] returns is the digest of the whole file, and
    the flag is down when it is returned. *)
Lemma hashFile_ok (filePath : string) (w w' : World) (hash : string) :
  hashFile filePath w = (Ok hash, w') ->
  exists content,
    FS.lookup (fs w) (Path.resolve filePath) = Some (File content)
    /\ hash = digestOf content
    /\ paused (state w') = false.
Proof.
  unfold hashFile. rewrite run_bind. unfold get at 1.
  destruct (FS.lookup (fs w) (Path.resolve filePath)) as [[content|es]|] eqn:Hlook.
  - rewrite run_bind.
    destruct (readStream_spec (chunksOf content) w) as (observed & w1 & Hobs & Hflags & _).
    rewrite Hobs, run_bind, (tick_run w1).
    pose proof (tick_quiet w1) as Htick.
    set (w2 := snd (tick w1)) in *.
    rewrite run_bind. unfold isPaused at 1, hashFile_events.
    destruct (paused (state w2)) eqn:Hp2; [discriminate|].
    intros [= <- <-]. exists content. repeat split; [|exact Hp2].
    unfold digestOf. rewrite Hflags; [reflexivity|].
    destruct (paused (state w1)) eqn:Hp1; [|reflexivity].
    destruct Htick as (_ & _ & _ & _ & Hmono).
    rewrite (Hmono Hp1) in Hp2. discriminate.
  - rewrite run_bind, (tick_run w). discriminate.
  - rewrite run_bind, (tick_run w). discriminate.
Qed.

(** With no pause requested, a file that is there is hashed. *)
Lemma hashFile_unpaused (filePath : string) (w : World) (content : string) :
  FS.lookup (fs w) (Path.resolve filePath) = Some (File content) ->
  paused (state w) = false -> pauseIn w = None ->
  exists w',
    hashFile filePath w = (Ok (digestOf content), w')
    /\ quiet w w' /\ paused (state w') = false /\ pauseIn w' = None.
Proof.
  intros Hlook Hp Hc.
  pose proof (hashFile_quiet filePath w) as Hq.
  destruct (hashFile filePath w) as [r w'] eqn:E. simpl in Hq.
  unfold hashFile in E. rewrite run_bind in E. unfold get at 1 in E.
  rewrite Hlook, run_bind in E.
  destruct (readStream_spec (chunksOf content) w) as (observed & w1 & Hobs & Hflags & Hrun).
  destruct (Hrun Hp Hc) as [Hp1 Hc1].
  rewrite Hobs, run_bind, (tick_run w1) in E.
  destruct (tick_idle w1 Hp1 Hc1) as [Hp2 Hc2].
  set (w2 := snd (tick w1)) in *.
  rewrite run_bind in E. unfold isPaused at 1, hashFile_events in E.
  rewrite Hp2, (Hflags Hp1) in E. injection E as <- <-.
  exists w2. auto.
Qed.

(** Within one run nothing lowers the flag.  Then a pause request that is
    served at any suspension point of the stream, the one before ['end']
    included, or a flag that is up when the stream is opened, makes the
    promise reject with [Paused]. *)
Lemma readStream_world (c : string) (chunks : list string) (w : World) :
  snd (readStream (c :: chunks) w) = snd (readStream chunks (snd (tick w))).
Proof.
  remember (snd (tick w)) as w1 eqn:Hw1.
  simpl. rewrite run_bind, (tick_run w), <- Hw1, run_bind. unfold isPaused at 1.
  rewrite run_bind.
  destruct (readStream chunks w1) as [[obs|e] w']; reflexivity.
Qed.

Lemma readStream_clock (chunks : list string) :
  forall (w : World) (n : nat),
    pauseIn w = Some n ->
    (n < List.length chunks ->
     paused (state (snd (readStream chunks w))) = true)
    /\ (List.length chunks <= n ->
        pauseIn (snd (readStream chunks w)) = Some (n - List.length chunks)).
Proof.
  induction chunks as [|c chunks IH]; intros w n Hn.
  - simpl. split; [lia|]. intros _. rewrite Hn. f_equal. lia.
  - rewrite readStream_world.
    pose proof (readStream_quiet chunks (snd (tick w))) as (_ & _ & _ & _ & Hmono).
    unfold tick in *. rewrite Hn in *. destruct n as [|n]; simpl in *.
    + split; [|lia]. intros _. apply Hmono. reflexivity.
    + destruct (IH (setPauseIn (Some n) w) n eq_refl) as [Hfire Hwait].
      split; intros Hlen; [apply Hfire|apply Hwait]; lia.
Qed.

Lemma hashFile_rejects_once_paused (filePath : string) (w : World)
    (content : string) :
  FS.lookup (fs w) (Path.resolve filePath) = Some (File content) ->
  (paused (state w) = true
   \/ exists n, pauseIn w = Some n /\ n <= List.length (chunksOf content)) ->
  fst (hashFile filePath w) = Throw "Paused".
Proof.
  intros Hlook Hraised.
  unfold hashFile. rewrite run_bind. unfold get at 1. rewrite Hlook, run_bind.
  destruct (readStream_spec (chunksOf content) w) as (observed & w1 & Hobs & _).
  pose proof (readStream_quiet (chunksOf content) w) as (_ & _ & _ & _ & Hmono).
  pose proof (readStream_clock (chunksOf content) w) as Hclock.
  rewrite Hobs in *. simpl in Hmono, Hclock.
  rewrite run_bind, (tick_run w1), run_bind. unfold isPaused at 1, hashFile_events.
  enough (Hend : paused (state (snd (tick w1))) = true) by (rewrite Hend; reflexivity).
  pose proof (tick_quiet w1) as (_ & _ & _ & _ & Hmono1).
  destruct Hraised as [Hup|(n & Hn & Hle)]; [auto|].
  destruct (Hclock n Hn) as [Hfire Hwait].
  destruct (Nat.lt_ge_cases n (List.length (chunksOf content))) as [Hlt|Hge];
    [auto|].
  specialize (Hwait Hge). replace (n - List.length (chunksOf content)) with 0 in Hwait
    by lia.
  unfold tick. rewrite Hwait. reflexivity.
Qed.

End HashFile.

#[export] Hint Resolve hashFile_quiet readStream_quiet : frames.

(** *** Steps that leave the maps and the record of copies alone *)

#[export] Instance sameBooks_preorder : PreOrder sameBooks.
Proof.
  split.
  - intros w. split; reflexivity.
  - intros w1 w2 w3 [Hm Hc] [Hm' Hc']. split; congruence.
Qed.

Lemma quiet_sameBooks (w w' : World) : quiet w w' -> sameBooks w w'.
Proof. intros (_ & Hm & Hc & _). split; assumption. Qed.

Lemma setFs_sameBooks (root : node) : preserves sameBooks (modify (setFs root)).
Proof. intros w. split; reflexivity. Qed.

Lemma mkdir_sameBooks (p : string) : preserves sameBooks (mkdir p).
Proof.
  pose proof setFs_sameBooks.
  assert (Hq : forall A (m : M A), preserves quiet m -> preserves sameBooks m)
    by (intros A m; apply preserves_weaken, quiet_sameBooks).
  unfold mkdir. frame.
Qed.

(** *** mergeFolderRecursive copies a ContentKey at most once *)

Section MergeOnce.

Context `{Platform}.

Lemma mergedOnce_refl_books (fileHashMap : nat) (w w' : World) :
  maps w' = maps w -> copyLog w' = copyLog w -> mergedOnce fileHashMap w w'.
Proof.
  intros Hm Hc _. unfold mapAt. rewrite Hm, Hc. split; [reflexivity|].
  split; [reflexivity|]. exists []. split; [now rewrite app_nil_r|].
  split; [constructor|]. intros e He. inversion He.
Qed.

#[export] Instance mergedOnce_preorder (fileHashMap : nat) :
  PreOrder (mergedOnce fileHashMap).
Proof.
  split.
  - intros w. now apply mergedOnce_refl_books.
  - intros w1 w2 w3 H12 H23 Hloc.
    destruct (H12 Hloc) as (Hlen & Hsub & new1 & Hlog1 & Hnd1 & Hkeys1).
    rewrite <- Hlen in Hloc.
    destruct (H23 Hloc) as (Hlen' & Hsub' & new2 & Hlog2 & Hnd2 & Hkeys2).
    split; [congruence|]. split; [etransitivity; eassumption|].
    exists (new1 ++ new2). split; [|split].
    + rewrite Hlog2, Hlog1. now rewrite app_assoc.
    + rewrite map_app. apply NoDup_app. split; [assumption|].
      split; [|assumption].
      intros k Hk1 Hk2.
      apply list_elem_of_fmap in Hk1 as (e1 & -> & He1).
      apply list_elem_of_fmap in Hk2 as (e2 & Heq & He2).
      destruct (Hkeys1 e1 He1) as [_ Hin]. destruct (Hkeys2 e2 He2) as [Hnotin _].
      rewrite Heq in Hin. contradiction.
    + intros e He. apply elem_of_app in He as [He|He].
      * destruct (Hkeys1 e He) as [Hnotin Hin]. split; [assumption|].
        apply Hsub', Hin.
      * destruct (Hkeys2 e He) as [Hnotin Hin]. split; [|assumption].
        intros Hin'. apply Hnotin, Hsub, Hin'.
Qed.

Lemma sameBooks_mergedOnce (fileHashMap : nat) (w w' : World) :
  sameBooks w w' -> mergedOnce fileHashMap w w'.
Proof. intros [Hm Hc]. now apply mergedOnce_refl_books. Qed.

Lemma quiet_mergedOnce {A} (fileHashMap : nat) (m : M A) :
  preserves quiet m -> preserves (mergedOnce fileHashMap) m.
Proof.
  apply preserves_weaken. intros w w' Hq.
  apply sameBooks_mergedOnce, quiet_sameBooks, Hq.
Qed.

Lemma mkdir_mergedOnce (fileHashMap : nat) (p : string) :
  preserves (mergedOnce fileHashMap) (mkdir p).
Proof.
  eapply preserves_weaken; [apply sameBooks_mergedOnce|apply mkdir_sameBooks].
Qed.

Lemma stat_ok (p : string) (w w' : World) (s : StatResult) :
  stat p w = (Ok s, w') ->
  quiet w w'
  /\ forall content, FS.lookup (fs w) (Path.resolve p) = Some (File content) ->
                     st_size s = String.length content.
Proof.
  intros E. pose proof (stat_quiet p w) as Hq. rewrite E in Hq.
  split; [exact Hq|]. intros content Hlook.
  unfold stat in E. rewrite run_bind, (tick_run w), run_bind in E.
  unfold get at 1 in E.
  assert (Hfs : fs (snd (tick w)) = fs w) by apply (tick_quiet w).
  rewrite Hfs, Hlook in E. injection E as <- _. reflexivity.
Qed.

(** What a call of [copyFile] does to the maps and to the record of
    copies. *)
Lemma copyFile_spec (src dst : string) (w : World) :
  let '(r, w') := copyFile src dst w in
  maps w' = maps w
  /\ match r with
     | Ok _ => exists content,
                 FS.lookup (fs w) (Path.resolve src) = Some (File content)
                 /\ copyLog w' = copyLog w ++ [mkCopyEvent src dst content]
     | Throw _ => copyLog w' = copyLog w
     end.
Proof.
  unfold copyFile. rewrite run_bind, (tick_run w), run_bind. unfold get at 1.
  destruct (tick_quiet w) as (Hfs & Hm & Hc & _).
  set (w1 := snd (tick w)) in *. rewrite Hfs.
  destruct (FS.lookup (fs w) (Path.resolve src)) as [[content|es]|];
    try (simpl; auto; fail).
  destruct (FS.lookup (fs w) (Path.resolve dst)) as [[c'|es]|];
    try (simpl; auto; fail);
    destruct (Path.resolve dst) as [|seg segs]; try (simpl; auto; fail);
    destruct (FS.put (fs w) (seg :: segs) (File content)) as [root|];
    simpl; (split; [assumption|]); try assumption;
    exists content; rewrite Hc; auto.
Qed.

(** The body of the loop for an entry that is a file. *)
Lemma mergeFile_once (fileHashMap : nat) (sourceEntry destEntry : string) :
  preserves (mergedOnce fileHashMap)
    (catch
       (let* stats := stat sourceEntry in
        let* hash := hashFile sourceEntry in
        let key := keyOf (st_size stats) hash in
        let* present := mapHas fileHashMap key in
        if negb present then
          copyFile sourceEntry destEntry >>
          mapSet fileHashMap key >>
          ret Next
        else ret Next)
       (fun _ => ret Next)).
Proof.
  intros w. rewrite run_catch, run_bind.
  destruct (stat sourceEntry w) as [[stats|e] w1] eqn:Estat.
  2:{ pose proof (stat_quiet sourceEntry w) as Hq. rewrite Estat in Hq.
      apply sameBooks_mergedOnce, quiet_sameBooks, Hq. }
  apply stat_ok in Estat as [Hq1 Hsize].
  rewrite run_bind.
  destruct (hashFile sourceEntry w1) as [[hash|e] w2] eqn:Ehash.
  2:{ pose proof (hashFile_quiet sourceEntry w1) as Hq. rewrite Ehash in Hq.
      apply sameBooks_mergedOnce, quiet_sameBooks. simpl.
      etransitivity; eassumption. }
  pose proof (hashFile_quiet sourceEntry w1) as Hq2. rewrite Ehash in Hq2.
  simpl in Hq2.
  apply hashFile_ok in Ehash as (content & Hlook & -> & _).
  assert (Hq : quiet w w2) by (etransitivity; eassumption).
  assert (Hlook1 : FS.lookup (fs w) (Path.resolve sourceEntry) = Some (File content)).
  { destruct Hq1 as (Hfs & _). rewrite <- Hfs. exact Hlook. }
  rewrite (Hsize content Hlook1).
  change (keyOf (String.length content) (digestOf content)) with (contentKey content).
  cbv zeta. rewrite run_bind. unfold mapHas at 1.
  destruct (bool_decide (contentKey content ∈ mapAt w2 fileHashMap)) eqn:Hpresent;
    cbv beta iota delta [negb].
  { apply sameBooks_mergedOnce, quiet_sameBooks, Hq. }
  apply bool_decide_eq_false in Hpresent.
  rewrite run_bind.
  pose proof (copyFile_spec sourceEntry destEntry w2) as Hcopy.
  destruct (copyFile sourceEntry destEntry w2) as [[[]|e] w3].
  2:{ destruct Hcopy as [Hm Hc]. apply sameBooks_mergedOnce. simpl.
      destruct (quiet_sameBooks _ _ Hq) as [Hm2 Hc2]. split; congruence. }
  destruct Hcopy as (Hm3 & content' & Hlook3 & Hlog3).
  assert (content' = content) as ->.
  { destruct Hq2 as (Hfs2 & _). rewrite Hfs2, Hlook in Hlook3. congruence. }
  destruct (quiet_sameBooks _ _ Hq) as [Hm2 Hc2].
  simpl. intros Hloc.
  assert (HmapAt : mapAt w3 fileHashMap = mapAt w fileHashMap)
    by (unfold mapAt; congruence).
  assert (Hloc3 : fileHashMap < List.length (maps w3)) by congruence.
  assert (Hnew : mapAt (setMaps (<[fileHashMap := {[contentKey content]} ∪ mapAt w3 fileHashMap]>
                                  (maps w3)) w3) fileHashMap
                 = {[contentKey content]} ∪ mapAt w fileHashMap).
  { unfold mapAt at 1. simpl. rewrite list_lookup_insert_eq by exact Hloc3.
    simpl. now rewrite HmapAt. }
  rewrite Hnew. simpl. rewrite length_insert. split; [congruence|].
  split; [apply union_subseteq_r|].
  exists [mkCopyEvent sourceEntry destEntry content]. split; [congruence|].
  split; [apply NoDup_singleton|].
  intros e He. apply list_elem_of_singleton in He as ->. unfold eventKey. simpl.
  split; [|apply elem_of_union_l, elem_of_singleton; reflexivity].
  unfold mapAt in Hpresent |- *. rewrite <- Hm2. exact Hpresent.
Qed.

Lemma mergeFolderRecursive_once (depth : nat) :
  forall (sourcePath destPath : string) (fileHashMap : nat),
    preserves (mergedOnce fileHashMap)
              (mergeFolderRecursive depth sourcePath destPath fileHashMap).
Proof.
  induction depth as [|depth IH]; intros sourcePath destPath fileHashMap; simpl.
  - apply quiet_mergedOnce. frame.
  - pose proof (mkdir_mergedOnce fileHashMap).
    pose proof (mergeFile_once fileHashMap).
    assert (Hq : forall A (m : M A), preserves quiet m ->
                                     preserves (mergedOnce fileHashMap) m)
      by (intros A m; apply quiet_mergedOnce).
    frame.
Qed.


End MergeOnce.

(** ** A source folder whose signature the destination already has *)

Section MergeMember.

Context `{Platform}.

(** A file that is there fails to hash only when the flag is raised. *)
Lemma hashFile_throws_paused (filePath : string) (w w' : World)
    (content err : string) :
  FS.lookup (fs w) (Path.resolve filePath) = Some (File content) ->
  hashFile filePath w = (Throw err, w') ->
  paused (state w') = true.
Proof.
  intros Hlook E.
  unfold hashFile in E. rewrite run_bind in E. unfold get at 1 in E.
  rewrite Hlook, run_bind in E.
  destruct (readStream_spec (chunksOf content) w) as (observed & w1 & Hobs & _).
  rewrite Hobs, run_bind, (tick_run w1), run_bind in E.
  unfold isPaused at 1, hashFile_events in E.
  destruct (paused (state (snd (tick w1)))) eqn:Hp; [|discriminate].
  injection E as _ <-. exact Hp.
Qed.

Lemma signBody_quiet (file : FileInfo) (fileHashes : list FileHash) :
  preserves quiet (signBody file fileHashes).
Proof. unfold signBody. frame. Qed.

(** When the flag is still down after the loop of [buildFolderSignature],
    every file of the folder that is there has been hashed. *)
Lemma signLoop_complete (files : list FileInfo) :
  forall (fileHashes : list FileHash) (w : World),
    (forall file, file ∈ files ->
       exists content, FS.lookup (fs w) (Path.resolve (f_path file)) = Some (File content)) ->
    paused (state (snd (forOfAcc files fileHashes signBody w))) = false ->
    exists hashed,
      fst (forOfAcc files fileHashes signBody w) = Ok (fileHashes ++ hashed)
      /\ List.length hashed = List.length files.
Proof.
  induction files as [|file files IH]; intros fileHashes w Hfiles Hend.
  - exists []. simpl. now rewrite app_nil_r.
  - simpl in Hend |- *. rewrite run_bind in Hend |- *.
    pose proof (signBody_quiet file fileHashes w) as Hq.
    destruct (signBody file fileHashes w) as [[[c acc]|e] w1] eqn:Ebody;
      simpl in Hq.
    + unfold signBody in Ebody. rewrite run_bind in Ebody.
      unfold isPaused at 1 in Ebody.
      destruct (paused (state w)) eqn:Hp.
      { injection Ebody as <- <- <-. simpl in Hend. congruence. }
      rewrite run_catch, run_bind in Ebody.
      destruct (Hfiles file) as [content Hlook]; [left|].
      assert (Hrest : forall f, f ∈ files ->
                exists content, FS.lookup (fs w1) (Path.resolve (f_path f))
                                = Some (File content)).
      { intros f Hf. destruct Hq as (Hfs & _). rewrite Hfs.
        apply Hfiles. now right. }
      destruct (hashFile (f_path file) w) as [[hash|err] w2] eqn:Ehash.
      * injection Ebody as <- <- <-.
        destruct (IH _ w2 Hrest Hend) as (hashed & Hok & Hlen).
        exists (mkFileHash (f_name file) (f_size file) hash :: hashed).
        rewrite Hok. simpl. rewrite <- app_assoc. auto.
      * injection Ebody as <- <- <-.
        apply (hashFile_throws_paused _ _ _ _ _ Hlook) in Ehash.
        pose proof (preserves_forOfAcc quiet files fileHashes signBody
                      signBody_quiet w2) as (_ & _ & _ & _ & Hmono).
        rewrite (Hmono Ehash) in Hend. discriminate.
    + exfalso. unfold signBody in Ebody. rewrite run_bind in Ebody.
      unfold isPaused at 1 in Ebody.
      destruct (paused (state w)); [discriminate|].
      rewrite run_catch, run_bind in Ebody.
      destruct (hashFile (f_path file) w) as [[hash|err] w2]; discriminate.
Qed.

(** So the signature counts all the files of the folder record. *)
Lemma buildFolderSignature_counts_all (folderInfo : FolderInfo)
    (allowedExtensions : list string) (w w' : World) (sig : Signature) :
  buildFolderSignature folderInfo allowedExtensions w = (Ok sig, w') ->
  (forall file, file ∈ d_files folderInfo ->
     exists content, FS.lookup (fs w) (Path.resolve (f_path file)) = Some (File content)) ->
  paused (state w') = false ->
  s_fileCount sig = List.length (d_files folderInfo).
Proof.
  intros E Hfiles Hend.
  unfold buildFolderSignature in E. rewrite run_bind in E.
  pose proof (signLoop_complete (d_files folderInfo) [] w Hfiles) as Hloop.
  destruct (forOfAcc (d_files folderInfo) [] signBody w) as [[fileHashes|e] w1];
    [|discriminate].
  injection E as <- <-. simpl in *.
  destruct (Hloop Hend) as (hashed & [= ->] & Hlen). exact Hlen.
Qed.

End MergeMember.

(** ** The per-file pass: a taken name means a duplicate *)

Lemma core_stats (s s' : State) :
  setPaused false s' = setPaused false s -> stats s' = stats s.
Proof.
  intros Heq. change (stats (setPaused false s') = stats (setPaused false s)).
  now rewrite Heq.
Qed.

Lemma core_copiedFolders (s s' : State) :
  setPaused false s' = setPaused false s -> copiedFolders s' = copiedFolders s.
Proof.
  intros Heq.
  change (copiedFolders (setPaused false s') = copiedFolders (setPaused false s)).
  now rewrite Heq.
Qed.

Lemma core_folderReport (s s' : State) :
  setPaused false s' = setPaused false s -> folderReport s' = folderReport s.
Proof.
  intros Heq.
  change (folderReport (setPaused false s') = folderReport (setPaused false s)).
  now rewrite Heq.
Qed.

Lemma core_fileList (s s' : State) :
  setPaused false s' = setPaused false s -> fileList s' = fileList s.
Proof.
  intros Heq. change (fileList (setPaused false s') = fileList (setPaused false s)).
  now rewrite Heq.
Qed.

Lemma core_currentIndex (s s' : State) :
  setPaused false s' = setPaused false s -> currentIndex s' = currentIndex s.
Proof.
  intros Heq.
  change (currentIndex (setPaused false s') = currentIndex (setPaused false s)).
  now rewrite Heq.
Qed.

(** *** mkdir keeps what is there *)

Lemma lookupEntry_putEntry (name other : string) (new : node)
    (es : list (string * node)) :
  FS.lookupEntry other (FS.putEntry name new es)
  = if name =? other then Some new else FS.lookupEntry other es.
Proof.
  induction es as [|[n c] es IH]; simpl.
  - destruct (name =? other) eqn:E; reflexivity.
  - destruct (n =? name) eqn:En; simpl.
    + apply String.eqb_eq in En. subst n.
      destruct (name =? other); reflexivity.
    + destruct (n =? other) eqn:Eo; [|exact IH].
      destruct (name =? other) eqn:Eno; [|reflexivity].
      apply String.eqb_eq in Eo, Eno. subst. rewrite String.eqb_refl in En.
      discriminate.
Qed.

Lemma lookupEntry_app_new (name other : string) (new : node)
    (es : list (string * node)) :
  FS.lookupEntry name es = None ->
  FS.lookupEntry other (es ++ [(name, new)])
  = if name =? other then Some new else FS.lookupEntry other es.
Proof.
  induction es as [|[n c] es IH]; simpl; intros Hnone.
  - reflexivity.
  - destruct (n =? name) eqn:En; [discriminate|].
    destruct (n =? other) eqn:Eo; [|exact (IH Hnone)].
    destruct (name =? other) eqn:Eno; [|reflexivity].
    apply String.eqb_eq in Eo, Eno. subst. rewrite String.eqb_refl in En.
    discriminate.
Qed.

Lemma mkdirp_keeps (p : list string) :
  forall (root root' : node) (q : list string),
    FS.mkdirp root p = Some root' ->
    is_Some (FS.lookup root q) -> is_Some (FS.lookup root' q).
Proof.
  induction p as [|s p IH]; intros root root' q Hmk Hq.
  - destruct root; simpl in Hmk; [discriminate|]. now injection Hmk as <-.
  - destruct root as [|es]; simpl in Hmk; [discriminate|].
    destruct q as [|t q]; [simpl; eauto|].
    simpl in Hq.
    destruct (FS.lookupEntry s es) as [c|] eqn:Hs.
    + destruct (FS.mkdirp c p) as [c'|] eqn:Hc; [|discriminate].
      injection Hmk as <-. simpl. rewrite lookupEntry_putEntry.
      destruct (s =? t) eqn:Est; [|exact Hq].
      apply String.eqb_eq in Est. subst t. rewrite Hs in Hq.
      eapply IH; eassumption.
    + destruct (FS.mkdirp (Dir []) p) as [c'|] eqn:Hc; [|discriminate].
      injection Hmk as <-. simpl. rewrite (lookupEntry_app_new _ _ _ _ Hs).
      destruct (s =? t) eqn:Est; [|exact Hq].
      apply String.eqb_eq in Est. subst t. rewrite Hs in Hq.
      destruct Hq as [? Hq]. discriminate.
Qed.

(** [growsFs w w'] : like [quiet], but directories may have been added. *)
#[export] Instance growsFs_preorder : PreOrder growsFs.
Proof.
  split.
  - intros w. unfold growsFs. auto.
  - intros w1 w2 w3 (Hm & Hc & Hs & Hf) (Hm' & Hc' & Hs' & Hf').
    unfold growsFs. repeat split; try congruence. auto.
Qed.

Lemma quiet_growsFs (w w' : World) : quiet w w' -> growsFs w w'.
Proof.
  intros (Hf & Hm & Hc & Hs & _). unfold growsFs. rewrite Hf. auto.
Qed.

Lemma mkdir_growsFs (p : string) : preserves growsFs (mkdir p).
Proof.
  intros w. unfold mkdir. rewrite run_bind, (tick_run w), run_bind.
  pose proof (quiet_growsFs _ _ (tick_quiet w)) as Htick.
  destruct (tick_quiet w) as (Hfs & _).
  set (w1 := snd (tick w)) in *. unfold get at 1.
  destruct (FS.mkdirp (fs w1) (Path.resolve p)) as [root|] eqn:Hmk; [|exact Htick].
  simpl. destruct Htick as (Hm & Hc & Hs & Hf).
  unfold growsFs. simpl. repeat split; try assumption.
  intros q Hq. eapply mkdirp_keeps; [exact Hmk|]. rewrite Hfs. exact Hq.
Qed.

(** The probe [try { await fs.access(p); ... } catch { }] tells whether
    something is at [p], and changes nothing. *)
(** The probe [try { await fs.access(p); ... } catch { }] tells whether
    something is at [p], and changes nothing. *)
Lemma probe_spec (p : string) (w : World) :
  catch (access p >> ret true) (fun _ => ret false) w
  = (Ok (isSome (FS.lookup (fs w) (Path.resolve p))), snd (tick w)).
Proof.
  rewrite run_catch, run_bind. unfold access.
  rewrite run_bind, (tick_run w), run_bind. unfold get at 1.
  destruct (tick_quiet w) as (Hfs & _). rewrite Hfs.
  destruct (FS.lookup (fs w) (Path.resolve p)); reflexivity.
Qed.

(** With the name free, the search for a free name ends at once, on the
    name it was given. *)
Lemma uniquePathLoop_free (fuel : nat) (fileName destPath : string)
    (counter : nat) (w : World) :
  FS.lookup (fs w) (Path.resolve destPath) = None ->
  uniquePathLoop (S fuel) fileName destPath counter w
  = (Ok destPath, snd (tick w)).
Proof.
  intros Hfree. simpl. rewrite run_bind, probe_spec, Hfree. reflexivity.
Qed.

Section FilePass.
Context `{Platform}.

Lemma no_new_copies (w w' : World) (P : CopyEvent -> Prop) :
  copyLog w' = copyLog w ->
  exists new, copyLog w' = copyLog w ++ new /\ forall e, e ∈ new -> P e.
Proof.
  intros Hc. exists []. rewrite app_nil_r. split; [exact Hc|].
  intros e He. inversion He.
Qed.

(** What one round of the loop over the file list does to the record of
    copies and, when the destination name is taken, to the counters. *)
Lemma processFile_spec :
  forall (destFolderOf : string -> string -> string) (destinationFolder : string)
         (destinationMap : nat) (processedFiles : gset string) (i : nat)
         (file : FileInfo) (w : World),
    let destPath :=
      Path.join [destFolderOf destinationFolder (f_folderRelativePath file);
                 f_name file] in
    let '(r, w') := processFile destFolderOf destinationFolder destinationMap
                                processedFiles i file w in
    (exists new,
       copyLog w' = copyLog w ++ new
       /\ forall e, e ∈ new ->
                    (f_path file ∉ processedFiles)
                    /\ c_src e = f_path file /\ c_dst e = destPath)
    /\ (is_Some (FS.lookup (fs w) (Path.resolve destPath)) ->
        copyLog w' = copyLog w
        /\ (f_path file ∉ processedFiles ->
            (exists content,
               FS.lookup (fs w) (Path.resolve (f_path file)) = Some (File content)) ->
            paused (state w) = false -> pauseIn w = None ->
            r = Ok Next
            /\ duplicates (stats (state w')) = duplicates (stats (state w)) + 1
            /\ copied (stats (state w')) = copied (stats (state w)))).
Proof.
  intros destFolderOf destinationFolder destinationMap processedFiles i file w destPath.
  destruct (processFile _ _ _ _ _ _ w) as [r w'] eqn:E.
  unfold processFile in E.
  destruct (bool_decide (f_path file ∈ processedFiles)) eqn:Habs.
  { injection E as <- <-. split; [now apply no_new_copies|].
    intros _. split; [reflexivity|]. intros Hnot.
    apply bool_decide_eq_true in Habs. contradiction. }
  rewrite run_bind in E.
  change (modifyStats incScanned w)
    with (Ok tt, withState (fun s => setStats (incScanned (stats s)) s) w) in E.
  cbv iota beta in E. rewrite run_bind in E.
  set (w1 := withState (fun s => setStats (incScanned (stats s)) s) w) in E.
  change (sendProgress (f_name file) w1)
    with (Ok tt, setOutbox (outbox w1 ++ [ProgressUpdate (f_name file) (stats (state w1))]) w1) in E.
  cbv iota beta in E.
  set (w2 := setOutbox _ w1) in E.
  rewrite run_catch, run_bind in E.
  pose proof (hashFile_quiet (f_path file) w2) as Hq3.
  destruct (hashFile (f_path file) w2) as [[hash|err] w3] eqn:Ehash; simpl in Hq3.
  2:{ injection E as <- <-.
      destruct Hq3 as (_ & _ & Hc3 & _).
      split; [now apply no_new_copies|]. intros _. split; [exact Hc3|].
      intros _ [content Hlook] Hp Hc.
      destruct (hashFile_unpaused (f_path file) w2 content Hlook Hp Hc)
        as (w3' & Heq & _). congruence. }
  destruct Hq3 as (Hfs3 & _ & Hc3 & Hs3 & _).
  assert (Hstats3 : stats (state w3) = incScanned (stats (state w)))
    by (rewrite (core_stats _ _ Hs3); reflexivity).
  assert (Hunpaused : (exists content,
             FS.lookup (fs w) (Path.resolve (f_path file)) = Some (File content)) ->
           paused (state w) = false -> pauseIn w = None ->
           paused (state w3) = false).
  { intros [content Hlook] Hp Hc.
    destruct (hashFile_unpaused (f_path file) w2 content Hlook Hp Hc)
      as (w3' & Heq & _ & Hp3 & _). congruence. }
  rewrite run_bind in E. unfold isPaused at 1 in E.
  destruct (paused (state w3)) eqn:Hp3.
  { simpl in E. injection E as <- <-.
    split; [now apply no_new_copies|]. intros _. split; [exact Hc3|].
    intros _ Hlook Hp Hc. specialize (Hunpaused Hlook Hp Hc). discriminate. }
  rewrite run_bind in E. unfold getState at 1 in E.
  rewrite run_bind in E. unfold mapHas at 1 in E.
  destruct (bool_decide (keyOf (f_size file) hash ∈ deduplicationMap (state w3))
            || bool_decide (keyOf (f_size file) hash ∈ mapAt w3 destinationMap)).
  { simpl in E. injection E as <- <-.
    split; [now apply no_new_copies|]. intros _. split; [exact Hc3|].
    intros _ _ _ _. simpl. rewrite Hstats3. auto. }
  rewrite run_bind in E. unfold modifyState at 1, modify at 1 in E.
  set (w4 := withState _ w3) in E.
  rewrite run_bind, run_catch in E.
  pose proof (mkdir_growsFs (destFolderOf destinationFolder (f_folderRelativePath file)) w4)
    as (_ & Hc5 & Hs5 & Hf5).
  assert (Hdone : exists w5,
            (let (r0, w0) := mkdir (destFolderOf destinationFolder
                                      (f_folderRelativePath file)) w4 in
             match r0 with
             | Ok a => (Ok a, w0)
             | Throw _ => ret tt w0
             end) = (Ok tt, w5)
            /\ w5 = snd (mkdir (destFolderOf destinationFolder
                                  (f_folderRelativePath file)) w4)).
  { destruct (mkdir _ w4) as [[[]|e] w5]; exists w5; auto. }
  destruct Hdone as (w5 & Hmk & Hw5). rewrite Hmk in E. rewrite <- Hw5 in *.
  clear Hmk Hw5.
  assert (Hstats5 : stats (state w5) = incScanned (stats (state w)))
    by (rewrite (core_stats _ _ Hs5); exact Hstats3).
  assert (Hlog5 : copyLog w5 = copyLog w) by (rewrite Hc5; exact Hc3).
  assert (Hkeep : forall q, is_Some (FS.lookup (fs w) q) ->
                            is_Some (FS.lookup (fs w5) q)).
  { intros q Hq. apply Hf5. simpl. rewrite Hfs3. exact Hq. }
  rewrite run_bind, probe_spec in E.
  destruct (tick_quiet w5) as (Hfs6 & _ & Hc6 & Hs6 & _).
  set (w6 := snd (tick w5)) in *.
  fold destPath in E.
  destruct (FS.lookup (fs w5) (Path.resolve destPath)) as [there|] eqn:Hocc;
    cbv beta iota delta [isSome] in E.
  { simpl in E. injection E as <- <-.
    assert (Hlog : copyLog w6 = copyLog w) by congruence.
    split; [now apply no_new_copies|]. intros _. split; [exact Hlog|].
    intros _ _ _ _. simpl. rewrite (core_stats _ _ Hs6), Hstats5. auto. }
  rewrite run_bind in E. unfold get at 1 in E. rewrite run_bind in E.
  replace (FS.entryCount (fs w6) + 2) with (S (FS.entryCount (fs w6) + 1)) in E by lia.
  rewrite uniquePathLoop_free in E by (rewrite Hfs6; exact Hocc).
  destruct (tick_quiet w6) as (Hfs7 & _ & Hc7 & _).
  set (w7 := snd (tick w6)) in *.
  rewrite run_bind in E.
  pose proof (copyFile_spec (f_path file) destPath w7) as Hcopy.
  destruct (copyFile (f_path file) destPath w7) as [[[]|e] w8].
  - destruct Hcopy as (_ & content & _ & Hlog8).
    simpl in E. injection E as <- <-. simpl. split.
    + exists [mkCopyEvent (f_path file) destPath content]. split; [congruence|].
      intros e He. apply list_elem_of_singleton in He as ->.
      apply bool_decide_eq_false in Habs. auto.
    + intros Hthere. apply Hkeep in Hthere. rewrite Hocc in Hthere.
      destruct Hthere as [? Hthere]. discriminate.
  - destruct Hcopy as (_ & Hlog8). injection E as <- <-. split.
    + apply no_new_copies. congruence.
    + intros Hthere. apply Hkeep in Hthere. rewrite Hocc in Hthere.
      destruct Hthere as [? Hthere]. discriminate.
Qed.

(** C4. In the per-file pass of either handler, every copy goes to the
    destination path computed for the file, the file's own name under its
    destination folder, never to a name with a numeric suffix: the search for
    a free name runs only when that path is free and then stops at once.
    When the path is already taken, no copy is made; and when moreover the
    file is outside the absorbed folders, is there to be read, and no pause
    is requested, the round ends normally with the duplicate counter raised
    by one and the copied counter unchanged. *)
Theorem processFile_name_collision :
  forall (destFolderOf : string -> string -> string) (destinationFolder : string)
         (destinationMap : nat) (processedFiles : gset string) (i : nat)
         (file : FileInfo) (w : World),
    let destPath :=
      Path.join [destFolderOf destinationFolder (f_folderRelativePath file);
                 f_name file] in
    let '(r, w') := processFile destFolderOf destinationFolder destinationMap
                                processedFiles i file w in
    (exists new,
       copyLog w' = copyLog w ++ new
       /\ forall e, e ∈ new -> c_src e = f_path file /\ c_dst e = destPath)
    /\ (is_Some (FS.lookup (fs w) (Path.resolve destPath)) ->
        copyLog w' = copyLog w
        /\ (f_path file ∉ processedFiles ->
            (exists content,
               FS.lookup (fs w) (Path.resolve (f_path file)) = Some (File content)) ->
            paused (state w) = false -> pauseIn w = None ->
            r = Ok Next
            /\ duplicates (stats (state w')) = duplicates (stats (state w)) + 1
            /\ copied (stats (state w')) = copied (stats (state w)))).
Proof.
  intros destFolderOf destinationFolder destinationMap processedFiles i file w destPath.
  pose proof (processFile_spec destFolderOf destinationFolder destinationMap
                processedFiles i file w) as Hspec.
  fold destPath in Hspec.
  destruct (processFile _ _ _ _ _ _ w) as [r w'].
  destruct Hspec as [(new & Hlog & Hnew) Hocc]. split; [|exact Hocc].
  exists new. split; [exact Hlog|]. intros e He. apply (Hnew e He).
Qed.

End FilePass.

(** ** resume-process leaves the folder merge as it was *)

(** [indexing w w']: only maps, the flag and the outbox changed. *)
#[export] Instance indexing_preorder : PreOrder indexing.
Proof.
  split.
  - intros w. unfold indexing. auto.
  - intros w1 w2 w3 (Hf & Hc & Hs) (Hf' & Hc' & Hs').
    unfold indexing. repeat split; congruence.
Qed.

Lemma quiet_indexing (w w' : World) : quiet w w' -> indexing w w'.
Proof. intros (Hf & _ & Hc & Hs & _). unfold indexing. auto. Qed.

(** [keepsFolders w w']: the absorbed folders, the merge report and the file
    list are the same. *)
#[export] Instance keepsFolders_preorder : PreOrder keepsFolders.
Proof.
  split.
  - intros w. unfold keepsFolders. auto.
  - intros w1 w2 w3 (Ha & Hb & Hc) (Ha' & Hb' & Hc').
    unfold keepsFolders. repeat split; congruence.
Qed.

Lemma core_keepsFolders (w w' : World) :
  setPaused false (state w') = setPaused false (state w) -> keepsFolders w w'.
Proof.
  intros Hs. unfold keepsFolders.
  rewrite (core_copiedFolders _ _ Hs), (core_folderReport _ _ Hs),
          (core_fileList _ _ Hs). auto.
Qed.

Lemma newMap_indexing : preserves indexing newMap.
Proof. intros w. unfold indexing. simpl. auto. Qed.

Lemma mapSet_indexing (l : nat) (k : string) : preserves indexing (mapSet l k).
Proof. intros w. unfold indexing. simpl. auto. Qed.

#[export] Hint Resolve newMap_indexing mapSet_indexing : frames.

Section Resume.

Context `{Platform}.

Lemma quiet_to_indexing {A} (m : M A) :
  preserves quiet m -> preserves indexing m.
Proof. apply preserves_weaken, quiet_indexing. Qed.

Lemma scanDestinationFolder_indexing (depth : nat) :
  forall (dirPath : string) (allowedExtensions : list string) (relativePath : string),
    preserves indexing
      (scanDestinationFolder depth dirPath allowedExtensions relativePath).
Proof.
  pose proof (@quiet_to_indexing) as Hq.
  induction depth as [|depth IH]; intros dirPath allowedExtensions relativePath;
    simpl; frame.
Qed.

Lemma seedFileHashMap_indexing (fileHashMap : nat) (folder : string) :
  preserves indexing (seedFileHashMap fileHashMap folder).
Proof. pose proof (@quiet_to_indexing) as Hq. unfold seedFileHashMap. frame. Qed.

Lemma signDestinationFolders_indexing (depth : nat) (signatures : nat)
    (destinationFolder : string) (allowedExtensions : list string) :
  preserves indexing
    (signDestinationFolders depth signatures destinationFolder allowedExtensions).
Proof.
  pose proof (@quiet_to_indexing) as Hq.
  pose proof (scanDestinationFolder_indexing depth).
  unfold signDestinationFolders. frame.
Qed.

Lemma reindexDestination_indexing (depth : nat) (destinationFolder : string)
    (allowedExtensions : list string) :
  preserves indexing (reindexDestination depth destinationFolder allowedExtensions).
Proof.
  pose proof (seedFileHashMap_indexing).
  pose proof (signDestinationFolders_indexing depth).
  unfold reindexDestination. frame.
Qed.

(** *** The per-file pass keeps the folders *)

Lemma quiet_to_keepsFolders {A} (m : M A) :
  preserves quiet m -> preserves keepsFolders m.
Proof.
  apply preserves_weaken. intros w w' (_ & _ & _ & Hs & _).
  apply core_keepsFolders, Hs.
Qed.

Lemma mkdir_keepsFolders (p : string) : preserves keepsFolders (mkdir p).
Proof.
  eapply preserves_weaken; [|apply mkdir_growsFs].
  intros w w' (_ & _ & Hs & _). apply core_keepsFolders, Hs.
Qed.

Lemma copyFile_keepsFolders (src dst : string) :
  preserves keepsFolders (copyFile src dst).
Proof.
  pose proof (@quiet_to_keepsFolders) as Hq.
  unfold copyFile. frame.
Qed.

Lemma uniquePathLoop_keepsFolders (fuel : nat) :
  forall (fileName uniquePath : string) (counter : nat),
    preserves keepsFolders (uniquePathLoop fuel fileName uniquePath counter).
Proof.
  pose proof (@quiet_to_keepsFolders) as Hq.
  induction fuel as [|fuel IH]; intros fileName uniquePath counter; simpl; frame.
Qed.

Lemma processFile_keepsFolders (destFolderOf : string -> string -> string)
    (destinationFolder : string) (destinationMap : nat)
    (processedFiles : gset string) (i : nat) (file : FileInfo) :
  preserves keepsFolders
    (processFile destFolderOf destinationFolder destinationMap processedFiles i file).
Proof.
  pose proof (@quiet_to_keepsFolders) as Hq.
  pose proof mkdir_keepsFolders. pose proof copyFile_keepsFolders.
  pose proof uniquePathLoop_keepsFolders.
  unfold processFile. frame.
Qed.

(** The copies of the loop over the files are per-file copies of files of
    the list that no absorbed folder holds. *)
Lemma fileLoop_spec (destFolderOf : string -> string -> string)
    (destinationFolder : string) (destinationMap : nat)
    (processedFiles : gset string) (files : list FileInfo) :
  forall (i : nat) (w : World),
    let w' := snd (fileLoop destFolderOf destinationFolder destinationMap
                            processedFiles files i w) in
    keepsFolders w w'
    /\ exists new,
         copyLog w' = copyLog w ++ new
         /\ forall e, e ∈ new ->
              exists file,
                file ∈ files
                /\ (f_path file ∉ processedFiles)
                /\ c_src e = f_path file
                /\ c_dst e = Path.join [destFolderOf destinationFolder
                                          (f_folderRelativePath file);
                                        f_name file].
Proof.
  induction files as [|file files IH]; intros i w; cbv zeta.
  - simpl. split; [reflexivity|]. exists []. rewrite app_nil_r.
    split; [reflexivity|]. intros e He. inversion He.
  - destruct (fileLoop _ _ _ _ (file :: files) i w) as [r w'] eqn:E.
    simpl fileLoop in E. simpl snd.
    rewrite run_bind in E. unfold isPaused at 1 in E.
    destruct (paused (state w)).
    { injection E as <- <-. simpl. split; [unfold keepsFolders; auto|].
      exists []. rewrite app_nil_r. split; [reflexivity|].
      intros e He. inversion He. }
    rewrite run_bind in E.
    pose proof (processFile_spec destFolderOf destinationFolder destinationMap
                  processedFiles i file w) as Hspec.
    pose proof (processFile_keepsFolders destFolderOf destinationFolder destinationMap
                  processedFiles i file w) as Hkeep.
    destruct (processFile _ _ _ _ _ _ w) as [[c|e] w1]; simpl in Hkeep;
      destruct Hspec as [(new1 & Hlog1 & Hnew1) _].
    2:{ injection E as <- <-. split; [exact Hkeep|]. exists new1.
        split; [exact Hlog1|].
        intros e' He'. exists file. split; [left|]. apply (Hnew1 e' He'). }
    assert (Hhere : forall e, e ∈ new1 ->
              exists f, f ∈ file :: files
                /\ (f_path f ∉ processedFiles)
                /\ c_src e = f_path f
                /\ c_dst e = Path.join [destFolderOf destinationFolder
                                          (f_folderRelativePath f); f_name f]).
    { intros e' He'. exists file. split; [left|]. apply (Hnew1 e' He'). }
    destruct c.
    + specialize (IH (S i) w1). cbv zeta in IH. rewrite E in IH. simpl in IH.
      destruct IH as (Hkeep2 & new2 & Hlog2 & Hnew2).
      split; [etransitivity; eassumption|].
      exists (new1 ++ new2). split.
      * rewrite Hlog2, Hlog1. now rewrite app_assoc.
      * intros e' He'. apply elem_of_app in He' as [He'|He']; [now apply Hhere|].
        destruct (Hnew2 e' He') as (f & Hf & Hrest). exists f.
        split; [now right|exact Hrest].
    + injection E as <- <-. split; [exact Hkeep|]. exists new1.
      split; [exact Hlog1|exact Hhere].
Qed.

(** *** A cancelled hash moves the cursor past the file

    The pause request is served while file [i] is hashed, and another file
    follows in the list: the rejection is caught at the end of the loop body,
    the loop goes on to index [i + 1], finds the flag raised there and saves
    that index.  File [i] is counted as scanned, and is neither copied nor
    saved as the cursor. *)
Lemma fileLoop_cancelled_hash_advances_cursor
    (destFolderOf : string -> string -> string) (destinationFolder : string)
    (destinationMap : nat) (processedFiles : gset string)
    (file next : FileInfo) (rest : list FileInfo) (i n : nat) (w : World)
    (content : string) :
  f_path file ∉ processedFiles ->
  FS.lookup (fs w) (Path.resolve (f_path file)) = Some (File content) ->
  paused (state w) = false ->
  pauseIn w = Some n -> n <= List.length (chunksOf content) ->
  let w' := snd (fileLoop destFolderOf destinationFolder destinationMap
                          processedFiles (file :: next :: rest) i w) in
  currentIndex (state w') = S i
  /\ paused (state w') = true
  /\ scanned (stats (state w')) = S (scanned (stats (state w)))
  /\ copyLog w' = copyLog w.
Proof.
  intros Habs Hlook Hp Hn Hle. cbv zeta.
  destruct (fileLoop _ _ _ _ _ i w) as [r w'] eqn:E. simpl snd.
  simpl fileLoop in E. rewrite run_bind in E. unfold isPaused at 1 in E.
  rewrite Hp in E. rewrite run_bind in E.
  unfold processFile at 1 in E.
  rewrite (bool_decide_eq_false_2 _ Habs) in E.
  rewrite run_bind in E.
  change (modifyStats incScanned w)
    with (Ok tt, withState (fun s => setStats (incScanned (stats s)) s) w) in E.
  cbv iota beta in E. rewrite run_bind in E.
  set (w1 := withState (fun s => setStats (incScanned (stats s)) s) w) in E.
  change (sendProgress (f_name file) w1)
    with (Ok tt, setOutbox (outbox w1 ++ [ProgressUpdate (f_name file) (stats (state w1))]) w1) in E.
  cbv iota beta in E.
  set (w2 := setOutbox _ w1) in E.
  rewrite run_catch, run_bind in E.
  pose proof (hashFile_rejects_once_paused (f_path file) w2 content Hlook
                (or_intror (ex_intro _ n (conj Hn Hle)))) as Hrej.
  pose proof (hashFile_quiet (f_path file) w2) as (_ & _ & Hc3 & Hs3 & _).
  destruct (hashFile (f_path file) w2) as [[hash|err] w3] eqn:Ehash;
    simpl in Hrej, Hc3, Hs3; [discriminate|].
  apply (hashFile_throws_paused (f_path file) w2 w3 content err Hlook) in Ehash.
  cbv beta iota in E. unfold ret at 1 in E. cbv beta iota in E.
  rewrite run_bind in E. unfold isPaused at 1 in E. rewrite Ehash in E.
  injection E as <- <-. simpl.
  rewrite (core_stats _ _ Hs3), Hc3. auto.
Qed.

End Resume.

Section ResumeTheorem.

Context `{Platform}.

(** resume-process does not run the folder-merge pass again.  The set of
    absorbed folders and the merge report are after it what they were
    before, and every copy it makes is the per-file copy, to its computed
    destination path, of a file of the list at or after the saved cursor
    that no absorbed folder holds. *)
Lemma resume_process_keeps_folder_merge :
  forall (depth : nat) (sourceFolders : list string) (destinationFolder : string)
         (extensions : list string) (w : World),
    let w' := snd (resume_process depth sourceFolders destinationFolder extensions w) in
    copiedFolders (state w') = copiedFolders (state w)
    /\ folderReport (state w') = folderReport (state w)
    /\ exists new,
         copyLog w' = copyLog w ++ new
         /\ forall e, e ∈ new ->
              exists file,
                file ∈ drop (currentIndex (state w)) (fileList (state w))
                /\ (f_path file ∉ processedFilesOf (copiedFolders (state w))
                                                   (fileList (state w)))
                /\ c_src e = f_path file
                /\ c_dst e = Path.join [destFolderPath_resume destinationFolder
                                          (f_folderRelativePath file);
                                        f_name file].
Proof.
  intros depth sourceFolders destinationFolder extensions w. cbv zeta.
  destruct (resume_process _ _ _ _ w) as [r w'] eqn:E. simpl snd.
  unfold resume_process in E. rewrite run_bind in E.
  unfold modifyState at 1, modify at 1 in E.
  set (w0 := withState (setPaused false) w) in E.
  rewrite run_bind in E.
  pose proof (reindexDestination_indexing depth destinationFolder
                (map Path.toLowerCase extensions) w0) as (_ & Hc1 & Hs1).
  destruct (reindexDestination _ _ _ w0) as [[[destinationMap signatures]|e] w1];
    simpl in Hc1, Hs1.
  2:{ injection E as <- <-.
      rewrite (core_copiedFolders _ _ Hs1), (core_folderReport _ _ Hs1).
      split; [reflexivity|]. split; [reflexivity|].
      exists []. rewrite app_nil_r. split; [exact Hc1|].
      intros e' He'. inversion He'. }
  rewrite run_bind in E. unfold getState at 1 in E. rewrite run_bind in E.
  rewrite (core_copiedFolders _ _ Hs1), (core_fileList _ _ Hs1),
          (core_currentIndex _ _ Hs1) in E.
  change (copiedFolders (state w0)) with (copiedFolders (state w)) in E.
  change (fileList (state w0)) with (fileList (state w)) in E.
  change (currentIndex (state w0)) with (currentIndex (state w)) in E.
  pose proof (fileLoop_spec destFolderPath_resume destinationFolder destinationMap
                (processedFilesOf (copiedFolders (state w)) (fileList (state w)))
                (drop (currentIndex (state w)) (fileList (state w)))
                (currentIndex (state w)) w1) as Hloop.
  cbv zeta in Hloop.
  destruct (fileLoop _ _ _ _ _ _ w1) as [[[]|e] w2]; simpl in Hloop;
    destruct Hloop as ((Hcf & Hfr & _) & new & Hlog & Hnew).
  - assert (Hend : copiedFolders (state w') = copiedFolders (state w2)
                   /\ folderReport (state w') = folderReport (state w2)
                   /\ copyLog w' = copyLog w2).
    { rewrite run_bind in E. unfold isPaused at 1 in E.
      destruct (paused (state w2)); simpl in E; injection E as <- <-; auto. }
    destruct Hend as (-> & -> & ->).
    rewrite Hcf, Hfr, (core_copiedFolders _ _ Hs1), (core_folderReport _ _ Hs1).
    split; [reflexivity|]. split; [reflexivity|].
    exists new. split; [|exact Hnew]. rewrite Hlog, Hc1. reflexivity.
  - injection E as <- <-.
    rewrite Hcf, Hfr, (core_copiedFolders _ _ Hs1), (core_folderReport _ _ Hs1).
    split; [reflexivity|]. split; [reflexivity|].
    exists new. split; [|exact Hnew]. rewrite Hlog, Hc1. reflexivity.
Qed.

End ResumeTheorem.

(** * The model at work on the sample trees *)

Section SampleRuns.

#[local] Existing Instance samplePlatform.

Lemma codeCompare_total (a b : string) :
  (codeCompare a b <= 0)%Z \/ (codeCompare b a <= 0)%Z.
Proof. unfold codeCompare. lia. Qed.

Lemma codeCompare_trans (a b c : string) :
  (codeCompare a b <= 0)%Z -> (codeCompare b c <= 0)%Z -> (codeCompare a c <= 0)%Z.
Proof. unfold codeCompare. lia. Qed.

Lemma codeCompare_antisym (a b : string) :
  (codeCompare a b <= 0)%Z -> (codeCompare b a <= 0)%Z -> a = b.
Proof.
  unfold codeCompare. intros Hab Hba.
  apply (inj encode). lia.
Qed.


(** The pause request served one suspension point before the per-file pass
    hashes its first file stops the run of [looseRoot] with nothing scanned
    and the cursor at 0. *)
Lemma start_process_pause_before_file_pass :
  let pausedRun :=
    snd (start_process sampleDepth ["/S"] "/D" [] (freshWorld looseRoot (Some 16))) in
  paused (state pausedRun) = true
  /\ scanned (stats (state pausedRun)) = 0
  /\ currentIndex (state pausedRun) = 0.
Proof. cbv zeta. repeat split; vm_compute; reflexivity. Qed.

(** C3, the cancelled file is skipped. The run over [looseRoot] is paused
    one suspension point later, at the ['data'] event of the stream of
    [a.txt], the file at index 0: the file has been counted as scanned and
    nothing of it is copied.  The saved cursor is 1.  Resuming handles
    [b.txt] and stops; [a.txt] is never copied. *)
Lemma start_process_pause_in_hash_skips_file :
  let pausedRun :=
    snd (start_process sampleDepth ["/S"] "/D" [] (freshWorld looseRoot (Some 17))) in
  let resumed :=
    snd (resume_process sampleDepth ["/S"] "/D" [] (nextCall None pausedRun)) in
  map f_path (fileList (state pausedRun)) = ["/S/a.txt"; "/S/b.txt"; "/S/sub/c.txt"]
  /\ paused (state pausedRun) = true
  /\ scanned (stats (state pausedRun)) = 1
  /\ map c_src (copyLog pausedRun) = ["/S/sub/c.txt"]
  /\ currentIndex (state pausedRun) = 1
  /\ map c_src (copyLog resumed) = ["/S/b.txt"]
  /\ paused (state resumed) = false
  /\ FS.lookup (fs resumed) ["D"; "a.txt"] = None
  /\ FS.lookup (fs resumed) ["D"; "b.txt"] = Some (File "B").
Proof. cbv zeta. repeat split; vm_compute; reflexivity. Qed.

(** C5, a second run that copies. The first run over [tripsRoot] completes;
    it leaves [/D/Trip/x.txt] with the content of the second folder.  The
    second run, on the same sources and destination, finds the signature of
    [/S/Trip] in no destination folder and its content key not in
    [/D/Trip], and copies [/S/Trip/x.txt] again. *)
Lemma start_process_twice_copies_again :
  let first :=
    snd (start_process sampleDepth ["/S"] "/D" [] (freshWorld tripsRoot None)) in
  let second :=
    snd (start_process sampleDepth ["/S"] "/D" [] (nextCall None first)) in
  paused (state first) = false
  /\ List.last (outbox first) (MergeConfirmation [])
     = ProcessComplete (mkStats 1 3 0 3)
         [mkReportEntry "/S/Trip" "/D/Trip" "Copied";
          mkReportEntry "/S/Trip_2" "/D/Trip" "Copied"] None
  /\ FS.lookup (fs first) ["D"; "Trip"; "x.txt"] = Some (File "2")
  /\ copyLog second = [mkCopyEvent "/S/Trip/x.txt" "/D/Trip/x.txt" "1"]
  /\ FS.lookup (fs second) ["D"; "Trip"; "x.txt"] = Some (File "1").
Proof. cbv zeta. repeat split; vm_compute; reflexivity. Qed.

(** C8, a folder deleted before it is merged. [merge-folders] proposes the
    group of [photosRoot]; the confirmed merge is paused while it hashes
    [p2.jpg], the file only [Photos_bak] has.  The merge of [Photos_bak]
    returns without having copied anything, and the folder is removed: the
    content of [p2.jpg] is nowhere in the tree.  Without the pause the file
    is copied before the folder is removed. *)
Lemma confirm_merge_pause_deletes_unmerged :
  let proposal := snd (merge_folders sampleDepth "/D" (freshWorld photosRoot None)) in
  let pausedMerge :=
    snd (confirm_merge sampleDepth "/D" photosGroups (freshWorld photosRoot (Some 10))) in
  let fullMerge :=
    snd (confirm_merge sampleDepth "/D" photosGroups (freshWorld photosRoot None)) in
  List.last (outbox proposal) (MergeConfirmation []) = MergeConfirmation photosGroups
  /\ paused (state pausedMerge) = true
  /\ copyLog pausedMerge = []
  /\ fs pausedMerge = Dir [("D", Dir [("Photos", Dir [("p1.jpg", File "one")])])]
  /\ fs fullMerge = Dir [("D", Dir [("Photos", Dir [("p1.jpg", File "one");
                                                    ("p2.jpg", File "two")])])].
Proof. cbv zeta. repeat split; vm_compute; reflexivity. Qed.

(** The theorems above at work on the sample trees. *)

Lemma folder_signature_order_independent_witness :
  exists sigA sigB,
    fst (buildFolderSignature folderXY [] (freshWorld orderRoot None)) = Ok sigA
    /\ fst (buildFolderSignature folderYX [] (freshWorld orderRoot None)) = Ok sigB
    /\ s_hash sigA = s_hash sigB.
Proof.
  eexists _, _. split; [vm_compute; reflexivity|].
  split; [vm_compute; reflexivity|].
  refine (proj1 (folder_signature_order_independent
                   codeCompare_total codeCompare_trans
                   folderXY folderYX [] [] (freshWorld orderRoot None)
                   (freshWorld orderRoot None) _ _
                   (mkDestFolderInfo "/B" "B" [] []) _ _ _ _) _).
  - vm_compute. reflexivity.
  - vm_compute. reflexivity.
  - apply (bool_decide_unpack _). vm_compute. exact I.
  - intros a b _ _. apply codeCompare_antisym.
  - vm_compute. reflexivity.
Defined.


Lemma processFile_name_collision_witness :
  let w := setMaps [∅] (freshWorld clashRoot None) in
  let '(r, w') := processFile destFolderPath_start "/D" 0 ∅ 0 clashFile w in
  is_Some (FS.lookup (fs w) (Path.resolve "/D/notes.txt"))
  /\ r = Ok Next
  /\ duplicates (stats (state w')) = 1
  /\ copied (stats (state w')) = 0
  /\ copyLog w' = [].
Proof.
  cbv zeta.
  pose proof (processFile_name_collision destFolderPath_start "/D" 0 ∅ 0 clashFile
                (setMaps [∅] (freshWorld clashRoot None))) as Hthm.
  cbv zeta in Hthm.
  destruct (processFile _ _ _ _ _ _ _) as [r w'].
  assert (Hthere : is_Some (FS.lookup (fs (setMaps [∅] (freshWorld clashRoot None)))
                                      (Path.resolve "/D/notes.txt")))
    by (vm_compute; eauto).
  destruct Hthm as [_ Hocc]. destruct (Hocc Hthere) as [Hlog Hdup].
  destruct Hdup as (Hr & Hd & Hc).
  - apply not_elem_of_empty.
  - vm_compute. eauto.
  - reflexivity.
  - reflexivity.
  - repeat split; assumption.
Defined.

End SampleRuns.
(** * Further properties *)

(** ** normalizeFolderName *)

Lemma prefix_empty (s : string) : String.prefix "" s = true.
Proof. destruct s; reflexivity. Qed.

Lemma index_underscore_cons (b : ascii) (s : string) :
  String.index 0 "_" (String b s)
  = if Ascii.eqb b "_" then Some 0 else option_map S (String.index 0 "_" s).
Proof.
  change (String.index 0 "_" (String b s))
    with (if String.prefix "_" (String b s) then Some 0
          else match String.index 0 "_" s with
               | Some n => Some (S n)
               | None => None
               end).
  change (String.prefix "_" (String b s))
    with (match ascii_dec "_" b with
          | left _ => String.prefix "" s
          | right _ => false
          end).
  destruct (ascii_dec "_" b) as [<-|Hne].
  - rewrite prefix_empty. reflexivity.
  - destruct (Ascii.eqb b "_") eqn:E.
    + apply Ascii.eqb_eq in E. congruence.
    + destruct (String.index 0 "_" s); reflexivity.
Qed.

Lemma normalizeFolderName_cons (b : ascii) (s : string) :
  normalizeFolderName (String b s)
  = if Ascii.eqb b "_" then "" else String b (normalizeFolderName s).
Proof.
  unfold normalizeFolderName. rewrite index_underscore_cons.
  destruct (Ascii.eqb b "_"); [reflexivity|].
  destruct (String.index 0 "_" s); reflexivity.
Qed.

(** normalizeFolderName: the result is the start of the name and has no
    underscore in it. *)
Theorem normalizeFolderName_prefix_without_underscore (folderName : string) :
  (exists rest, folderName = normalizeFolderName folderName +:+ rest)
  /\ ~ hasUnderscore (normalizeFolderName folderName).
Proof.
  unfold hasUnderscore.
  induction folderName as [|b s [[rest Hrest] Hno]].
  - split; [exists ""; reflexivity|]. simpl. inversion 1.
  - rewrite normalizeFolderName_cons.
    destruct (Ascii.eqb b "_") eqn:E.
    + split; [exists (String b s); reflexivity|]. simpl. inversion 1.
    + split.
      * exists rest. change (String b s = String b (normalizeFolderName s +:+ rest)).
        congruence.
      * simpl. intros Hin. apply elem_of_cons in Hin as [Heq|Hin]; [|auto].
        subst b. discriminate.
Qed.

(** normalizeFolderName: normalizing a normalized name changes nothing. *)
Theorem normalizeFolderName_idempotent (folderName : string) :
  normalizeFolderName (normalizeFolderName folderName) = normalizeFolderName folderName.
Proof.
  induction folderName as [|b s IH]; [reflexivity|].
  rewrite normalizeFolderName_cons.
  destruct (Ascii.eqb b "_") eqn:E; [reflexivity|].
  rewrite normalizeFolderName_cons, E, IH. reflexivity.
Qed.

(** normalizeFolderName: a name without an underscore is kept, and whatever
    follows it after an underscore is dropped. *)
Theorem normalizeFolderName_drops_suffix (base suffix : string) :
  ~ hasUnderscore base ->
  normalizeFolderName base = base
  /\ normalizeFolderName (base +:+ "_" +:+ suffix) = base.
Proof.
  unfold hasUnderscore. induction base as [|b s IH]; intros Hno.
  - split; [reflexivity|]. change ("" +:+ "_" +:+ suffix) with (String "_" suffix).
    apply normalizeFolderName_cons.
  - simpl in Hno.
    assert (E : Ascii.eqb b "_" = false).
    { apply Ascii.eqb_neq. intros ->. apply Hno. left. }
    destruct IH as [IH1 IH2]; [intros Hin; apply Hno; now right|].
    change (String b s +:+ "_" +:+ suffix) with (String b (s +:+ "_" +:+ suffix)).
    rewrite !normalizeFolderName_cons, E, IH1, IH2. auto.
Qed.

Lemma normalizeFolderName_drops_suffix_witness :
  ~ hasUnderscore "Trip"
  /\ normalizeFolderName "Trip" = "Trip"
  /\ normalizeFolderName ("Trip" +:+ "_" +:+ "2_old") = "Trip".
Proof.
  assert (Hno : ~ hasUnderscore "Trip").
  { unfold hasUnderscore. simpl. intros Hin.
    repeat (apply elem_of_cons in Hin as [Heq|Hin]; [discriminate|]).
    inversion Hin. }
  split; [exact Hno|].
  exact (normalizeFolderName_drops_suffix "Trip" "2_old" Hno).
Defined.

(** ** Rules for [ensures] and [noThrow] *)

Section Ensures.

Lemma ensures_ret {A} (P : World -> Prop) (a : A) (Q : A -> World -> Prop)
    (E : string -> World -> Prop) :
  (forall w, P w -> Q a w) -> ensures P (ret a) Q E.
Proof. intros HQ w Hw. simpl. auto. Qed.

Lemma ensures_throw {A} (P : World -> Prop) (e : string) (Q : A -> World -> Prop)
    (E : string -> World -> Prop) :
  (forall w, P w -> E e w) -> ensures P (throw e) Q E.
Proof. intros HE w Hw. simpl. auto. Qed.

Lemma ensures_bind {A B} (P : World -> Prop) (m : M A) (k : A -> M B)
    (Qm : A -> World -> Prop) (Q : B -> World -> Prop) (E : string -> World -> Prop) :
  ensures P m Qm E -> (forall a, ensures (Qm a) (k a) Q E) -> ensures P (bind m k) Q E.
Proof.
  intros Hm Hk w Hw. rewrite run_bind. specialize (Hm w Hw).
  destruct (m w) as [[a|e] w1]; [apply Hk|]; assumption.
Qed.

Lemma ensures_catch {A} (P : World -> Prop) (m : M A) (h : string -> M A)
    (Q : A -> World -> Prop) (Em E : string -> World -> Prop) :
  ensures P m Q Em -> (forall e, ensures (Em e) (h e) Q E) -> ensures P (catch m h) Q E.
Proof.
  intros Hm Hh w Hw. rewrite run_catch. specialize (Hm w Hw).
  destruct (m w) as [[a|e] w1]; [|apply Hh]; assumption.
Qed.

Lemma ensures_weaken {A} (P P' : World -> Prop) (m : M A)
    (Q Q' : A -> World -> Prop) (E E' : string -> World -> Prop) :
  ensures P' m Q' E' ->
  (forall w, P w -> P' w) ->
  (forall a w, Q' a w -> Q a w) ->
  (forall e w, E' e w -> E e w) ->
  ensures P m Q E.
Proof.
  intros Hm HP HQ HE w Hw. specialize (Hm w (HP w Hw)).
  destruct (m w) as [[a|e] w1]; auto.
Qed.

Lemma ensures_and {A} (P P' : World -> Prop) (m : M A)
    (Q Q' : A -> World -> Prop) (E E' : string -> World -> Prop) :
  ensures P m Q E -> ensures P' m Q' E' ->
  ensures (fun w => P w /\ P' w) m
          (fun a w => Q a w /\ Q' a w) (fun e w => E e w /\ E' e w).
Proof.
  intros H1 H2 w [Hw Hw']. specialize (H1 w Hw). specialize (H2 w Hw').
  destruct (m w) as [[a|e] w1]; auto.
Qed.

Lemma ensures_forOfAcc {A S} (J : S -> World -> Prop) (E : string -> World -> Prop)
    (l : list A) (body : A -> S -> M (LoopCtl * S)) :
  (forall x a, x ∈ l -> ensures (J a) (body x a) (fun r w' => J (snd r) w') E) ->
  forall acc, ensures (J acc) (forOfAcc l acc body) J E.
Proof.
  induction l as [|x r IH]; intros Hbody acc w Hw; [exact Hw|].
  simpl forOfAcc. rewrite run_bind.
  assert (Hx := Hbody x acc (list_elem_of_here x r) w Hw).
  destruct (body x acc w) as [[[c a']|e] w1]; [|exact Hx].
  simpl in Hx. destruct c; [|exact Hx].
  apply IH; [|exact Hx]. intros y a Hy. apply Hbody. now right.
Qed.

Lemma ensures_forOf {A} (J : World -> Prop) (E : string -> World -> Prop)
    (l : list A) (body : A -> M LoopCtl) :
  (forall x, x ∈ l -> ensures J (body x) (fun _ => J) E) ->
  ensures J (forOf l body) (fun _ => J) E.
Proof.
  induction l as [|x r IH]; intros Hbody w Hw; [exact Hw|].
  simpl forOf. rewrite run_bind.
  assert (Hx := Hbody x (list_elem_of_here x r) w Hw).
  destruct (body x w) as [[c|e] w1]; [|exact Hx].
  destruct c; [|exact Hx].
  apply IH; [|exact Hx]. intros y Hy. apply Hbody. now right.
Qed.

Lemma preserves_ensures {A} (R : World -> World -> Prop) `{!PreOrder R}
    (m : M A) (w0 : World) :
  preserves R m -> ensures (R w0) m (fun _ => R w0) (fun _ => R w0).
Proof.
  intros Hm w Hw. specialize (Hm w).
  destruct (m w) as [[a|e] w1]; simpl in Hm; etransitivity; eassumption.
Qed.

Lemma ensures_preserves {A} (R : World -> World -> Prop) `{!PreOrder R} (m : M A) :
  (forall w0, ensures (R w0) m (fun _ => R w0) (fun _ => R w0)) -> preserves R m.
Proof.
  intros Hm w. specialize (Hm w w (reflexivity w)).
  destruct (m w) as [[a|e] w1]; exact Hm.
Qed.

Lemma noThrow_ensures {A} (m : M A) :
  noThrow m <-> ensures (fun _ => True) m (fun _ _ => True) (fun _ _ => False).
Proof.
  split.
  - intros Hm w _. destruct (Hm w) as (a & w' & ->). exact I.
  - intros Hm w. specialize (Hm w I). destruct (m w) as [[a|e] w1]; [eauto|tauto].
Qed.

Lemma noThrow_ret {A} (a : A) : noThrow (ret a).
Proof. intros w. eexists _, _. reflexivity. Qed.

Lemma noThrow_bind {A B} (m : M A) (k : A -> M B) :
  noThrow m -> (forall a, noThrow (k a)) -> noThrow (bind m k).
Proof.
  intros Hm Hk w. rewrite run_bind. destruct (Hm w) as (a & w1 & ->). apply Hk.
Qed.

(** A [try] whose [catch] block returns cannot throw. *)
Lemma noThrow_catch {A} (m : M A) (h : string -> M A) :
  (forall e, noThrow (h e)) -> noThrow (catch m h).
Proof.
  intros Hh w. rewrite run_catch. destruct (m w) as [[a|e] w1]; [eauto|apply Hh].
Qed.

Lemma noThrow_forOf {A} (l : list A) (body : A -> M LoopCtl) :
  (forall x, noThrow (body x)) -> noThrow (forOf l body).
Proof.
  intros Hbody. induction l as [|x r IH]; [apply noThrow_ret|].
  simpl. apply noThrow_bind; [apply Hbody|]. intros [|]; [exact IH|apply noThrow_ret].
Qed.

Lemma noThrow_forOfAcc {A S} (l : list A) (acc : S)
    (body : A -> S -> M (LoopCtl * S)) :
  (forall x a, noThrow (body x a)) -> noThrow (forOfAcc l acc body).
Proof.
  intros Hbody. revert acc. induction l as [|x r IH]; intros acc; [apply noThrow_ret|].
  simpl. apply noThrow_bind; [apply Hbody|].
  intros [[|] a']; [apply IH|apply noThrow_ret].
Qed.

Lemma noThrow_modify (f : World -> World) : noThrow (modify f).
Proof. intros w. eexists _, _. reflexivity. Qed.

Lemma noThrow_get : noThrow get.
Proof. intros w. eexists _, _. reflexivity. Qed.

Lemma noThrow_getState : noThrow getState.
Proof. intros w. eexists _, _. reflexivity. Qed.

Lemma noThrow_isPaused : noThrow isPaused.
Proof. intros w. eexists _, _. reflexivity. Qed.

Lemma noThrow_tick : noThrow tick.
Proof. intros w. eexists _, _. apply tick_run. Qed.

Lemma noThrow_newMap : noThrow newMap.
Proof. intros w. eexists _, _. reflexivity. Qed.

Lemma noThrow_mapHas (l : nat) (k : string) : noThrow (mapHas l k).
Proof. intros w. eexists _, _. reflexivity. Qed.

End Ensures.

Create HintDb totals discriminated.

#[export] Hint Resolve noThrow_modify noThrow_get noThrow_getState noThrow_isPaused
  noThrow_tick noThrow_newMap noThrow_mapHas : totals.

Ltac total_step :=
  match goal with
  | |- noThrow _ => solve [eauto 3 with totals]
  | |- noThrow (bind _ _) => apply noThrow_bind; [|intros]
  | |- noThrow (catch _ _) => apply noThrow_catch; intros
  | |- noThrow (ret _) => apply noThrow_ret
  | |- noThrow (forOf _ _) => apply noThrow_forOf; intros
  | |- noThrow (forOfAcc _ _ _) => apply noThrow_forOfAcc; intros
  | |- noThrow (if ?b then _ else _) => destruct b
  | |- noThrow (match ?x with _ => _ end) => destruct x
  | |- noThrow (send _) => unfold send
  | |- noThrow (mapSet _ _) => unfold mapSet
  | |- noThrow (rm _) => unfold rm
  | |- noThrow (sendProgress _) => unfold sendProgress
  | |- noThrow (sendProcessComplete _) => unfold sendProcessComplete
  | |- noThrow (modifyStats _) => unfold modifyStats
  | |- noThrow (modifyState _) => unfold modifyState
  | |- noThrow _ => progress cbv zeta
  end.

Ltac total := repeat total_step.

(** ** No failure of the file system stops a run *)

Section Totality.

Context `{Platform}.

Lemma scanDirectory_noThrow (depth : nat) :
  forall (dirPath : string) (allowedExtensions : list string)
         (relativePath sourceRoot : string),
    noThrow (scanDirectory depth dirPath allowedExtensions relativePath sourceRoot).
Proof.
  destruct depth; intros; simpl; total.
Qed.

Lemma buildFolderSignature_noThrow (folderInfo : FolderInfo)
    (allowedExtensions : list string) :
  noThrow (buildFolderSignature folderInfo allowedExtensions).
Proof. unfold buildFolderSignature, signBody. total. Qed.

Lemma scanDestinationFolder_noThrow (depth : nat) :
  forall (dirPath : string) (allowedExtensions : list string) (relativePath : string),
    noThrow (scanDestinationFolder depth dirPath allowedExtensions relativePath).
Proof.
  destruct depth; intros; simpl; total.
Qed.

Lemma scanDestinationRecursive_noThrow (depth : nat) (destinationMap : nat)
    (dirPath : string) :
  noThrow (scanDestinationRecursive depth destinationMap dirPath).
Proof. destruct depth; simpl; total. Qed.

Lemma indexDestination_noThrow (depth : nat) (destinationFolder : string)
    (allowedExtensions : list string) :
  noThrow (indexDestination depth destinationFolder allowedExtensions).
Proof. unfold indexDestination. total. Qed.

Lemma reindexDestination_noThrow (depth : nat) (destinationFolder : string)
    (allowedExtensions : list string) :
  noThrow (reindexDestination depth destinationFolder allowedExtensions).
Proof. unfold reindexDestination. total. Qed.

Lemma scanSources_noThrow (depth : nat) (sourceFolders allowedExtensions : list string) :
  noThrow (scanSources depth sourceFolders allowedExtensions).
Proof.
  unfold scanSources. total. apply scanDirectory_noThrow.
Qed.

Lemma groupLeafFolders_noThrow (allowedExtensions : list string) :
  noThrow (groupLeafFolders allowedExtensions).
Proof. unfold groupLeafFolders. total. Qed.

Lemma mergeMember_noThrow (depth : nat) (destinationFolderSignatures : nat)
    (normalizedName destFolderPath : string) (fileHashMap : nat)
    (folderData : FolderData) :
  noThrow (mergeMember depth destinationFolderSignatures normalizedName destFolderPath
                       fileHashMap folderData).
Proof. unfold mergeMember. total. Qed.

Lemma mergeGroup_noThrow (depth : nat) (destinationFolderSignatures : nat)
    (destinationFolder : string) (group : string * list FolderData) :
  noThrow (mergeGroup depth destinationFolderSignatures destinationFolder group).
Proof.
  unfold mergeGroup. destruct group. total. apply mergeMember_noThrow.
Qed.

Lemma folderMergePass_noThrow (depth : nat) (destinationFolderSignatures : nat)
    (destinationFolder : string) (groups : list (string * list FolderData)) :
  noThrow (folderMergePass depth destinationFolderSignatures destinationFolder groups).
Proof. unfold folderMergePass. total. apply mergeGroup_noThrow. Qed.

Lemma processFile_noThrow (destFolderOf : string -> string -> string)
    (destinationFolder : string) (destinationMap : nat)
    (processedFiles : gset string) (i : nat) (file : FileInfo) :
  noThrow (processFile destFolderOf destinationFolder destinationMap processedFiles
                       i file).
Proof. unfold processFile. total. Qed.

Lemma fileLoop_noThrow (destFolderOf : string -> string -> string)
    (destinationFolder : string) (destinationMap : nat)
    (processedFiles : gset string) (files : list FileInfo) :
  forall i, noThrow (fileLoop destFolderOf destinationFolder destinationMap
                              processedFiles files i).
Proof.
  induction files as [|file rest IH]; intros i; simpl; total;
    auto using processFile_noThrow.
Qed.

Lemma getAllFolders_noThrow (depth : nat) :
  forall (dirPath : string) (folderList : list LeafFolder),
    noThrow (getAllFolders depth dirPath folderList).
Proof.
  induction depth as [|depth IH]; intros; simpl; total; auto.
Qed.

End Totality.

(** ** Steps that only read and send nothing *)

#[export] Instance reads_preorder : PreOrder reads.
Proof.
  split.
  - intros w. split; reflexivity.
  - intros w1 w2 w3 [Hq Ho] [Hq' Ho']. split; [etransitivity; eassumption|congruence].
Qed.

Lemma reads_quiet (w w' : World) : reads w w' -> quiet w w'.
Proof. now intros [Hq _]. Qed.

Lemma reads_fs (w w' : World) : reads w w' -> fs w' = fs w.
Proof. now intros [(Hf & _) _]. Qed.

Lemma reads_to {A} (R : World -> World -> Prop) (m : M A) :
  (forall w w', reads w w' -> R w w') -> preserves reads m -> preserves R m.
Proof. intros Hsub. apply preserves_weaken, Hsub. Qed.

Lemma tick_reads : preserves reads tick.
Proof.
  intros w. split; [apply tick_quiet|].
  unfold tick. destruct (pauseIn w) as [[|n]|]; reflexivity.
Qed.

Lemma get_reads : preserves reads get.
Proof. intros w. reflexivity. Qed.

Lemma getState_reads : preserves reads getState.
Proof. intros w. reflexivity. Qed.

Lemma isPaused_reads : preserves reads isPaused.
Proof. intros w. reflexivity. Qed.

Lemma mapHas_reads (l : nat) (k : string) : preserves reads (mapHas l k).
Proof. intros w. reflexivity. Qed.

Lemma lift_reads {A} (r : Res A) : preserves reads (fun w => (r, w)).
Proof. intros w. reflexivity. Qed.

#[export] Hint Resolve tick_reads get_reads getState_reads isPaused_reads
  mapHas_reads : frames.

Lemma readdir_reads (p : string) : preserves reads (readdir p).
Proof. unfold readdir. frame. Qed.

Lemma readdirRecursive_reads (p : string) : preserves reads (readdirRecursive p).
Proof. unfold readdirRecursive. frame. Qed.

Lemma stat_reads (p : string) : preserves reads (stat p).
Proof. unfold stat. frame. Qed.

Lemma access_reads (p : string) : preserves reads (access p).
Proof. unfold access. frame. Qed.

#[export] Hint Resolve readdir_reads readdirRecursive_reads stat_reads
  access_reads : frames.

Section HashFileReads.

Context `{Platform}.

Lemma readStream_reads (chunks : list string) : preserves reads (readStream chunks).
Proof. induction chunks; simpl; frame. Qed.

Lemma hashFile_reads (filePath : string) : preserves reads (hashFile filePath).
Proof.
  unfold hashFile. pose proof readStream_reads. pose proof (@lift_reads string).
  frame.
Qed.

Lemma digestOf_whole (content : string) :
  digestOf content = sha256 (String.concat "" (chunksOf content)).
Proof. unfold digestOf. rewrite onData_unpaused. reflexivity. Qed.

Lemma hashFile_resolves_digest (filePath : string) (w w' : World) (hash : string) :
  hashFile filePath w = (Ok hash, w') ->
  exists content,
    FS.lookup (fs w) (Path.resolve filePath) = Some (File content)
    /\ hash = sha256 (String.concat "" (chunksOf content)).
Proof.
  intros E. destruct (hashFile_ok _ _ _ _ E) as (content & Hlook & -> & Hp).
  exists content. rewrite digestOf_whole. auto.
Qed.



(** hashFile: it changes nothing but the clock and the flag, and sends
    nothing; a path that is not there is rejected with ENOENT and a
    directory with EISDIR. *)
Theorem hashFile_only_reads (filePath : string) (w : World) :
  reads w (snd (hashFile filePath w))
  /\ (FS.lookup (fs w) (Path.resolve filePath) = None ->
      fst (hashFile filePath w) = Throw "ENOENT")
  /\ (forall entries, FS.lookup (fs w) (Path.resolve filePath) = Some (Dir entries) ->
      fst (hashFile filePath w) = Throw "EISDIR").
Proof.
  split; [apply hashFile_reads|].
  split; [intros Hlook|intros entries Hlook];
    unfold hashFile; rewrite run_bind; unfold get at 1; rewrite Hlook;
    rewrite run_bind, (tick_run w); reflexivity.
Qed.

(** ** buildFolderSignature *)

Lemma signBody_reads (file : FileInfo) (fileHashes : list FileHash) :
  preserves reads (signBody file fileHashes).
Proof. pose proof hashFile_reads. unfold signBody. frame. Qed.

Lemma buildFolderSignature_reads (folderInfo : FolderInfo)
    (allowedExtensions : list string) :
  preserves reads (buildFolderSignature folderInfo allowedExtensions).
Proof. pose proof signBody_reads. unfold buildFolderSignature. frame. Qed.

(** The loop of buildFolderSignature adds to [fileHashes] one element for
    each file it could hash. *)
Lemma signLoop_spec (root : node) (all : list FileInfo) (files : list FileInfo) :
  forall (fileHashes : list FileHash) (w : World),
    fs w = root ->
    (forall file, file ∈ files -> file ∈ all) ->
    exists hashed w',
      forOfAcc files fileHashes signBody w = (Ok (fileHashes ++ hashed), w')
      /\ List.length hashed <= List.length files
      /\ Forall (fun h => exists file content,
                   file ∈ all
                   /\ h_name h = f_name file /\ h_size h = f_size file
                   /\ FS.lookup root (Path.resolve (f_path file)) = Some (File content)
                   /\ h_hash h = sha256 (String.concat "" (chunksOf content)))
                hashed.
Proof.
  induction files as [|file files IH]; intros fileHashes w Hroot Hall.
  - exists [], w. simpl. rewrite app_nil_r. auto.
  - simpl forOfAcc. rewrite run_bind.
    unfold signBody at 1. rewrite run_bind. unfold isPaused at 1.
    destruct (paused (state w)) eqn:Hp.
    { exists [], w. simpl. rewrite app_nil_r. split; [reflexivity|].
      split; [lia|constructor]. }
    rewrite run_catch, run_bind.
    pose proof (hashFile_reads (f_path file) w) as Hq.
    destruct (hashFile (f_path file) w) as [[hash|err] w2] eqn:Ehash; simpl in Hq.
    + destruct (IH (fileHashes ++ [mkFileHash (f_name file) (f_size file) hash]) w2)
        as (hashed & w' & Hrun & Hlen & Hfrom).
      { rewrite (reads_fs _ _ Hq). exact Hroot. }
      { intros f Hf. apply Hall. now right. }
      exists (mkFileHash (f_name file) (f_size file) hash :: hashed), w'.
      simpl. rewrite Hrun, <- app_assoc. split; [reflexivity|].
      split; [simpl; lia|].
      constructor; [|exact Hfrom].
      destruct (hashFile_resolves_digest _ _ _ _ Ehash) as (content & Hlook & Hh).
      exists file, content. simpl. rewrite <- Hroot.
      split; [apply Hall; left|]. auto.
    + destruct (IH fileHashes w2) as (hashed & w' & Hrun & Hlen & Hfrom).
      { rewrite (reads_fs _ _ Hq). exact Hroot. }
      { intros f Hf. apply Hall. now right. }
      exists hashed, w'. simpl. rewrite Hrun. split; [reflexivity|].
      split; [lia|exact Hfrom].
Qed.

Lemma fold_sum_sizes (files : list FileInfo) (n : nat) :
  fold_left (fun sum f => sum + f_size f) files n = n + list_sum (map f_size files).
Proof.
  revert n. induction files as [|f files IH]; intros n; simpl; [lia|].
  rewrite IH. lia.
Qed.

Lemma signLoop_paused (files : list FileInfo) (fileHashes : list FileHash) (w : World) :
  paused (state w) = true ->
  forOfAcc files fileHashes signBody w = (Ok fileHashes, w).
Proof.
  intros Hp. destruct files as [|file files]; [reflexivity|].
  simpl. rewrite run_bind. unfold signBody. rewrite run_bind.
  unfold isPaused at 1. rewrite Hp. reflexivity.
Qed.

(** buildFolderSignature: it always returns, having only read.  The file
    count of the signature is the number of files it lists, which are the
    files that could be hashed, while the total size adds up the recorded
    sizes of all the files of the folder record; the digest is the digest of
    the listed lines in the listed order.  Called with the flag up it hashes
    nothing. *)
Theorem buildFolderSignature_counts_hashed_files (folderInfo : FolderInfo)
    (allowedExtensions : list string) (w : World) :
  exists sig w',
    buildFolderSignature folderInfo allowedExtensions w = (Ok sig, w')
    /\ reads w w'
    /\ s_fileCount sig = List.length (s_files sig)
    /\ s_fileCount sig <= List.length (d_files folderInfo)
    /\ s_totalSize sig = list_sum (map f_size (d_files folderInfo))
    /\ s_hash sig = sha256 (String.concat "" (map signatureLine (s_files sig)))
    /\ (paused (state w) = true -> s_files sig = [] /\ w' = w).
Proof.
  pose proof (buildFolderSignature_reads folderInfo allowedExtensions w) as Hreads.
  unfold buildFolderSignature in *. rewrite run_bind in *.
  pose proof (signLoop_paused (d_files folderInfo) [] w) as Hpaused.
  destruct (signLoop_spec (fs w) (d_files folderInfo) (d_files folderInfo) [] w)
    as (hashed & w' & Hrun & Hlen & _); [reflexivity|auto|].
  rewrite Hrun in *. simpl in Hreads.
  eexists _, w'. split; [reflexivity|]. simpl.
  split; [exact Hreads|].
  split; [symmetry; apply Permutation_length, sortByName_perm|].
  split; [exact Hlen|].
  split; [apply fold_sum_sizes|].
  split; [reflexivity|].
  intros Hp. specialize (Hpaused Hp). injection Hpaused as -> ->. auto.
Qed.


End HashFileReads.

#[export] Hint Resolve hashFile_reads readStream_reads signBody_reads
  buildFolderSignature_reads : frames.

(** ** Rules for [yields] *)

Section Yields.

Context (R : World -> World -> Prop) (w0 : World).

Lemma yields_ret {A} (a : A) (Q : A -> Prop) : Q a -> yields R w0 (ret a) Q.
Proof. intros HQ w Hw. simpl. auto. Qed.

Lemma yields_throw {A} (e : string) (Q : A -> Prop) : yields R w0 (throw e) Q.
Proof. intros w Hw. exact Hw. Qed.

Lemma yields_bind {A B} (m : M A) (k : A -> M B) (Qm : A -> Prop) (Q : B -> Prop) :
  yields R w0 m Qm -> (forall a, Qm a -> yields R w0 (k a) Q) ->
  yields R w0 (bind m k) Q.
Proof.
  intros Hm Hk w Hw. rewrite run_bind. specialize (Hm w Hw).
  destruct (m w) as [[a|e] w1]; [|exact Hm].
  destruct Hm as [Ha Hw1]. apply (Hk a Ha w1 Hw1).
Qed.

Lemma yields_catch {A} (m : M A) (h : string -> M A) (Q : A -> Prop) :
  yields R w0 m Q -> (forall e, yields R w0 (h e) Q) -> yields R w0 (catch m h) Q.
Proof.
  intros Hm Hh w Hw. rewrite run_catch. specialize (Hm w Hw).
  destruct (m w) as [[a|e] w1]; [exact Hm|]. apply (Hh e w1 Hm).
Qed.

Lemma yields_any `{!PreOrder R} {A} (m : M A) :
  preserves R m -> yields R w0 m (fun _ => True).
Proof.
  intros Hm w Hw. specialize (Hm w).
  destruct (m w) as [[a|e] w1]; simpl in Hm; [split; [exact I|]|];
    etransitivity; eassumption.
Qed.

Lemma yields_weaken {A} (m : M A) (Q Q' : A -> Prop) :
  yields R w0 m Q' -> (forall a, Q' a -> Q a) -> yields R w0 m Q.
Proof.
  intros Hm HQ w Hw. specialize (Hm w Hw).
  destruct (m w) as [[a|e] w1]; [|exact Hm]. destruct Hm. auto.
Qed.

Lemma yields_forOfAcc {A S} (I : S -> Prop) (l : list A) (acc : S)
    (body : A -> S -> M (LoopCtl * S)) :
  I acc ->
  (forall x a, x ∈ l -> I a -> yields R w0 (body x a) (fun r => I (snd r))) ->
  yields R w0 (forOfAcc l acc body) I.
Proof.
  revert acc. induction l as [|x r IH]; intros acc Hacc Hbody w Hw.
  - simpl. auto.
  - simpl forOfAcc. rewrite run_bind.
    assert (Hx := Hbody x acc (list_elem_of_here x r) Hacc w Hw).
    destruct (body x acc w) as [[[c a']|e] w1]; [|exact Hx].
    simpl in Hx. destruct Hx as [Ha' Hw1]. destruct c; [|simpl; auto].
    apply IH; [exact Ha'| |exact Hw1]. intros y a Hy. apply Hbody. now right.
Qed.

End Yields.

Lemma yields_preserves {A} (R : World -> World -> Prop) `{!PreOrder R} (m : M A) :
  (forall w0, yields R w0 m (fun _ => True)) -> preserves R m.
Proof.
  intros Hm w. specialize (Hm w w (reflexivity w)).
  destruct (m w) as [[a|e] w1]; [destruct Hm|]; assumption.
Qed.

(** What [yields] says of a run from [w0] itself. *)
Lemma yields_run {A} (R : World -> World -> Prop) `{!PreOrder R} (m : M A)
    (Q : A -> Prop) (w0 : World) :
  yields R w0 m Q ->
  R w0 (snd (m w0)) /\ forall a, fst (m w0) = Ok a -> Q a.
Proof.
  intros Hm. specialize (Hm w0 (reflexivity w0)).
  destruct (m w0) as [[a|e] w1]; simpl.
  - destruct Hm. split; [assumption|]. now intros ? [= <-].
  - split; [assumption|]. discriminate.
Qed.

(** [stat] reports the size of what is at the path. *)
Lemma stat_yields_size (R : World -> World -> Prop) `{!PreOrder R} (w0 : World)
    (p : string) :
  (forall w, R w0 w -> fs w = fs w0) ->
  preserves R (stat p) ->
  yields R w0 (stat p) (fun s => sizeAt (fs w0) p = Some (st_size s)).
Proof.
  intros Hfs Hstat w Hw. specialize (Hstat w).
  assert (Hw' : R w0 (snd (stat p w))) by (etransitivity; eassumption).
  pose proof (reads_fs _ _ (tick_reads w)) as Htick.
  destruct (stat p w) as [r w'] eqn:E. simpl in Hw'.
  unfold stat in E. rewrite run_bind, (tick_run w), run_bind in E.
  unfold get at 1 in E. unfold sizeAt. rewrite <- (Hfs w Hw), <- Htick.
  destruct (FS.lookup (fs (snd (tick w))) (Path.resolve p)) as [[c|es]|];
    injection E as <- <-; simpl; auto.
Qed.

(** ** scanDirectory *)

#[export] Instance scanning_preorder (allowedExtensions : list string) :
  PreOrder (scanning allowedExtensions).
Proof.
  split.
  - intros w. unfold scanning. repeat split; try reflexivity.
    + exists []. rewrite app_nil_r. auto.
    + exists []. rewrite app_nil_r. auto.
  - intros w1 w2 w3 (Hf & Hm & Hc & Ho & Hs & (fl & Hfl & Pfl) & (dl & Hdl & Pdl))
                    (Hf' & Hm' & Hc' & Ho' & Hs' & (fl' & Hfl' & Pfl') & (dl' & Hdl' & Pdl')).
    unfold scanning. repeat split; try congruence.
    + exists (fl ++ fl'). rewrite Hfl', Hfl, app_assoc. split; [reflexivity|].
      apply Forall_app. rewrite Hf in Pfl'. auto.
    + exists (dl ++ dl'). rewrite Hdl', Hdl, app_assoc. split; [reflexivity|].
      apply Forall_app. rewrite Hf in Pdl'. auto.
Qed.

Lemma core_lists (s s' : State) :
  setPaused false s' = setPaused false s ->
  setFileList [] (setFolderList [] (setPaused false s'))
  = setFileList [] (setFolderList [] (setPaused false s))
  /\ fileList s' = fileList s /\ folderList s' = folderList s.
Proof.
  destruct s, s'. unfold setFileList, setFolderList, setPaused. simpl.
  intros [= -> -> -> -> -> -> -> ->]. auto.
Qed.

Lemma reads_scanning (allowedExtensions : list string) (w w' : World) :
  reads w w' -> scanning allowedExtensions w w'.
Proof.
  intros [(Hf & Hm & Hc & Hs & _) Ho]. unfold scanning.
  destruct (core_lists _ _ Hs) as (Hcore & Hfl & Hdl).
  repeat split; try assumption.
  - exists []. rewrite app_nil_r. split; [assumption|constructor].
  - exists []. rewrite app_nil_r. split; [assumption|constructor].
Qed.

Lemma pushFile_scanning (allowedExtensions : list string) (w0 w : World)
    (fileInfo : FileInfo) :
  scannedFile allowedExtensions (fs w0) fileInfo ->
  scanning allowedExtensions w0 w ->
  scanning allowedExtensions w0
    (withState (fun s => setFileList (fileList s ++ [fileInfo]) s) w).
Proof.
  intros Hfile (Hf & Hm & Hc & Ho & Hs & (fl & Hfl & Pfl) & Hfolders).
  unfold scanning. simpl. repeat split; try assumption.
  exists (fl ++ [fileInfo]). rewrite Hfl, app_assoc. split; [reflexivity|].
  apply Forall_app. split; [assumption|]. constructor; [assumption|constructor].
Qed.

Lemma pushFolder_scanning (allowedExtensions : list string) (w0 w : World)
    (folderInfo : FolderInfo) :
  scannedFolder allowedExtensions (fs w0) folderInfo ->
  scanning allowedExtensions w0 w ->
  scanning allowedExtensions w0
    (withState (fun s => setFolderList (folderList s ++ [folderInfo]) s) w).
Proof.
  intros Hfolder (Hf & Hm & Hc & Ho & Hs & Hfiles & (dl & Hdl & Pdl)).
  unfold scanning. simpl. repeat split; try assumption.
  exists (dl ++ [folderInfo]). rewrite Hdl, app_assoc. split; [reflexivity|].
  apply Forall_app. split; [assumption|]. constructor; [assumption|constructor].
Qed.

Lemma modifyState_yields (R : World -> World -> Prop) (w0 : World)
    (f : State -> State) :
  (forall w, R w0 w -> R w0 (withState f w)) ->
  yields R w0 (modifyState f) (fun _ => True).
Proof. intros Hf w Hw. simpl. auto. Qed.

Lemma scanning_fs (allowedExtensions : list string) (w0 w : World) :
  scanning allowedExtensions w0 w -> fs w = fs w0.
Proof. now intros (Hf & _). Qed.

Lemma scanDirectory_scanning (allowedExtensions : list string) (depth : nat) :
  forall (dirPath relativePath sourceRoot : string),
    preserves (scanning allowedExtensions)
      (scanDirectory depth dirPath allowedExtensions relativePath sourceRoot).
Proof.
  pose proof (fun A m => @reads_to A _ m (reads_scanning allowedExtensions)) as Hq.
  induction depth as [|depth IH]; intros dirPath relativePath sourceRoot;
    simpl; [frame|].
  apply preserves_catch; [typeclasses eauto| |intros; apply preserves_ret; typeclasses eauto].
  apply yields_preserves; [typeclasses eauto|]. intros w0.
  set (Inv := fun acc : list FileInfo * list string * bool =>
                (snd acc = true <-> snd (fst acc) <> [])
                /\ Forall (fun f => f_folderPath f = dirPath
                                    /\ scannedFile allowedExtensions (fs w0) f)
                          (fst (fst acc))).
  eapply yields_bind; [apply yields_any; [typeclasses eauto|frame]|intros entries _].
  eapply yields_bind with (Qm := Inv).
  - apply yields_forOfAcc.
    { split; simpl; [split; [discriminate|congruence]|constructor]. }
    intros entry [[folderFiles subFolders] hasSubDirectories] _ [Hhs Hff].
    simpl in Hhs, Hff.
    eapply yields_bind; [apply yields_any; [typeclasses eauto|frame]|intros p _].
    destruct p; [apply yields_ret; split; assumption|]. cbv zeta.
    destruct (de_isDirectory entry).
    + assert (Hinv : Inv (folderFiles,
                          subFolders ++
                          [if Path.nonEmpty relativePath
                           then Path.join [relativePath; de_name entry]
                           else de_name entry], true)).
      { split; simpl; [|assumption]. split; [|reflexivity].
        intros _ Hnil. apply app_eq_nil in Hnil as [_ Hnil]. discriminate. }
      apply yields_catch; [|intros; apply yields_ret; exact Hinv].
      eapply yields_bind; [apply yields_any; [typeclasses eauto|apply IH]|intros _ _].
      apply yields_ret. exact Hinv.
    + destruct (extensionAllowed allowedExtensions (de_name entry)) eqn:Hext;
        [|apply yields_ret; split; assumption].
      apply yields_catch; [|intros; apply yields_ret; split; assumption].
      eapply yields_bind.
      { apply stat_yields_size; [typeclasses eauto|apply scanning_fs|frame]. }
      intros stats Hsize. cbv zeta.
      match goal with
      | |- yields _ _ (bind (modifyState (fun s => setFileList (fileList s ++ [?fi]) s)) _) _ =>
          assert (Hfile : scannedFile allowedExtensions (fs w0) fi)
      end.
      { split; [exact Hext|]. split; [reflexivity|exact Hsize]. }
      eapply yields_bind.
      { apply modifyState_yields. intros w Hw. apply pushFile_scanning; assumption. }
      intros _ _. apply yields_ret. split; simpl; [assumption|].
      apply Forall_app. split; [assumption|]. constructor; [|constructor].
      split; [reflexivity|exact Hfile].
  - intros [[folderFiles subFolders] hasSubDirectories] [Hhs Hff]. simpl in Hhs, Hff.
    destruct ((0 <? List.length folderFiles)%nat || (0 <? List.length subFolders)%nat)
      eqn:Hne; [|apply yields_ret; exact I].
    apply modifyState_yields. intros w Hw. apply pushFolder_scanning; [|exact Hw].
    split; simpl; [|split; [|exact Hff]].
    + destruct hasSubDirectories; simpl; split; intros Hx.
      * discriminate.
      * exfalso. apply Hhs; auto.
      * destruct subFolders; [reflexivity|]. exfalso.
        assert (false = true) by (apply Hhs; discriminate). discriminate.
      * reflexivity.
    + apply orb_true_iff in Hne as [Hne|Hne]; apply Nat.ltb_lt in Hne;
        [left|right]; intros ->; simpl in Hne; lia.
Qed.

Lemma scanDirectory_returns (depth : nat) (dirPath : string)
    (allowedExtensions : list string) (relativePath sourceRoot : string) (w : World) :
  exists w',
    scanDirectory depth dirPath allowedExtensions relativePath sourceRoot w = (Ok tt, w')
    /\ scanning allowedExtensions w w'.
Proof.
  pose proof (scanDirectory_scanning allowedExtensions depth dirPath relativePath
                sourceRoot w) as Hscan.
  assert (Htotal : noThrow (scanDirectory depth dirPath allowedExtensions
                                          relativePath sourceRoot)).
  { destruct depth; simpl; total. }
  destruct (Htotal w) as ([] & w' & E). rewrite E in Hscan. eauto.
Qed.

(** scanDirectory: it always returns.  It appends to the list of files and
    to the list of folders and may find the flag raised; the file system,
    the maps, the record of copies, the messages sent and the rest of the
    state are as before. *)
Theorem scanDirectory_only_appends (depth : nat) (dirPath : string)
    (allowedExtensions : list string) (relativePath sourceRoot : string) (w : World) :
  exists w' files folders,
    scanDirectory depth dirPath allowedExtensions relativePath sourceRoot w = (Ok tt, w')
    /\ fileList (state w') = fileList (state w) ++ files
    /\ folderList (state w') = folderList (state w) ++ folders
    /\ fs w' = fs w /\ maps w' = maps w /\ copyLog w' = copyLog w
    /\ outbox w' = outbox w
    /\ stats (state w') = stats (state w)
    /\ deduplicationMap (state w') = deduplicationMap (state w)
    /\ copiedFolders (state w') = copiedFolders (state w)
    /\ folderReport (state w') = folderReport (state w)
    /\ currentIndex (state w') = currentIndex (state w).
Proof.
  destruct (scanDirectory_returns depth dirPath allowedExtensions relativePath
              sourceRoot w)
    as (w' & E & Hf & Hm & Hc & Ho & Hs & (files & Hfiles & _) & (folders & Hfolders & _)).
  exists w', files, folders. repeat (split; [assumption|]).
  destruct (state w), (state w').
  unfold setFileList, setFolderList, setPaused in Hs. simpl in *.
  injection Hs as -> -> -> -> -> ->. auto.
Qed.

(** scanDirectory: every file record it appends is of a name that passes the
    extension filter, has the path of that name in its folder, and has the
    size that stat reports for that path. *)
Theorem scanDirectory_file_records (depth : nat) (dirPath : string)
    (allowedExtensions : list string) (relativePath sourceRoot : string) (w : World) :
  let w' := snd (scanDirectory depth dirPath allowedExtensions relativePath
                               sourceRoot w) in
  exists files,
    fileList (state w') = fileList (state w) ++ files
    /\ forall f, f ∈ files ->
         extensionAllowed allowedExtensions (f_name f) = true
         /\ f_path f = Path.join [f_folderPath f; f_name f]
         /\ sizeAt (fs w) (f_path f) = Some (f_size f).
Proof.
  destruct (scanDirectory_scanning allowedExtensions depth dirPath relativePath
              sourceRoot w)
    as (_ & _ & _ & _ & _ & (files & Hfiles & Pfiles) & _).
  exists files. split; [exact Hfiles|].
  intros f Hf. rewrite Forall_forall in Pfiles. apply Pfiles, Hf.
Qed.

(** scanDirectory: every folder record it appends has a file or a
    sub-folder; it is a leaf exactly when it lists no sub-folder, so that a
    leaf has at least one file; and its files are records of files of that
    very folder whose names pass the filter. *)
Theorem scanDirectory_folder_records (depth : nat) (dirPath : string)
    (allowedExtensions : list string) (relativePath sourceRoot : string) (w : World) :
  let w' := snd (scanDirectory depth dirPath allowedExtensions relativePath
                               sourceRoot w) in
  exists folders,
    folderList (state w') = folderList (state w) ++ folders
    /\ forall d, d ∈ folders ->
         (d_isLeaf d = true <-> d_subFolders d = [])
         /\ (d_isLeaf d = true -> d_files d <> [])
         /\ forall f, f ∈ d_files d ->
              f_folderPath f = d_path d
              /\ extensionAllowed allowedExtensions (f_name f) = true.
Proof.
  destruct (scanDirectory_scanning allowedExtensions depth dirPath relativePath
              sourceRoot w)
    as (_ & _ & _ & _ & _ & _ & (folders & Hfolders & Pfolders)).
  exists folders. split; [exact Hfolders|].
  intros d Hd. rewrite Forall_forall in Pfolders.
  destruct (Pfolders d Hd) as (Hleaf & Hne & Hfiles).
  split; [exact Hleaf|]. split.
  - intros Hl. apply Hleaf in Hl. destruct Hne; [assumption|contradiction].
  - intros f Hf. rewrite Forall_forall in Hfiles.
    destruct (Hfiles f Hf) as (Hpath & Hext & _). auto.
Qed.

(** ** scanDestinationFolder *)

Section Scanners.

Context `{Platform}.

Lemma scanDestinationFolder_reads (depth : nat) :
  forall (dirPath : string) (allowedExtensions : list string) (relativePath : string),
    preserves reads (scanDestinationFolder depth dirPath allowedExtensions relativePath).
Proof.
  induction depth as [|depth IH]; intros; simpl; frame.
Qed.

(** A digest that [hashFile] resolves with, as a result. *)
Lemma hashFile_yields (R : World -> World -> Prop) `{!PreOrder R} (w0 : World)
    (p : string) :
  (forall w, R w0 w -> fs w = fs w0) ->
  preserves R (hashFile p) ->
  yields R w0 (hashFile p)
    (fun hash => exists content,
       FS.lookup (fs w0) (Path.resolve p) = Some (File content)
       /\ hash = sha256 (String.concat "" (chunksOf content))).
Proof.
  intros Hfs Hhash w Hw. specialize (Hhash w).
  assert (Hw' : R w0 (snd (hashFile p w))) by (etransitivity; eassumption).
  destruct (hashFile p w) as [[hash|e] w'] eqn:E; [|exact Hw'].
  split; [|exact Hw'].
  destruct (hashFile_resolves_digest _ _ _ _ E) as (content & Hlook & Hh).
  exists content. rewrite <- (Hfs w Hw). auto.
Qed.

(** What holds of a file that [scanDestinationFolder] lists for the folder
    [dirPath] on the tree [root]. *)
Lemma scanDestinationFolder_yields (depth : nat) (dirPath : string)
    (allowedExtensions : list string) (relativePath : string) (w0 : World) :
  yields reads w0 (scanDestinationFolder depth dirPath allowedExtensions relativePath)
    (fun info =>
       Forall (fun file =>
                 extensionAllowed allowedExtensions (df_name file) = true
                 /\ df_path file = Path.join [dirPath; df_name file]
                 /\ exists content,
                      FS.lookup (fs w0) (Path.resolve (df_path file)) = Some (File content)
                      /\ df_size file = String.length content
                      /\ df_hash file = sha256 (String.concat "" (chunksOf content)))
              (dfi_files info)).
Proof.
  destruct depth as [|depth]; simpl.
  - eapply yields_bind; [apply yields_any; [typeclasses eauto|frame]|intros _ _].
    apply yields_ret. constructor.
  - eapply yields_bind; [apply yields_any; [typeclasses eauto|frame]|intros listing _].
    destruct listing as [entries|]; [|apply yields_ret; constructor].
    set (okFile := fun file : DestFile => _ /\ _).
    eapply yields_bind with (Qm := fun acc => Forall okFile (fst acc));
      [|intros [files subFolders] Hfiles; apply yields_ret; exact Hfiles].
    apply yields_forOfAcc; [constructor|].
    intros entry [files subFolders] _ Hfiles. simpl in Hfiles.
    eapply yields_bind; [apply yields_any; [typeclasses eauto|frame]|intros p _].
    destruct p; [apply yields_ret; exact Hfiles|]. cbv zeta.
    apply yields_catch; [|intros; apply yields_ret; exact Hfiles].
    destruct (de_isDirectory entry).
    { eapply yields_bind;
        [apply yields_any; [typeclasses eauto|apply scanDestinationFolder_reads]
        |intros sub _].
      apply yields_ret. exact Hfiles. }
    destruct (extensionAllowed allowedExtensions (de_name entry)) eqn:Hext;
      [|apply yields_ret; exact Hfiles].
    eapply yields_bind.
    { apply stat_yields_size; [typeclasses eauto|apply reads_fs|frame]. }
    intros stats Hsize.
    apply yields_catch; [|intros; apply yields_ret; exact Hfiles].
    eapply yields_bind.
    { apply hashFile_yields; [typeclasses eauto|apply reads_fs|frame]. }
    intros hash (content & Hlook & Hhash).
    apply yields_ret. simpl. apply Forall_app. split; [exact Hfiles|].
    constructor; [|constructor].
    split; [exact Hext|]. split; [reflexivity|].
    exists content. simpl. split; [exact Hlook|]. split; [|exact Hhash].
    unfold sizeAt in Hsize. rewrite Hlook in Hsize. now injection Hsize as <-.
Qed.


End Scanners.

(** ** getAllFolders *)

Lemma getAllFolders_yields (depth : nat) :
  forall (dirPath : string) (folderList : list LeafFolder) (w0 : World),
    yields reads w0 (getAllFolders depth dirPath folderList)
      (fun result =>
         exists found,
           result = folderList ++ found
           /\ Forall (fun f => lf_isLeaf f = true
                               /\ lf_name f = Path.basename (lf_path f)
                               /\ lf_parent f = Path.dirname (lf_path f))
                     found).
Proof.
  induction depth as [|depth IH]; intros dirPath folderList w0; simpl.
  - eapply yields_bind; [apply yields_any; [typeclasses eauto|frame]|intros _ _].
    apply yields_ret. exists []. rewrite app_nil_r. auto.
  - eapply yields_bind; [apply yields_any; [typeclasses eauto|frame]|intros listing _].
    destruct listing as [entries|];
      [|apply yields_ret; exists []; rewrite app_nil_r; auto].
    set (okLeaf := fun f : LeafFolder => _ /\ _).
    set (Inv := fun acc : list LeafFolder * bool =>
                  exists found, fst acc = folderList ++ found /\ Forall okLeaf found).
    eapply yields_bind with (Qm := Inv).
    + apply yields_forOfAcc; [exists []; simpl; rewrite app_nil_r; auto|].
      intros entry [acc hasSubFolders] _ (found & Hacc & Hfound). simpl in Hacc.
      destruct (de_isDirectory entry);
        [|apply yields_ret; exists found; auto].
      eapply yields_bind; [apply IH|].
      intros result (found' & -> & Hfound'). apply yields_ret.
      exists (found ++ found'). simpl. rewrite Hacc, app_assoc.
      split; [reflexivity|]. apply Forall_app. auto.
    + intros [acc hasSubFolders] (found & Hacc & Hfound). simpl in Hacc.
      destruct hasSubFolders; apply yields_ret.
      * exists found. auto.
      * exists (found ++ [mkLeafFolder dirPath (Path.basename dirPath)
                                      (Path.dirname dirPath) true]).
        rewrite Hacc, app_assoc. split; [reflexivity|].
        apply Forall_app. split; [exact Hfound|].
        constructor; [|constructor]. repeat split.
Qed.

Lemma getAllFolders_returns (depth : nat) (dirPath : string)
    (folderList : list LeafFolder) (w : World) :
  exists found w',
    getAllFolders depth dirPath folderList w = (Ok (folderList ++ found), w')
    /\ reads w w'
    /\ forall f, f ∈ found ->
         lf_isLeaf f = true
         /\ lf_name f = Path.basename (lf_path f)
         /\ lf_parent f = Path.dirname (lf_path f).
Proof.
  destruct (getAllFolders_noThrow depth dirPath folderList w) as (result & w' & E).
  destruct (yields_run _ _ _ _ (getAllFolders_yields depth dirPath folderList w))
    as [Hreads Hresult].
  rewrite E in Hreads, Hresult. simpl in Hreads.
  destruct (Hresult result eq_refl) as (found & -> & Hfound).
  exists found, w'. split; [exact E|]. split; [exact Hreads|].
  intros f Hf. rewrite Forall_forall in Hfound. apply Hfound, Hf.
Qed.


(** ** Grouping by normalized name *)

Lemma pushGroup_names {A} (name : string) (x : A) (groups : list (string * list A)) :
  map fst (pushGroup name x groups)
  = if bool_decide (name ∈ map fst groups) then map fst groups
    else map fst groups ++ [name].
Proof.
  induction groups as [|[n l] groups IH]; [reflexivity|]. simpl.
  destruct (n =? name) eqn:En.
  - apply String.eqb_eq in En. subst n.
    rewrite bool_decide_eq_true_2; [reflexivity|left].
  - simpl. rewrite IH. apply String.eqb_neq in En.
    destruct (bool_decide (name ∈ map fst groups)) eqn:Ein.
    + apply bool_decide_eq_true in Ein.
      rewrite bool_decide_eq_true_2; [reflexivity|now right].
    + apply bool_decide_eq_false in Ein.
      rewrite bool_decide_eq_false_2; [reflexivity|].
      intros Hin. apply elem_of_cons in Hin as [Heq|Hin]; [congruence|contradiction].
Qed.

Lemma pushGroup_grouped {A} (P : string -> A -> Prop) (name : string) (x : A)
    (groups : list (string * list A)) :
  P name x -> grouped P groups -> grouped P (pushGroup name x groups).
Proof.
  intros Hx [Hnames Hall]. split.
  - rewrite pushGroup_names. destruct (bool_decide (name ∈ map fst groups)) eqn:Ein;
      [assumption|].
    apply bool_decide_eq_false in Ein. apply NoDup_app.
    split; [assumption|]. split; [|apply NoDup_singleton].
    intros n Hn Hn'. apply list_elem_of_singleton in Hn'. congruence.
  - clear Hnames. induction groups as [|[n l] groups IH].
    + simpl. constructor; [|constructor]. simpl. split; [discriminate|].
      constructor; [assumption|constructor].
    + inversion Hall as [|? ? [Hne Hl] Hrest]; subst. simpl in Hne, Hl. simpl.
      destruct (n =? name) eqn:En.
      * apply String.eqb_eq in En. subst n.
        constructor; [|exact Hrest]. simpl. split.
        { intros Hnil. apply app_eq_nil in Hnil as [_ Hnil]. discriminate. }
        apply Forall_app. split; [exact Hl|]. constructor; [assumption|constructor].
      * constructor; [|apply IH, Hrest]. simpl. auto.
Qed.

Lemma grouped_nil {A} (P : string -> A -> Prop) : grouped P [].
Proof. split; constructor. Qed.

(** ** merge-folders *)

Lemma nameGroups_spec (P : string -> LeafFolder -> Prop)
    (leafFolders : list LeafFolder) :
  forall (acc : list (string * list LeafFolder)) (w : World),
    Forall (fun f => P (normalizeFolderName (lf_name f)) f) leafFolders ->
    grouped P acc ->
    exists folderGroups,
      forOfAcc leafFolders acc
        (fun folder folderGroups =>
           let* p := isPaused in
           if p then ret (Break, folderGroups)
           else ret (Next, pushGroup (normalizeFolderName (lf_name folder)) folder
                                     folderGroups)) w
      = (Ok folderGroups, w)
      /\ grouped P folderGroups.
Proof.
  induction leafFolders as [|folder rest IH]; intros acc w Hall Hacc.
  - exists acc. auto.
  - inversion Hall as [|? ? Hfolder Hrest]; subst.
    simpl forOfAcc. rewrite run_bind, run_bind. unfold isPaused at 1.
    destruct (paused (state w)); [exists acc; auto|].
    simpl. apply IH; [assumption|]. apply pushGroup_grouped; assumption.
Qed.

Lemma proposal_spec (P : string -> LeafFolder -> Prop)
    (folderGroups : list (string * list LeafFolder)) :
  grouped P folderGroups ->
  let foldersToMerge :=
    flat_map (fun '(normalizedName, folders) =>
                match folders with
                | firstFolder :: _ :: _ =>
                    [mkMergeGroup normalizedName folders (lf_parent firstFolder)]
                | _ => []
                end)
             folderGroups in
  NoDup (map mg_name foldersToMerge)
  /\ Forall (fun g => 2 <= List.length (mg_folders g)
                      /\ Forall (P (mg_name g)) (mg_folders g)
                      /\ exists firstFolder rest,
                           mg_folders g = firstFolder :: rest
                           /\ mg_parent g = lf_parent firstFolder)
            foldersToMerge
  /\ forall n, n ∈ map mg_name foldersToMerge -> n ∈ map fst folderGroups.
Proof.
  intros [Hnames Hall]. cbv zeta.
  induction folderGroups as [|[n l] groups IH]; simpl.
  - split; [constructor|]. split; [constructor|]. auto.
  - inversion Hnames as [|? ? Hn Hnames']; subst.
    inversion Hall as [|? ? [_ Hl] Hall']; subst. simpl in Hl.
    destruct (IH Hnames' Hall') as (IHn & IHa & IHs).
    destruct l as [|firstFolder [|second l]]; simpl.
    + split; [assumption|]. split; [assumption|]. intros m Hm. right. auto.
    + split; [assumption|]. split; [assumption|]. intros m Hm. right. auto.
    + split; [constructor; [intros Hin; apply Hn, IHs, Hin|assumption]|].
      split.
      * constructor; [|assumption]. simpl. split; [lia|]. split; [assumption|].
        eauto.
      * intros m Hm. apply elem_of_cons in Hm as [->|Hm]; [left|right; auto].
Qed.

Lemma merge_folders_returns (depth : nat) (destinationFolder : string) (w : World) :
  exists w' answer,
    merge_folders depth destinationFolder w = (Ok tt, w')
    /\ fs w' = fs w /\ copyLog w' = copyLog w /\ maps w' = maps w
    /\ stats (state w') = zeroStats
    /\ outbox w'
       = outbox w ++ [ProgressUpdate "Scanning destination folder..." zeroStats; answer]
    /\ (answer = MergeComplete zeroStats (Some "No duplicate folders found to merge.")
                               None
        \/ exists groups,
             answer = MergeConfirmation groups
             /\ groups <> []
             /\ NoDup (map mg_name groups)
             /\ forall g, g ∈ groups ->
                  2 <= List.length (mg_folders g)
                  /\ (exists firstFolder rest,
                        mg_folders g = firstFolder :: rest
                        /\ mg_parent g = lf_parent firstFolder)
                  /\ forall f, f ∈ mg_folders g ->
                       lf_isLeaf f = true
                       /\ lf_name f = Path.basename (lf_path f)
                       /\ normalizeFolderName (lf_name f) = mg_name g).
Proof.
  unfold merge_folders. rewrite run_catch, run_bind.
  unfold modifyState at 1, modify at 1.
  rewrite run_bind. unfold modifyState at 1, modify at 1.
  rewrite run_bind. unfold sendProgress at 1. rewrite run_bind.
  unfold getState at 1. unfold send at 1, modify at 1.
  match goal with
  | |- context [bind (getAllFolders _ _ _) _ ?w0] => set (w3 := w0)
  end.
  rewrite run_bind.
  destruct (getAllFolders_returns depth destinationFolder [] w3)
    as (found & w4 & Eall & Hreads & Hfound).
  rewrite Eall. cbv zeta. rewrite run_bind.
  set (P := fun (n : string) (f : LeafFolder) =>
              lf_isLeaf f = true
              /\ lf_name f = Path.basename (lf_path f)
              /\ normalizeFolderName (lf_name f) = n).
  destruct (nameGroups_spec P (filter (fun f => lf_isLeaf f = true) ([] ++ found))
              [] w4) as (folderGroups & Egroups & Hgrouped).
  { apply Forall_forall. intros f Hf. apply list_elem_of_filter in Hf as [_ Hf].
    destruct (Hfound f Hf) as (Hleaf & Hname & _). repeat split; assumption. }
  { apply grouped_nil. }
  rewrite Egroups. rewrite run_bind. unfold getState at 1.
  destruct (proposal_spec P folderGroups Hgrouped) as (Hnodup & Hall & _).
  cbv zeta in Hnodup, Hall.
  destruct Hreads as [(Hfs & Hmaps & Hlog & Hcore & _) Hout].
  assert (Hstats : stats (state w4) = zeroStats).
  { rewrite (core_stats _ _ Hcore). reflexivity. }
  rewrite Hstats.
  match goal with
  | |- context [match ?l with [] => _ | _ :: _ => _ end] =>
      destruct l as [|g groups] eqn:Emerged
  end.
  - eexists _, _. split; [reflexivity|]. simpl.
    rewrite Hfs, Hlog, Hmaps, Hout, Hstats. subst w3. simpl.
    repeat (split; [reflexivity|]). split; [rewrite <- app_assoc; reflexivity|].
    left. reflexivity.
  - eexists _, _. split; [reflexivity|]. simpl.
    rewrite Hfs, Hlog, Hmaps, Hout, Hstats. subst w3. simpl.
    repeat (split; [reflexivity|]). split; [rewrite <- app_assoc; reflexivity|].
    right. exists (g :: groups). split; [reflexivity|]. split; [discriminate|].
    split; [exact Hnodup|].
    intros g' Hg'. rewrite Forall_forall in Hall.
    destruct (Hall g' Hg') as (Hlen & Hmembers & Hfirst).
    split; [exact Hlen|]. split; [exact Hfirst|].
    intros f Hf. rewrite Forall_forall in Hmembers. apply (Hmembers f Hf).
Qed.

(** merge-folders: it always returns, and it changes nothing on disk: the
    file system, the record of copies and the maps are as before.  It zeroes
    the counters and sends two messages, the progress line and then either
    the plain completion, without an error, or the groups to confirm. *)
Theorem merge_folders_only_proposes (depth : nat) (destinationFolder : string)
    (w : World) :
  exists w' answer,
    merge_folders depth destinationFolder w = (Ok tt, w')
    /\ fs w' = fs w /\ copyLog w' = copyLog w /\ maps w' = maps w
    /\ stats (state w') = zeroStats
    /\ outbox w'
       = outbox w ++ [ProgressUpdate "Scanning destination folder..." zeroStats; answer]
    /\ (answer = MergeComplete zeroStats (Some "No duplicate folders found to merge.")
                               None
        \/ exists groups, answer = MergeConfirmation groups /\ groups <> []).
Proof.
  destruct (merge_folders_returns depth destinationFolder w)
    as (w' & answer & E & Hfs & Hlog & Hmaps & Hstats & Hout & Hanswer).
  exists w', answer. repeat (split; [assumption|]).
  destruct Hanswer as [->|(groups & -> & Hne & _)]; [left; reflexivity|right; eauto].
Qed.


(** ** The groups of the folder-merge pass *)

Section Groups.

Context `{Platform}.

Lemma getState_yields_core (w0 : World) :
  yields reads w0 getState (fun s => setPaused false s = setPaused false (state w0)).
Proof.
  intros w Hw. simpl. split; [|exact Hw].
  destruct Hw as [(_ & _ & _ & Hs & _) _]. exact Hs.
Qed.

Lemma groupLeafFolders_yields (allowedExtensions : list string) (w0 : World) :
  yields reads w0 (groupLeafFolders allowedExtensions)
    (grouped (fun name member =>
                normalizeFolderName (Path.basename (d_path (fd_folderInfo member)))
                = name
                /\ fd_folderInfo member ∈ folderList (state w0)
                /\ d_isLeaf (fd_folderInfo member) = true)).
Proof.
  unfold groupLeafFolders.
  eapply yields_bind; [apply getState_yields_core|intros s Hs].
  apply core_lists in Hs as (_ & _ & Hfolders). cbv zeta.
  apply yields_forOfAcc; [apply grouped_nil|].
  intros folderInfo groups Hin Hgroups.
  apply list_elem_of_filter in Hin as [Hleaf Hin]. rewrite Hfolders in Hin.
  eapply yields_bind; [apply yields_any; [typeclasses eauto|frame]|intros p _].
  destruct p; [apply yields_ret; exact Hgroups|].
  apply yields_catch; [|intros; apply yields_ret; exact Hgroups].
  eapply yields_bind; [apply yields_any; [typeclasses eauto|frame]|intros signature _].
  eapply yields_bind; [apply yields_any; [typeclasses eauto|frame]|intros p _].
  destruct p; [apply yields_ret; exact Hgroups|]. cbv zeta.
  apply yields_ret. simpl. apply pushGroup_grouped; [|exact Hgroups].
  simpl. auto.
Qed.

(** start-process, grouping of the leaf folders: it always returns, having
    only read.  The groups have pairwise different names and none is empty;
    every member of a group is a leaf folder of the scan whose last path
    component normalizes to the name of the group. *)
Theorem groupLeafFolders_groups_by_normalized_name (allowedExtensions : list string)
    (w : World) :
  exists groups w',
    groupLeafFolders allowedExtensions w = (Ok groups, w')
    /\ reads w w'
    /\ NoDup (map fst groups)
    /\ forall name members, (name, members) ∈ groups ->
         members <> []
         /\ forall member, member ∈ members ->
              normalizeFolderName (Path.basename (d_path (fd_folderInfo member)))
              = name
              /\ fd_folderInfo member ∈ folderList (state w)
              /\ d_isLeaf (fd_folderInfo member) = true.
Proof.
  destruct (groupLeafFolders_noThrow allowedExtensions w) as (groups & w' & E).
  destruct (yields_run _ _ _ _ (groupLeafFolders_yields allowedExtensions w))
    as [Hreads Hgroups].
  rewrite E in Hreads, Hgroups. simpl in Hreads.
  destruct (Hgroups groups eq_refl) as [Hnames Hall].
  exists groups, w'. split; [exact E|]. split; [exact Hreads|].
  split; [exact Hnames|].
  intros name members Hin. rewrite Forall_forall in Hall.
  destruct (Hall _ Hin) as [Hne Hmembers]. simpl in Hne, Hmembers.
  split; [exact Hne|]. intros member Hmember.
  rewrite Forall_forall in Hmembers. apply (Hmembers member Hmember).
Qed.

End Groups.

(** ** What mkdir and copyFile keep *)

Lemma mkdirp_isDir (p : list string) (root root' : node) :
  FS.mkdirp root p = Some root' -> FS.isDir root = true /\ FS.isDir root' = true.
Proof.
  destruct root as [|es]; destruct p as [|s p]; simpl; try discriminate.
  - now intros [= <-].
  - destruct (FS.lookupEntry s es) as [c|].
    + destruct (FS.mkdirp c p); [|discriminate]. now intros [= <-].
    + destruct (FS.mkdirp (Dir []) p); [|discriminate]. now intros [= <-].
Qed.

Lemma mkdirp_keeps_kind (p : list string) :
  forall (root root' : node) (q : list string) (n : node),
    FS.mkdirp root p = Some root' ->
    FS.lookup root q = Some n ->
    exists n', FS.lookup root' q = Some n' /\ FS.isDir n' = FS.isDir n.
Proof.
  induction p as [|s p IH]; intros root root' q n Hmk Hq.
  - destruct root; simpl in Hmk; [discriminate|]. injection Hmk as <-. eauto.
  - destruct q as [|t q].
    { simpl in Hq. injection Hq as <-. exists root'. split; [reflexivity|].
      destruct (mkdirp_isDir _ _ _ Hmk). congruence. }
    destruct root as [|es]; simpl in Hmk; [discriminate|]. simpl in Hq.
    destruct (FS.lookupEntry s es) as [c|] eqn:Hs.
    + destruct (FS.mkdirp c p) as [c'|] eqn:Hc; [|discriminate].
      injection Hmk as <-. simpl. rewrite lookupEntry_putEntry.
      destruct (s =? t) eqn:Est; [|eauto].
      apply String.eqb_eq in Est. subst t. rewrite Hs in Hq.
      eapply IH; eassumption.
    + destruct (FS.mkdirp (Dir []) p) as [c'|] eqn:Hc; [|discriminate].
      injection Hmk as <-. simpl. rewrite (lookupEntry_app_new _ _ _ _ Hs).
      destruct (s =? t) eqn:Est; [|eauto].
      apply String.eqb_eq in Est. subst t. rewrite Hs in Hq. discriminate.
Qed.

(** Writing a file where there is no directory keeps every entry. *)
Lemma put_keeps_kind (p : list string) :
  forall (root root' : node) (content : string) (q : list string) (n : node),
    FS.put root p (File content) = Some root' ->
    (forall entries, FS.lookup root p <> Some (Dir entries)) ->
    FS.lookup root q = Some n ->
    exists n', FS.lookup root' q = Some n' /\ FS.isDir n' = FS.isDir n.
Proof.
  induction p as [|s p IH]; intros root root' content q n Hput Hnodir Hq.
  - simpl in Hput. injection Hput as <-. simpl in Hnodir.
    destruct root as [c|es]; [|exfalso; eapply Hnodir; reflexivity].
    destruct q as [|t q]; simpl in Hq; [|discriminate].
    injection Hq as <-. exists (File content). auto.
  - destruct root as [c|es]; simpl in Hput; [discriminate|].
    destruct q as [|t q].
    { simpl in Hq. injection Hq as <-.
      destruct p as [|s' p].
      - injection Hput as <-. eauto.
      - destruct (FS.lookupEntry s es) as [c0|]; [|discriminate].
        destruct (FS.put c0 (s' :: p) (File content)); [|discriminate].
        injection Hput as <-. eauto. }
    simpl in Hq, Hnodir.
    destruct p as [|s' p].
    + injection Hput as <-. simpl. rewrite lookupEntry_putEntry.
      destruct (s =? t) eqn:Est; [|eauto].
      apply String.eqb_eq in Est. subst t.
      destruct (FS.lookupEntry s es) as [[c0|es0]|]; [| |discriminate].
      * destruct q as [|u q]; simpl in Hq; [|discriminate].
        injection Hq as <-. exists (File content). auto.
      * exfalso. eapply Hnodir. reflexivity.
    + destruct (FS.lookupEntry s es) as [c0|] eqn:Hs; [|discriminate].
      destruct (FS.put c0 (s' :: p) (File content)) as [c'|] eqn:Hc; [|discriminate].
      injection Hput as <-. simpl. rewrite lookupEntry_putEntry.
      destruct (s =? t) eqn:Est; [|eauto].
      apply String.eqb_eq in Est. subst t. rewrite Hs in Hq.
      eapply IH; eassumption.
Qed.

#[export] Instance onlyAdds_preorder : PreOrder onlyAdds.
Proof.
  split.
  - intros w. unfold onlyAdds. repeat split; eauto.
  - intros w1 w2 w3 (Hs & Ho & Hf) (Hs' & Ho' & Hf').
    unfold onlyAdds. repeat split; try congruence.
    intros q n Hq. destruct (Hf q n Hq) as (n' & Hq' & Hk).
    destruct (Hf' q n' Hq') as (n'' & Hq'' & Hk'). exists n''. split; congruence.
Qed.

Lemma reads_onlyAdds (w w' : World) : reads w w' -> onlyAdds w w'.
Proof.
  intros [(Hf & _ & _ & Hs & _) Ho]. unfold onlyAdds. rewrite Hf.
  repeat split; eauto.
Qed.

Lemma mkdir_onlyAdds (p : string) : preserves onlyAdds (mkdir p).
Proof.
  intros w. unfold mkdir. rewrite run_bind, (tick_run w), run_bind.
  pose proof (reads_onlyAdds _ _ (tick_reads w)) as Htick.
  set (w1 := snd (tick w)) in *. unfold get at 1.
  destruct (FS.mkdirp (fs w1) (Path.resolve p)) as [root|] eqn:Hmk; [|exact Htick].
  simpl. etransitivity; [exact Htick|].
  unfold onlyAdds. simpl. repeat split; try reflexivity.
  intros q n Hq. eapply mkdirp_keeps_kind; eassumption.
Qed.

Lemma copyFile_onlyAdds (src dst : string) : preserves onlyAdds (copyFile src dst).
Proof.
  intros w. unfold copyFile. rewrite run_bind, (tick_run w), run_bind.
  pose proof (reads_onlyAdds _ _ (tick_reads w)) as Htick.
  set (w1 := snd (tick w)) in *. unfold get at 1.
  destruct (FS.lookup (fs w1) (Path.resolve src)) as [[c|es]|]; try exact Htick.
  destruct (FS.lookup (fs w1) (Path.resolve dst)) as [[c'|es']|] eqn:Hdst;
    try exact Htick;
    (destruct (Path.resolve dst) as [|s r] eqn:Hres; [exact Htick|];
     destruct (FS.put (fs w1) (s :: r) (File c)) as [root|] eqn:Hput;
       [|exact Htick];
     simpl; etransitivity; [exact Htick|];
     unfold onlyAdds; simpl; repeat split; try reflexivity;
     intros q n Hq; eapply put_keeps_kind; [exact Hput| |exact Hq];
     intros entries; rewrite Hdst; discriminate).
Qed.

Lemma mapSet_onlyAdds (l : nat) (k : string) : preserves onlyAdds (mapSet l k).
Proof. intros w. unfold onlyAdds. simpl. repeat split; eauto. Qed.

#[export] Hint Resolve mkdir_onlyAdds copyFile_onlyAdds mapSet_onlyAdds : frames.

(** ** mergeFolderRecursive and copyFolderRecursive *)

#[export] Instance copying_preorder (P : CopyEvent -> Prop) : PreOrder (copying P).
Proof.
  split.
  - intros w. exists []. rewrite app_nil_r. auto.
  - intros w1 w2 w3 (new & Hnew & Pnew) (new' & Hnew' & Pnew').
    exists (new ++ new'). rewrite Hnew', Hnew, app_assoc. split; [reflexivity|].
    apply Forall_app. auto.
Qed.

Lemma sameLog_copying (P : CopyEvent -> Prop) (w w' : World) :
  copyLog w' = copyLog w -> copying P w w'.
Proof. intros Hlog. exists []. rewrite app_nil_r. auto. Qed.

Lemma sameLog_to {A} (P : CopyEvent -> Prop) (m : M A) :
  preserves sameBooks m -> preserves (copying P) m.
Proof. apply preserves_weaken. intros w w' [_ Hlog]. now apply sameLog_copying. Qed.

Lemma reads_sameBooks (w w' : World) : reads w w' -> sameBooks w w'.
Proof. intros [Hq _]. now apply quiet_sameBooks. Qed.

Lemma mapSet_copying (P : CopyEvent -> Prop) (l : nat) (k : string) :
  preserves (copying P) (mapSet l k).
Proof. intros w. now apply sameLog_copying. Qed.

Lemma copying_weaken {A} (P P' : CopyEvent -> Prop) (m : M A) :
  (forall e, P e -> P' e) -> preserves (copying P) m -> preserves (copying P') m.
Proof.
  intros HP. apply preserves_weaken. intros w w' (new & Hnew & Pnew).
  exists new. split; [assumption|]. eapply Forall_impl; eassumption.
Qed.

Lemma copyFile_copying (P : CopyEvent -> Prop) (src dst : string) :
  (forall content, P (mkCopyEvent src dst content)) ->
  preserves (copying P) (copyFile src dst).
Proof.
  intros HP w. pose proof (copyFile_spec src dst w) as Hspec.
  destruct (copyFile src dst w) as [[[]|e] w']; destruct Hspec as [_ Hlog]; simpl.
  - destruct Hlog as (content & _ & Hlog). exists [mkCopyEvent src dst content].
    split; [assumption|]. constructor; [apply HP|constructor].
  - now apply sameLog_copying.
Qed.

Lemma mirrors_trans (a b s d s' d' : string) :
  mirrors a b s d -> mirrors s d s' d' -> mirrors a b s' d'.
Proof.
  intros Hsd Hs'd'. induction Hs'd' as [|s' d' name _ IH]; [assumption|].
  now constructor.
Qed.

Lemma noThrow_ensures_any {A} (P : World -> Prop) (m : M A)
    (E : string -> World -> Prop) :
  noThrow m -> ensures P m (fun _ _ => True) E.
Proof. intros Hm w _. destruct (Hm w) as (a & w' & ->). exact I. Qed.

Lemma copyFolderRecursive_onlyAdds (depth : nat) :
  forall (sourcePath destPath : string),
    preserves onlyAdds (copyFolderRecursive depth sourcePath destPath).
Proof.
  pose proof (fun A m => @reads_to A onlyAdds m reads_onlyAdds) as Hq.
  induction depth as [|depth IH]; intros; simpl; frame.
Qed.

Lemma copyFolderRecursive_mirrors (depth : nat) :
  forall (sourcePath destPath : string),
    preserves (copying (fun e => exists s d name,
                          mirrors sourcePath destPath s d
                          /\ c_src e = Path.join [s; name]
                          /\ c_dst e = Path.join [d; name]))
              (copyFolderRecursive depth sourcePath destPath).
Proof.
  induction depth as [|depth IH]; intros sourcePath destPath;
    set (P := fun e : CopyEvent => _);
    pose proof (fun A m => @reads_to A (copying P) m
                  (fun w w' Hr => sameLog_copying P w w'
                                    (proj2 (reads_sameBooks w w' Hr)))) as Hq;
    simpl; [frame|].
  assert (Hmk : forall p, preserves (copying P) (mkdir p))
    by (intros; apply sameLog_to, mkdir_sameBooks).
  assert (Hcopy : forall name,
            preserves (copying P) (copyFile (Path.join [sourcePath; name])
                                            (Path.join [destPath; name]))).
  { intros name. apply copyFile_copying. intros content.
    exists sourcePath, destPath, name. split; [constructor|]. auto. }
  assert (Hrec : forall name,
            preserves (copying P)
              (copyFolderRecursive depth (Path.join [sourcePath; name])
                                   (Path.join [destPath; name]))).
  { intros name. eapply copying_weaken; [|apply IH].
    intros e (s & d & name' & Hm & Hs & Hd). exists s, d, name'.
    split; [|auto]. eapply mirrors_trans; [|exact Hm]. repeat constructor. }
  frame.
Qed.

(** copyFolderRecursive: it removes nothing and changes the kind of no
    entry, sends nothing and leaves the state alone but for the flag; every
    copy it makes goes from a path below the source folder to the path of
    the same names below the destination folder. *)
Theorem copyFolderRecursive_mirrors_source (depth : nat)
    (sourcePath destPath : string) (w : World) :
  let w' := snd (copyFolderRecursive depth sourcePath destPath w) in
  onlyAdds w w'
  /\ exists new,
       copyLog w' = copyLog w ++ new
       /\ forall e, e ∈ new ->
            exists s d name,
              mirrors sourcePath destPath s d
              /\ c_src e = Path.join [s; name]
              /\ c_dst e = Path.join [d; name].
Proof.
  split; [apply copyFolderRecursive_onlyAdds|].
  destruct (copyFolderRecursive_mirrors depth sourcePath destPath w)
    as (new & Hnew & Pnew).
  exists new. split; [exact Hnew|]. intros e He.
  rewrite Forall_forall in Pnew. apply Pnew, He.
Qed.

Section Merging.

Context `{Platform}.

Lemma mergeFolderRecursive_onlyAdds (depth : nat) :
  forall (sourcePath destPath : string) (fileHashMap : nat),
    preserves onlyAdds (mergeFolderRecursive depth sourcePath destPath fileHashMap).
Proof.
  pose proof (fun A m => @reads_to A onlyAdds m reads_onlyAdds) as Hq.
  induction depth as [|depth IH]; intros; simpl; frame.
Qed.

Lemma mergeFolderRecursive_mirrors (depth : nat) :
  forall (sourcePath destPath : string) (fileHashMap : nat),
    preserves (copying (fun e => exists s d name,
                          mirrors sourcePath destPath s d
                          /\ c_src e = Path.join [s; name]
                          /\ c_dst e = Path.join [d; name]))
              (mergeFolderRecursive depth sourcePath destPath fileHashMap).
Proof.
  induction depth as [|depth IH]; intros sourcePath destPath fileHashMap;
    set (P := fun e : CopyEvent => _);
    pose proof (fun A m => @reads_to A (copying P) m
                  (fun w w' Hr => sameLog_copying P w w'
                                    (proj2 (reads_sameBooks w w' Hr)))) as Hq;
    simpl; [frame|].
  assert (Hmk : forall p, preserves (copying P) (mkdir p))
    by (intros; apply sameLog_to, mkdir_sameBooks).
  pose proof (mapSet_copying P) as Hset.
  assert (Hcopy : forall name,
            preserves (copying P) (copyFile (Path.join [sourcePath; name])
                                            (Path.join [destPath; name]))).
  { intros name. apply copyFile_copying. intros content.
    exists sourcePath, destPath, name. split; [constructor|]. auto. }
  assert (Hrec : forall name,
            preserves (copying P)
              (mergeFolderRecursive depth (Path.join [sourcePath; name])
                                    (Path.join [destPath; name]) fileHashMap)).
  { intros name. eapply copying_weaken; [|apply IH].
    intros e (s & d & name' & Hm & Hs & Hd). exists s, d, name'.
    split; [|auto]. eapply mirrors_trans; [|exact Hm]. repeat constructor. }
  frame.
Qed.

(** mergeFolderRecursive: it removes nothing and changes the kind of no
    entry, sends nothing and leaves the state alone but for the flag. *)
Theorem mergeFolderRecursive_only_adds (depth : nat) (sourcePath destPath : string)
    (fileHashMap : nat) (w : World) :
  let w' := snd (mergeFolderRecursive depth sourcePath destPath fileHashMap w) in
  setPaused false (state w') = setPaused false (state w)
  /\ outbox w' = outbox w
  /\ forall q n, FS.lookup (fs w) q = Some n ->
       exists n', FS.lookup (fs w') q = Some n' /\ FS.isDir n' = FS.isDir n.
Proof. apply mergeFolderRecursive_onlyAdds. Qed.

(** mergeFolderRecursive: every copy it makes goes from a path below the
    source folder to the path of the same names below the destination
    folder. *)
Theorem mergeFolderRecursive_copies_mirror (depth : nat)
    (sourcePath destPath : string) (fileHashMap : nat) (w : World) :
  let w' := snd (mergeFolderRecursive depth sourcePath destPath fileHashMap w) in
  exists new,
    copyLog w' = copyLog w ++ new
    /\ forall e, e ∈ new ->
         exists s d name,
           mirrors sourcePath destPath s d
           /\ c_src e = Path.join [s; name]
           /\ c_dst e = Path.join [d; name].
Proof.
  destruct (mergeFolderRecursive_mirrors depth sourcePath destPath fileHashMap w)
    as (new & Hnew & Pnew).
  exists new. split; [exact Hnew|]. intros e He.
  rewrite Forall_forall in Pnew. apply Pnew, He.
Qed.

Lemma mergeFolderRecursive_failure (depth : nat) (sourcePath destPath : string)
    (fileHashMap : nat) (w0 : World) :
  ensures (sameBooks w0) (mergeFolderRecursive depth sourcePath destPath fileHashMap)
          (fun _ _ => True) (fun _ => sameBooks w0).
Proof.
  pose proof (fun A (m : M A) (Hm : preserves quiet m) =>
                preserves_weaken quiet sameBooks m quiet_sameBooks Hm) as Hq.
  destruct depth as [|depth]; simpl.
  - eapply ensures_bind; [apply (preserves_ensures sameBooks); frame|intros u].
    apply ensures_throw. auto.
  - eapply ensures_bind;
      [apply (preserves_ensures sameBooks), mkdir_sameBooks|intros u].
    eapply ensures_bind; [apply (preserves_ensures sameBooks); frame|intros entries].
    apply noThrow_ensures_any. total.
Qed.

(** mergeFolderRecursive: when it fails, it has copied nothing and has put
    nothing in the map of keys: only making the destination folder and
    listing the source folder can make it fail, and both come first. *)
Theorem mergeFolderRecursive_failure_copies_nothing (depth : nat)
    (sourcePath destPath : string) (fileHashMap : nat) (w w' : World) (err : string) :
  mergeFolderRecursive depth sourcePath destPath fileHashMap w = (Throw err, w') ->
  copyLog w' = copyLog w /\ maps w' = maps w.
Proof.
  intros E.
  pose proof (mergeFolderRecursive_failure depth sourcePath destPath fileHashMap w w
                (reflexivity w)) as Hf.
  rewrite E in Hf. destruct Hf. auto.
Qed.

Lemma forOf_paused {A} (l : list A) (k : A -> M LoopCtl) (w : World) :
  paused (state w) = true ->
  forOf l (fun x => let* p := isPaused in if p then ret Break else k x) w
  = (Ok tt, w).
Proof.
  intros Hp. destruct l as [|x l]; [reflexivity|].
  simpl. rewrite run_bind, run_bind. unfold isPaused at 1. rewrite Hp. reflexivity.
Qed.


End Merging.

(** ** What the handlers send *)

#[export] Instance keepsState_preorder : PreOrder keepsState.
Proof.
  split.
  - intros w. reflexivity.
  - intros w1 w2 w3 H12 H23. unfold keepsState in *. congruence.
Qed.

#[export] Instance onlyProgress_preorder : PreOrder onlyProgress.
Proof.
  split.
  - intros w. exists []. rewrite app_nil_r. auto.
  - intros w1 w2 w3 (m & Hm & Pm) (m' & Hm' & Pm').
    exists (m ++ m'). rewrite Hm', Hm, app_assoc. split; [reflexivity|].
    apply Forall_app. auto.
Qed.

Lemma reads_keepsState (w w' : World) : reads w w' -> keepsState w w'.
Proof. now intros [(_ & _ & _ & Hs & _) _]. Qed.

Lemma onlyAdds_keepsState (w w' : World) : onlyAdds w w' -> keepsState w w'.
Proof. now intros (Hs & _). Qed.

Lemma sameOutbox_onlyProgress (w w' : World) :
  outbox w' = outbox w -> onlyProgress w w'.
Proof. intros Ho. exists []. rewrite app_nil_r. auto. Qed.

Lemma reads_onlyProgress (w w' : World) : reads w w' -> onlyProgress w w'.
Proof. intros [_ Ho]. now apply sameOutbox_onlyProgress. Qed.

Lemma onlyAdds_onlyProgress (w w' : World) : onlyAdds w w' -> onlyProgress w w'.
Proof. intros (_ & Ho & _). now apply sameOutbox_onlyProgress. Qed.

Lemma scanning_onlyProgress (allowedExtensions : list string) (w w' : World) :
  scanning allowedExtensions w w' -> onlyProgress w w'.
Proof. intros (_ & _ & _ & Ho & _). now apply sameOutbox_onlyProgress. Qed.

Lemma modify_onlyProgress (f : World -> World) :
  (forall w, outbox (f w) = outbox w) -> preserves onlyProgress (modify f).
Proof. intros Hf w. apply sameOutbox_onlyProgress, Hf. Qed.

Lemma newMap_onlyProgress : preserves onlyProgress newMap.
Proof. intros w. now apply sameOutbox_onlyProgress. Qed.

Lemma newMap_keepsState : preserves keepsState newMap.
Proof. intros w. reflexivity. Qed.

Lemma sendProgress_onlyProgress (currentFile : string) :
  preserves onlyProgress (sendProgress currentFile).
Proof.
  intros w. exists [ProgressUpdate currentFile (stats (state w))].
  split; [reflexivity|]. constructor; [|constructor]. eexists _, _. reflexivity.
Qed.

#[export] Hint Resolve newMap_onlyProgress newMap_keepsState
  sendProgress_onlyProgress : frames.

Ltac outbox_step :=
  match goal with
  | |- preserves onlyProgress (modify _) =>
      apply modify_onlyProgress; intros; reflexivity
  | |- preserves _ (mapSet _ _) => unfold mapSet
  | |- preserves _ (send _) => unfold send
  | |- preserves _ (rm _) => unfold rm
  | |- preserves _ (sendProgress _) => unfold sendProgress
  end.

Ltac frame_outbox := repeat first [frame_step | outbox_step].

Lemma mkdir_onlyProgress (p : string) : preserves onlyProgress (mkdir p).
Proof. eapply preserves_weaken; [apply onlyAdds_onlyProgress|apply mkdir_onlyAdds]. Qed.

Lemma copyFile_onlyProgress (src dst : string) :
  preserves onlyProgress (copyFile src dst).
Proof.
  eapply preserves_weaken; [apply onlyAdds_onlyProgress|apply copyFile_onlyAdds].
Qed.

Lemma mkdir_keepsState (p : string) : preserves keepsState (mkdir p).
Proof. eapply preserves_weaken; [apply onlyAdds_keepsState|apply mkdir_onlyAdds]. Qed.

Lemma copyFile_keepsState (src dst : string) : preserves keepsState (copyFile src dst).
Proof.
  eapply preserves_weaken; [apply onlyAdds_keepsState|apply copyFile_onlyAdds].
Qed.

#[export] Hint Resolve mkdir_onlyProgress copyFile_onlyProgress mkdir_keepsState
  copyFile_keepsState : frames.

Section Outbox.

Context `{Platform}.

Lemma mergeFolderRecursive_onlyProgress (depth : nat) (sourcePath destPath : string)
    (fileHashMap : nat) :
  preserves onlyProgress (mergeFolderRecursive depth sourcePath destPath fileHashMap).
Proof.
  eapply preserves_weaken;
    [apply onlyAdds_onlyProgress|apply mergeFolderRecursive_onlyAdds].
Qed.

Lemma mergeFolderRecursive_keepsState (depth : nat) (sourcePath destPath : string)
    (fileHashMap : nat) :
  preserves keepsState (mergeFolderRecursive depth sourcePath destPath fileHashMap).
Proof.
  eapply preserves_weaken;
    [apply onlyAdds_keepsState|apply mergeFolderRecursive_onlyAdds].
Qed.

Lemma scanDirectory_onlyProgress (depth : nat) (dirPath : string)
    (allowedExtensions : list string) (relativePath sourceRoot : string) :
  preserves onlyProgress
    (scanDirectory depth dirPath allowedExtensions relativePath sourceRoot).
Proof.
  eapply preserves_weaken;
    [apply scanning_onlyProgress|apply scanDirectory_scanning].
Qed.

Lemma reads_to_onlyProgress {A} (m : M A) :
  preserves reads m -> preserves onlyProgress m.
Proof. apply preserves_weaken, reads_onlyProgress. Qed.

Lemma reads_to_keepsState {A} (m : M A) :
  preserves reads m -> preserves keepsState m.
Proof. apply preserves_weaken, reads_keepsState. Qed.

Lemma scanSources_onlyProgress (depth : nat)
    (sourceFolders allowedExtensions : list string) :
  preserves onlyProgress (scanSources depth sourceFolders allowedExtensions).
Proof.
  pose proof (@reads_to_onlyProgress) as Hq.
  pose proof (scanDirectory_onlyProgress depth).
  unfold scanSources. frame_outbox.
Qed.

Lemma scanDestinationRecursive_onlyProgress (depth : nat) :
  forall (destinationMap : nat) (dirPath : string),
    preserves onlyProgress (scanDestinationRecursive depth destinationMap dirPath).
Proof.
  pose proof (@reads_to_onlyProgress) as Hq.
  induction depth as [|depth IH]; intros; simpl; frame_outbox.
Qed.

Lemma seedFileHashMap_onlyProgress (fileHashMap : nat) (folder : string) :
  preserves onlyProgress (seedFileHashMap fileHashMap folder).
Proof.
  pose proof (@reads_to_onlyProgress) as Hq.
  unfold seedFileHashMap. frame_outbox.
Qed.

Lemma seedFileHashMap_keepsState (fileHashMap : nat) (folder : string) :
  preserves keepsState (seedFileHashMap fileHashMap folder).
Proof.
  pose proof (@reads_to_keepsState) as Hq.
  unfold seedFileHashMap. frame_outbox.
Qed.

Lemma signDestinationFolders_onlyProgress (depth : nat) (signatures : nat)
    (destinationFolder : string) (allowedExtensions : list string) :
  preserves onlyProgress
    (signDestinationFolders depth signatures destinationFolder allowedExtensions).
Proof.
  pose proof (@reads_to_onlyProgress) as Hq.
  pose proof (scanDestinationFolder_reads depth).
  unfold signDestinationFolders. frame_outbox.
Qed.

Lemma indexDestination_onlyProgress (depth : nat) (destinationFolder : string)
    (allowedExtensions : list string) :
  preserves onlyProgress (indexDestination depth destinationFolder allowedExtensions).
Proof.
  pose proof (@reads_to_onlyProgress) as Hq.
  pose proof (scanDestinationRecursive_onlyProgress depth).
  pose proof (signDestinationFolders_onlyProgress depth).
  unfold indexDestination. frame_outbox.
Qed.

Lemma reindexDestination_onlyProgress (depth : nat) (destinationFolder : string)
    (allowedExtensions : list string) :
  preserves onlyProgress (reindexDestination depth destinationFolder allowedExtensions).
Proof.
  pose proof (@reads_to_onlyProgress) as Hq.
  pose proof seedFileHashMap_onlyProgress.
  pose proof (signDestinationFolders_onlyProgress depth).
  unfold reindexDestination. frame_outbox.
Qed.

Lemma groupLeafFolders_reads (allowedExtensions : list string) :
  preserves reads (groupLeafFolders allowedExtensions).
Proof. unfold groupLeafFolders. frame. Qed.

Lemma mergeMember_onlyProgress (depth : nat) (destinationFolderSignatures : nat)
    (normalizedName destFolderPath : string) (fileHashMap : nat)
    (folderData : FolderData) :
  preserves onlyProgress
    (mergeMember depth destinationFolderSignatures normalizedName destFolderPath
                 fileHashMap folderData).
Proof.
  pose proof (@reads_to_onlyProgress) as Hq.
  pose proof (mergeFolderRecursive_onlyProgress depth).
  unfold mergeMember. frame_outbox.
Qed.

Lemma mergeGroup_onlyProgress (depth : nat) (destinationFolderSignatures : nat)
    (destinationFolder : string) (group : string * list FolderData) :
  preserves onlyProgress
    (mergeGroup depth destinationFolderSignatures destinationFolder group).
Proof.
  pose proof (@reads_to_onlyProgress) as Hq.
  pose proof seedFileHashMap_onlyProgress.
  pose proof (mergeMember_onlyProgress depth).
  unfold mergeGroup. destruct group. frame_outbox.
Qed.

Lemma folderMergePass_onlyProgress (depth : nat) (destinationFolderSignatures : nat)
    (destinationFolder : string) (groups : list (string * list FolderData)) :
  preserves onlyProgress
    (folderMergePass depth destinationFolderSignatures destinationFolder groups).
Proof.
  pose proof (mergeGroup_onlyProgress depth).
  unfold folderMergePass. frame_outbox.
Qed.

Lemma uniquePathLoop_onlyProgress (fuel : nat) :
  forall (fileName uniquePath : string) (counter : nat),
    preserves onlyProgress (uniquePathLoop fuel fileName uniquePath counter).
Proof.
  pose proof (@reads_to_onlyProgress) as Hq.
  induction fuel as [|fuel IH]; intros; simpl; frame_outbox.
Qed.

Lemma processFile_onlyProgress (destFolderOf : string -> string -> string)
    (destinationFolder : string) (destinationMap : nat)
    (processedFiles : gset string) (i : nat) (file : FileInfo) :
  preserves onlyProgress
    (processFile destFolderOf destinationFolder destinationMap processedFiles i file).
Proof.
  pose proof (@reads_to_onlyProgress) as Hq.
  pose proof uniquePathLoop_onlyProgress.
  unfold processFile. frame_outbox.
Qed.

Lemma fileLoop_onlyProgress (destFolderOf : string -> string -> string)
    (destinationFolder : string) (destinationMap : nat)
    (processedFiles : gset string) (files : list FileInfo) :
  forall i, preserves onlyProgress
              (fileLoop destFolderOf destinationFolder destinationMap processedFiles
                        files i).
Proof.
  pose proof (@reads_to_onlyProgress) as Hq.
  pose proof (processFile_onlyProgress destFolderOf destinationFolder destinationMap
                processedFiles).
  induction files as [|file rest IH]; intros i; simpl; frame_outbox.
Qed.

End Outbox.

(** ** How the handlers end *)

Lemma run_total {A} (R : World -> World -> Prop) (m : M A) (w : World) :
  noThrow m -> preserves R m -> exists a w', m w = (Ok a, w') /\ R w w'.
Proof.
  intros Hm HR. destruct (Hm w) as (a & w' & E). specialize (HR w).
  rewrite E in HR. eauto.
Qed.

Section Endings.

Context `{Platform}.

Lemma start_process_ends (depth : nat) (sourceFolders : list string)
    (destinationFolder : string) (extensions : list string) (w : World) :
  exists w' msgs,
    start_process depth sourceFolders destinationFolder extensions w = (Ok tt, w')
    /\ Forall isProgress msgs
    /\ outbox w'
       = outbox w ++ msgs ++
         (if paused (state w') then []
          else [ProcessComplete (stats (state w')) (folderReport (state w')) None]).
Proof.
  unfold start_process. rewrite run_catch, run_bind.
  unfold modifyState at 1, modify at 1. cbv zeta.
  set (w0 := withState (fun _ => initialState) w).
  rewrite run_bind.
  destruct (run_total onlyProgress _ w0
              (scanSources_noThrow depth sourceFolders (map Path.toLowerCase extensions))
              (scanSources_onlyProgress depth sourceFolders (map Path.toLowerCase extensions)))
    as ([] & w1 & -> & H1).
  rewrite run_bind.
  destruct (run_total onlyProgress _ w1
              (indexDestination_noThrow depth destinationFolder (map Path.toLowerCase extensions))
              (indexDestination_onlyProgress depth destinationFolder (map Path.toLowerCase extensions)))
    as ([destinationMap signatures] & w2 & -> & H2).
  rewrite run_bind.
  destruct (run_total onlyProgress _ w2
              (groupLeafFolders_noThrow (map Path.toLowerCase extensions))
              (reads_to_onlyProgress _ (groupLeafFolders_reads (map Path.toLowerCase extensions))))
    as (groups & w3 & -> & H3).
  rewrite run_bind.
  destruct (run_total onlyProgress _ w3
              (folderMergePass_noThrow depth signatures destinationFolder groups)
              (folderMergePass_onlyProgress depth signatures destinationFolder groups))
    as ([] & w4 & -> & H4).
  rewrite run_bind. unfold getState at 1. rewrite run_bind.
  destruct (run_total onlyProgress _ w4
              (fileLoop_noThrow destFolderPath_start destinationFolder destinationMap
                 (processedFilesOf (copiedFolders (state w4)) (fileList (state w4)))
                 (fileList (state w4)) 0)
              (fileLoop_onlyProgress destFolderPath_start destinationFolder
                 destinationMap
                 (processedFilesOf (copiedFolders (state w4)) (fileList (state w4)))
                 (fileList (state w4)) 0))
    as ([] & w5 & -> & H5).
  assert (Hall : onlyProgress w0 w5) by (repeat (etransitivity; [eassumption|]); reflexivity).
  destruct Hall as (msgs & Hout & Hmsgs). change (outbox w0) with (outbox w) in Hout.
  rewrite run_bind. unfold isPaused at 1.
  destruct (paused (state w5)) eqn:Hp; simpl.
  - exists w5, msgs. rewrite Hp, app_nil_r. auto.
  - eexists _, msgs. split; [reflexivity|]. simpl. rewrite Hp, Hout, app_assoc. auto.
Qed.

(** start-process: no failure of the file system ends the run with an
    error.  It always returns; the messages it sends are progress updates
    and, when and only when the run ends with the flag down, one final
    completion message with the counters and the report as they are then,
    and no error. *)
Theorem start_process_ends_paused_or_complete (depth : nat)
    (sourceFolders : list string) (destinationFolder : string)
    (extensions : list string) (w : World) :
  exists w' msgs,
    start_process depth sourceFolders destinationFolder extensions w = (Ok tt, w')
    /\ Forall isProgress msgs
    /\ outbox w'
       = outbox w ++ msgs ++
         (if paused (state w') then []
          else [ProcessComplete (stats (state w')) (folderReport (state w')) None]).
Proof. apply start_process_ends. Qed.

(** resume-process: it always returns, although no try block surrounds its
    body; the messages it sends are progress updates and, when and only when
    it ends with the flag down, one final completion message with the
    counters and the report as they are then. *)
Theorem resume_process_ends_paused_or_complete (depth : nat)
    (sourceFolders : list string) (destinationFolder : string)
    (extensions : list string) (w : World) :
  exists w' msgs,
    resume_process depth sourceFolders destinationFolder extensions w = (Ok tt, w')
    /\ Forall isProgress msgs
    /\ outbox w'
       = outbox w ++ msgs ++
         (if paused (state w') then []
          else [ProcessComplete (stats (state w')) (folderReport (state w')) None]).
Proof.
  unfold resume_process. rewrite run_bind.
  unfold modifyState at 1, modify at 1. cbv zeta.
  set (w0 := withState (setPaused false) w).
  rewrite run_bind.
  destruct (run_total onlyProgress _ w0
              (reindexDestination_noThrow depth destinationFolder (map Path.toLowerCase extensions))
              (reindexDestination_onlyProgress depth destinationFolder (map Path.toLowerCase extensions)))
    as ([destinationMap signatures] & w1 & -> & H1).
  rewrite run_bind. unfold getState at 1. rewrite run_bind.
  destruct (run_total onlyProgress _ w1
              (fileLoop_noThrow destFolderPath_resume destinationFolder destinationMap
                 (processedFilesOf (copiedFolders (state w1)) (fileList (state w1)))
                 (drop (currentIndex (state w1)) (fileList (state w1)))
                 (currentIndex (state w1)))
              (fileLoop_onlyProgress destFolderPath_resume destinationFolder
                 destinationMap
                 (processedFilesOf (copiedFolders (state w1)) (fileList (state w1)))
                 (drop (currentIndex (state w1)) (fileList (state w1)))
                 (currentIndex (state w1))))
    as ([] & w2 & -> & H2).
  assert (Hall : onlyProgress w0 w2) by (etransitivity; eassumption).
  destruct Hall as (msgs & Hout & Hmsgs). change (outbox w0) with (outbox w) in Hout.
  rewrite run_bind. unfold isPaused at 1.
  destruct (paused (state w2)) eqn:Hp; simpl.
  - exists w2, msgs. rewrite Hp, app_nil_r. auto.
  - eexists _, msgs. split; [reflexivity|]. simpl. rewrite Hp, Hout, app_assoc. auto.
Qed.

End Endings.

Section ConfirmMerge.

Context `{Platform}.

(** The loop of confirm-merge over the groups, as a function of the
    groups. *)
Lemma confirm_merge_unfold (depth : nat) (destinationFolder : string)
    (foldersToMerge : list MergeGroup) (w : World) :
  exists loop : M unit,
    preserves keepsState loop
    /\ preserves onlyProgress loop
    /\ (Forall (fun g => mg_folders g <> []) foldersToMerge -> noThrow loop)
    /\ confirm_merge depth destinationFolder foldersToMerge w
       = match loop (withState (setPaused false) w) with
         | (Ok _, w1) =>
             (Ok tt, setOutbox (outbox w1 ++ [MergeComplete (stats (state w1)) None None])
                               w1)
         | (Throw err, w1) =>
             (Ok tt, setOutbox (outbox w1 ++ [MergeComplete (stats (state w1)) None
                                                            (Some err)]) w1)
         end.
Proof.
  unfold confirm_merge.
  match goal with
  | |- context [bind (forOf foldersToMerge ?body) _] =>
      exists (forOf foldersToMerge body)
  end.
  split; [|split; [|split]].
  - pose proof (@reads_to_keepsState) as Hq.
    pose proof seedFileHashMap_keepsState.
    pose proof (mergeFolderRecursive_keepsState depth).
    frame_outbox.
  - pose proof (@reads_to_onlyProgress) as Hq.
    pose proof seedFileHashMap_onlyProgress.
    pose proof (mergeFolderRecursive_onlyProgress depth).
    frame_outbox.
  - intros Hne. apply noThrow_ensures.
    apply ensures_forOf with (J := fun _ => True). intros g Hg.
    apply noThrow_ensures. rewrite Forall_forall in Hne. specialize (Hne g Hg).
    apply noThrow_bind; [apply noThrow_isPaused|]. intros p.
    destruct p; [apply noThrow_ret|]. cbv zeta.
    destruct (mg_folders g) as [|firstFolder rest]; [contradiction|]. total.
  - rewrite run_catch, run_bind. unfold modifyState at 1, modify at 1.
    rewrite run_bind.
    destruct (forOf foldersToMerge _ (withState (setPaused false) w))
      as [[[]|err] w1]; reflexivity.
Qed.

(** confirm-merge: it always returns, and its last message is the completion
    message, whether or not the run was paused on the way; the messages
    before it are progress updates.  The counters and the rest of the state
    are as they were, but for the flag, and the message carries an error
    only if a group came without folders. *)
Theorem confirm_merge_always_reports (depth : nat) (destinationFolder : string)
    (foldersToMerge : list MergeGroup) (w : World) :
  exists w' msgs error,
    confirm_merge depth destinationFolder foldersToMerge w = (Ok tt, w')
    /\ setPaused false (state w') = setPaused false (state w)
    /\ Forall isProgress msgs
    /\ outbox w' = outbox w ++ msgs ++ [MergeComplete (stats (state w)) None error]
    /\ (Forall (fun g => mg_folders g <> []) foldersToMerge -> error = None).
Proof.
  destruct (confirm_merge_unfold depth destinationFolder foldersToMerge w)
    as (loop & Hstate & Hprogress & Htotal & ->).
  set (w0 := withState (setPaused false) w).
  specialize (Hstate w0). specialize (Hprogress w0).
  assert (H0 : keepsState w w0) by reflexivity.
  destruct (loop w0) as [[[]|err] w1] eqn:Eloop; simpl in Hstate, Hprogress;
    destruct Hprogress as (msgs & Hout & Hmsgs);
    change (outbox w0) with (outbox w) in Hout;
    assert (Hs : keepsState w w1) by (etransitivity; eassumption);
    pose proof (core_stats _ _ Hs) as Hstats.
  - exists (setOutbox (outbox w1 ++ [MergeComplete (stats (state w1)) None None]) w1),
           msgs, None.
    split; [reflexivity|]. split; [exact Hs|]. split; [exact Hmsgs|].
    simpl. rewrite Hout, Hstats, app_assoc. auto.
  - exists (setOutbox (outbox w1 ++ [MergeComplete (stats (state w1)) None (Some err)])
                      w1), msgs, (Some err).
    split; [reflexivity|]. split; [exact Hs|]. split; [exact Hmsgs|].
    simpl. rewrite Hout, Hstats, app_assoc. split; [reflexivity|].
    intros Hne. destruct (Htotal Hne w0) as (a & w2 & E). congruence.
Qed.

End ConfirmMerge.

(** ** The per-file pass: content seen before, and content that is new *)

Ltac enter_processFile Hnot :=
  unfold processFile; rewrite (bool_decide_eq_false_2 _ Hnot);
  rewrite run_bind; unfold modifyStats at 1, modifyState at 1, modify at 1;
  rewrite run_bind; unfold sendProgress at 1; rewrite run_bind;
  unfold getState at 1; unfold send at 1, modify at 1;
  rewrite run_catch, run_bind.

Section FilePassContent.

Context `{Platform}.

(** processFile, lines 545-550: a file whose ContentKey, made of the size
    recorded by the scan and the digest of its bytes, is in the
    deduplication map or in the index of the destination is counted as
    scanned and as a duplicate, and nothing is written. *)
Theorem processFile_known_content_is_duplicate
    (destFolderOf : string -> string -> string) (destinationFolder : string)
    (destinationMap : nat) (processedFiles : gset string) (i : nat)
    (file : FileInfo) (w : World) (content : string) :
  f_path file ∉ processedFiles ->
  FS.lookup (fs w) (Path.resolve (f_path file)) = Some (File content) ->
  paused (state w) = false -> pauseIn w = None ->
  (keyOf (f_size file) (digestOf content) ∈ deduplicationMap (state w)
   \/ keyOf (f_size file) (digestOf content) ∈ mapAt w destinationMap) ->
  exists w',
    processFile destFolderOf destinationFolder destinationMap processedFiles i file w
    = (Ok Next, w')
    /\ fs w' = fs w /\ copyLog w' = copyLog w /\ maps w' = maps w
    /\ stats (state w') = addDuplicates 1 (incScanned (stats (state w)))
    /\ deduplicationMap (state w') = deduplicationMap (state w)
    /\ paused (state w') = false.
Proof.
  intros Hnot Hlook Hp Hc Hknown. enter_processFile Hnot.
  match goal with
  | |- context [hashFile ?p ?w2] =>
      destruct (hashFile_unpaused p w2 content Hlook Hp Hc)
        as (w3 & Ehash & (Hfs3 & Hm3 & Hl3 & Hs3 & _) & Hp3 & Hc3)
  end.
  rewrite Ehash. simpl in Hfs3, Hm3, Hl3, Hs3.
  rewrite run_bind. unfold isPaused at 1. rewrite Hp3.
  rewrite run_bind. unfold getState at 1. rewrite run_bind. unfold mapHas at 1.
  assert (Hdedup : deduplicationMap (state w3) = deduplicationMap (state w)).
  { apply (f_equal deduplicationMap) in Hs3. exact Hs3. }
  assert (Hmap : mapAt w3 destinationMap = mapAt w destinationMap).
  { unfold mapAt. now rewrite Hm3. }
  rewrite Hdedup, Hmap.
  assert (Hcond : bool_decide (keyOf (f_size file) (digestOf content)
                               ∈ deduplicationMap (state w))
                  || bool_decide (keyOf (f_size file) (digestOf content)
                                  ∈ mapAt w destinationMap) = true).
  { apply orb_true_iff. destruct Hknown as [Hk|Hk]; [left|right];
      now apply bool_decide_eq_true_2. }
  rewrite Hcond. eexists. split; [reflexivity|]. simpl.
  repeat (split; [assumption|]).
  split; [|split; [exact Hdedup|exact Hp3]].
  rewrite (core_stats _ _ Hs3). reflexivity.
Qed.

Lemma mkdirp_keeps_file (p : list string) :
  forall (root root' : node) (q : list string) (content : string),
    FS.mkdirp root p = Some root' ->
    FS.lookup root q = Some (File content) ->
    FS.lookup root' q = Some (File content).
Proof.
  induction p as [|s p IH]; intros root root' q content Hmk Hq.
  - destruct root; simpl in Hmk; [discriminate|]. now injection Hmk as <-.
  - destruct root as [|es]; simpl in Hmk; [discriminate|].
    destruct q as [|t q]; [simpl in Hq; discriminate|]. simpl in Hq.
    destruct (FS.lookupEntry s es) as [c|] eqn:Hs.
    + destruct (FS.mkdirp c p) as [c'|] eqn:Hc; [|discriminate].
      injection Hmk as <-. simpl. rewrite lookupEntry_putEntry.
      destruct (s =? t) eqn:Est; [|exact Hq].
      apply String.eqb_eq in Est. subst t. rewrite Hs in Hq.
      eapply IH; eassumption.
    + destruct (FS.mkdirp (Dir []) p) as [c'|] eqn:Hc; [|discriminate].
      injection Hmk as <-. simpl. rewrite (lookupEntry_app_new _ _ _ _ Hs).
      destruct (s =? t) eqn:Est; [|exact Hq].
      apply String.eqb_eq in Est. subst t. rewrite Hs in Hq. discriminate.
Qed.

Lemma tick_none (w : World) : pauseIn w = None -> tick w = (Ok tt, w).
Proof. intros Hc. unfold tick. now rewrite Hc. Qed.

Lemma mkdir_run (p : string) (w : World) (root : node) :
  pauseIn w = None ->
  FS.mkdirp (fs w) (Path.resolve p) = Some root ->
  mkdir p w = (Ok tt, setFs root w).
Proof.
  intros Hc Hmk. unfold mkdir. rewrite run_bind, (tick_none w Hc), run_bind.
  unfold get at 1. rewrite Hmk. reflexivity.
Qed.

Lemma copyFile_run (src dst : string) (w : World) (content : string) (root : node) :
  pauseIn w = None ->
  FS.lookup (fs w) (Path.resolve src) = Some (File content) ->
  FS.lookup (fs w) (Path.resolve dst) = None ->
  FS.put (fs w) (Path.resolve dst) (File content) = Some root ->
  copyFile src dst w
  = (Ok tt, setCopyLog (copyLog w ++ [mkCopyEvent src dst content]) (setFs root w)).
Proof.
  intros Hc Hsrc Hdst Hput. unfold copyFile.
  rewrite run_bind, (tick_none w Hc), run_bind. unfold get at 1.
  rewrite Hsrc, Hdst.
  destruct (Path.resolve dst) as [|s r]; [simpl in Hdst; discriminate|].
  rewrite Hput. reflexivity.
Qed.

(** processFile, lines 552-600: a file that can be read, whose ContentKey is
    in neither map, and whose name is free in its destination folder, which
    can be made, is copied there under its own name.  It is counted as
    scanned and as copied, with its recorded size, and its key is in the
    deduplication map afterwards. *)
Theorem processFile_copies_new_content
    (destFolderOf : string -> string -> string) (destinationFolder : string)
    (destinationMap : nat) (processedFiles : gset string) (i : nat)
    (file : FileInfo) (w : World) (content : string) (root1 root2 : node) :
  let key := keyOf (f_size file) (digestOf content) in
  let destFolderPath := destFolderOf destinationFolder (f_folderRelativePath file) in
  let destPath := Path.join [destFolderPath; f_name file] in
  f_path file ∉ processedFiles ->
  FS.lookup (fs w) (Path.resolve (f_path file)) = Some (File content) ->
  paused (state w) = false -> pauseIn w = None ->
  key ∉ deduplicationMap (state w) ->
  key ∉ mapAt w destinationMap ->
  FS.mkdirp (fs w) (Path.resolve destFolderPath) = Some root1 ->
  FS.lookup root1 (Path.resolve destPath) = None ->
  FS.put root1 (Path.resolve destPath) (File content) = Some root2 ->
  exists w',
    processFile destFolderOf destinationFolder destinationMap processedFiles i file w
    = (Ok Next, w')
    /\ fs w' = root2
    /\ copyLog w' = copyLog w ++ [mkCopyEvent (f_path file) destPath content]
    /\ maps w' = maps w
    /\ stats (state w') = addCopied 1 (f_size file) (incScanned (stats (state w)))
    /\ deduplicationMap (state w') = {[key]} ∪ deduplicationMap (state w).
Proof.
  intros key destFolderPath destPath Hnot Hlook Hp Hc Hnew1 Hnew2 Hmk Hfree Hput.
  enter_processFile Hnot.
  match goal with
  | |- context [hashFile ?p ?w2] =>
      destruct (hashFile_unpaused p w2 content Hlook Hp Hc)
        as (w3 & Ehash & (Hfs3 & Hm3 & Hl3 & Hs3 & _) & Hp3 & Hc3)
  end.
  rewrite Ehash. simpl in Hfs3, Hm3, Hl3, Hs3.
  rewrite run_bind. unfold isPaused at 1. rewrite Hp3.
  rewrite run_bind. unfold getState at 1. rewrite run_bind. unfold mapHas at 1.
  assert (Hdedup : deduplicationMap (state w3) = deduplicationMap (state w)).
  { apply (f_equal deduplicationMap) in Hs3. exact Hs3. }
  assert (Hmap : mapAt w3 destinationMap = mapAt w destinationMap).
  { unfold mapAt. now rewrite Hm3. }
  rewrite Hdedup, Hmap. fold key.
  rewrite (bool_decide_eq_false_2 _ Hnew1), (bool_decide_eq_false_2 _ Hnew2).
  cbv beta iota delta [orb].
  rewrite run_bind. unfold modifyState at 1, modify at 1.
  set (w4 := withState _ w3).
  rewrite run_bind, run_catch. fold destFolderPath.
  rewrite (mkdir_run destFolderPath w4 root1) by (simpl; congruence).
  set (w5 := setFs root1 w4).
  rewrite run_bind, probe_spec. fold destPath.
  change (fs w5) with root1. rewrite Hfree. cbv beta iota delta [isSome].
  rewrite (tick_none w5) by exact Hc3. simpl snd.
  rewrite run_bind. unfold get at 1. rewrite run_bind.
  replace (FS.entryCount (fs w5) + 2) with (S (FS.entryCount (fs w5) + 1)) by lia.
  rewrite uniquePathLoop_free by exact Hfree.
  rewrite (tick_none w5) by exact Hc3. simpl snd.
  rewrite run_bind.
  rewrite (copyFile_run (f_path file) destPath w5 content root2);
    [|exact Hc3| |exact Hfree|exact Hput].
  2:{ change (fs w5) with root1. eapply mkdirp_keeps_file; eassumption. }
  eexists. split; [reflexivity|]. simpl.
  split; [reflexivity|]. split; [now rewrite Hl3|]. split; [exact Hm3|].
  split; [|now rewrite Hdedup].
  rewrite (core_stats _ _ Hs3). reflexivity.
Qed.

End FilePassContent.

(** ** A member of a merge group whose signature is new *)

Section MergeMemberOutcome.

Context `{Platform}.

(** start-process, lines 484-506: a member of a group whose signature is not
    one of the destination's is merged into the folder of the group.  When
    the merge returns, the member is absorbed and the counters grow by the
    file count and the total size of its signature, whatever number of files
    the merge copied; one progress message is sent and the report says
    Copied.  When the merge fails, nothing has been copied, the member is
    not absorbed, the counters stay, and the report carries the error.  The
    loop goes on in both cases. *)
Theorem mergeMember_merge_outcome (depth : nat) (destinationFolderSignatures : nat)
    (normalizedName destFolderPath : string) (fileHashMap : nat)
    (folderData : FolderData) (w : World) :
  let signature := fd_signature folderData in
  let sourcePath := d_path (fd_folderInfo folderData) in
  paused (state w) = false ->
  s_hash signature ∉ mapAt w destinationFolderSignatures ->
  let '(merged, w1) :=
    mergeFolderRecursive depth sourcePath destFolderPath fileHashMap w in
  let '(r, w') :=
    mergeMember depth destinationFolderSignatures normalizedName destFolderPath
                fileHashMap folderData w in
  r = Ok Next
  /\ fs w' = fs w1 /\ copyLog w' = copyLog w1 /\ maps w' = maps w1
  /\ match merged with
     | Ok _ =>
         copiedFolders (state w') = setAdd sourcePath (copiedFolders (state w))
         /\ stats (state w')
            = addCopied (s_fileCount signature) (s_totalSize signature) (stats (state w))
         /\ folderReport (state w')
            = folderReport (state w) ++ [mkReportEntry sourcePath destFolderPath "Copied"]
         /\ outbox w'
            = outbox w ++ [ProgressUpdate ("Folder: " +:+ normalizedName)
                                          (stats (state w'))]
     | Throw err =>
         copyLog w' = copyLog w
         /\ copiedFolders (state w') = copiedFolders (state w)
         /\ stats (state w') = stats (state w)
         /\ folderReport (state w')
            = folderReport (state w)
              ++ [mkReportEntry sourcePath destFolderPath ("Error: " +:+ err)]
         /\ outbox w' = outbox w
     end.
Proof.
  intros signature sourcePath Hp Hnew.
  pose proof (mergeFolderRecursive_onlyAdds depth sourcePath destFolderPath
                fileHashMap w) as (Hcore & Hout & _).
  pose proof (mergeFolderRecursive_failure depth sourcePath destFolderPath
                fileHashMap w w (reflexivity w)) as Hfail.
  unfold mergeMember. rewrite run_bind. unfold isPaused at 1. rewrite Hp.
  cbv zeta. rewrite run_bind. unfold mapHas at 1.
  fold signature. rewrite (bool_decide_eq_false_2 _ Hnew).
  rewrite run_bind, run_catch, run_bind. fold sourcePath.
  destruct (mergeFolderRecursive depth sourcePath destFolderPath fileHashMap w)
    as [[[]|err] w1]; simpl in Hcore, Hout.
  - pose proof (core_copiedFolders _ _ Hcore) as Hcf.
    pose proof (core_stats _ _ Hcore) as Hst.
    pose proof (core_folderReport _ _ Hcore) as Hfr.
    simpl. rewrite Hcf, Hst, Hfr, Hout. repeat split; reflexivity.
  - destruct Hfail as [Hmaps Hlog].
    pose proof (core_copiedFolders _ _ Hcore) as Hcf.
    pose proof (core_stats _ _ Hcore) as Hst.
    pose proof (core_folderReport _ _ Hcore) as Hfr.
    simpl. rewrite Hfr. repeat split; assumption.
Qed.

End MergeMemberOutcome.

(** ** The counters of the per-file pass *)

#[export] Instance sameStats_preorder : PreOrder sameStats.
Proof.
  split.
  - intros w. reflexivity.
  - intros w1 w2 w3 H12 H23. unfold sameStats in *. congruence.
Qed.

#[export] Instance counting_preorder : PreOrder counting.
Proof.
  split.
  - intros w. unfold counting. lia.
  - intros w1 w2 w3 H12 H23. unfold counting in *. lia.
Qed.

Lemma keepsState_sameStats (w w' : World) : keepsState w w' -> sameStats w w'.
Proof. intros Hs. apply core_stats, Hs. Qed.

Lemma sameStats_counting (w w' : World) : sameStats w w' -> counting w w'.
Proof. unfold sameStats, counting. intros ->. lia. Qed.

Lemma reads_to_sameStats {A} (m : M A) :
  preserves reads m -> preserves sameStats m.
Proof.
  apply preserves_weaken. intros w w' Hr.
  apply keepsState_sameStats, reads_keepsState, Hr.
Qed.

Lemma mkdir_sameStats (p : string) : preserves sameStats (mkdir p).
Proof. eapply preserves_weaken; [apply keepsState_sameStats|apply mkdir_keepsState]. Qed.

Lemma copyFile_sameStats (src dst : string) : preserves sameStats (copyFile src dst).
Proof.
  eapply preserves_weaken; [apply keepsState_sameStats|apply copyFile_keepsState].
Qed.

Lemma newMap_sameStats : preserves sameStats newMap.
Proof. intros w. reflexivity. Qed.

#[export] Hint Resolve mkdir_sameStats copyFile_sameStats newMap_sameStats : frames.

Lemma uniquePathLoop_sameStats (fuel : nat) :
  forall (fileName uniquePath : string) (counter : nat),
    preserves sameStats (uniquePathLoop fuel fileName uniquePath counter).
Proof.
  pose proof (@reads_to_sameStats) as Hq.
  induction fuel as [|fuel IH]; intros; simpl; frame.
Qed.

(** A step that leaves the counters alone, in front of the rest. *)
Lemma stats_bind {A B} (st : Stats) (m : M A) (k : A -> M B)
    (Q : B -> World -> Prop) (E : string -> World -> Prop) :
  preserves sameStats m ->
  (forall e w, stats (state w) = st -> E e w) ->
  (forall a, ensures (fun w => stats (state w) = st) (k a) Q E) ->
  ensures (fun w => stats (state w) = st) (bind m k) Q E.
Proof.
  intros Hm HE Hk. eapply ensures_bind; [|exact Hk].
  intros w Hw. specialize (Hm w). unfold sameStats in Hm.
  destruct (m w) as [[a|e] w1]; simpl in Hm; [|apply HE]; congruence.
Qed.

Section Counters.

Context `{Platform}.

Lemma processFile_counting (destFolderOf : string -> string -> string)
    (destinationFolder : string) (destinationMap : nat)
    (processedFiles : gset string) (i : nat) (file : FileInfo) :
  preserves counting
    (processFile destFolderOf destinationFolder destinationMap processedFiles i file).
Proof.
  pose proof (@reads_to_sameStats) as Hq.
  pose proof uniquePathLoop_sameStats as Hu.
  intros w. unfold processFile.
  destruct (bool_decide (f_path file ∈ processedFiles)); [reflexivity|].
  rewrite run_bind. unfold modifyStats at 1, modifyState at 1, modify at 1.
  rewrite run_bind. unfold sendProgress at 1. rewrite run_bind.
  unfold getState at 1. unfold send at 1, modify at 1.
  match goal with
  | |- context [catch ?body ?handler ?w2] =>
      assert (Hbody : ensures (fun w' => stats (state w') = incScanned (stats (state w)))
                        (catch body handler)
                        (fun _ w' => countedOnce file (incScanned (stats (state w)))
                                                 (stats (state w')))
                        (fun _ _ => False));
      [|specialize (Hbody w2 eq_refl); destruct (catch body handler w2) as [[c|e] w'];
        [|contradiction]]
  end.
  - set (st := incScanned (stats (state w))).
    set (Q := fun w' : World => countedOnce file st (stats (state w'))).
    assert (Hsame : forall w', stats (state w') = st -> Q w') by (intros; left; assumption).
    apply ensures_catch with (Em := fun _ => Q);
      [|intros; apply ensures_ret; auto].
    apply stats_bind; [frame|auto|intros hash].
    apply stats_bind; [frame|auto|intros p].
    destruct p.
    { apply stats_bind; [frame|auto|intros u]. apply ensures_ret. auto. }
    cbv zeta. apply stats_bind; [frame|auto|intros s].
    apply stats_bind; [frame|auto|intros inDestination].
    assert (Hdup : ensures (fun w' => stats (state w') = st)
                     (modifyStats (addDuplicates 1) >> ret Next)
                     (fun _ => Q) (fun _ => Q)).
    { intros w' Hw'. unfold Q, countedOnce. simpl. rewrite Hw'. auto. }
    destruct (_ || _); [exact Hdup|].
    apply stats_bind; [frame|auto|intros u].
    apply stats_bind; [frame|auto|intros u'].
    apply stats_bind; [frame|auto|intros occupied].
    destruct occupied; [exact Hdup|].
    apply stats_bind; [frame|auto|intros w'].
    apply stats_bind; [frame|auto|intros uniquePath].
    apply stats_bind; [frame|auto|intros u''].
    intros w'' Hw''. unfold Q, countedOnce. simpl. rewrite Hw''. auto.
  - simpl. destruct Hbody as [Hst|[Hst|Hst]]; unfold counting; rewrite Hst;
      destruct (stats (state w)); simpl; lia.
Qed.

Lemma fileLoop_counting (destFolderOf : string -> string -> string)
    (destinationFolder : string) (destinationMap : nat)
    (processedFiles : gset string) (files : list FileInfo) :
  forall i, preserves counting
              (fileLoop destFolderOf destinationFolder destinationMap processedFiles
                        files i).
Proof.
  pose proof (fun A m => @reads_to A counting m
                (fun w w' Hr => sameStats_counting w w'
                   (keepsState_sameStats w w' (reads_keepsState w w' Hr)))) as Hq.
  pose proof (processFile_counting destFolderOf destinationFolder destinationMap
                processedFiles).
  induction files as [|file rest IH]; intros i; simpl; frame.
Qed.

(** The per-file pass (lines 519-604 and 829-914): no counter goes down, and
    the files it counts as copied or as duplicates are no more than the
    files it counts as scanned. *)
Theorem fileLoop_counts_scanned_files (destFolderOf : string -> string -> string)
    (destinationFolder : string) (destinationMap : nat)
    (processedFiles : gset string) (files : list FileInfo) (i : nat) (w : World) :
  let w' := snd (fileLoop destFolderOf destinationFolder destinationMap
                          processedFiles files i w) in
  scanned (stats (state w)) <= scanned (stats (state w'))
  /\ copied (stats (state w)) <= copied (stats (state w'))
  /\ duplicates (stats (state w)) <= duplicates (stats (state w'))
  /\ sizeCopied (stats (state w)) <= sizeCopied (stats (state w'))
  /\ copied (stats (state w')) + duplicates (stats (state w'))
     + scanned (stats (state w))
     <= copied (stats (state w)) + duplicates (stats (state w))
        + scanned (stats (state w')).
Proof. apply fileLoop_counting. Qed.

End Counters.

(** ** The search for a free name *)

Lemma uniquePathLoop_returns (fuel : nat) :
  forall (fileName uniquePath : string) (counter : nat) (w w' : World) (found : string),
    uniquePathLoop fuel fileName uniquePath counter w = (Ok found, w') ->
    FS.lookup (fs w') (Path.resolve found) = None
    /\ reads w w'
    /\ (found = uniquePath
        \/ exists k previous,
             counter <= k
             /\ found = Path.join
                          [Path.dirname previous;
                           Path.basenameExt fileName (Path.extname fileName)
                           +:+ "_" +:+ showNat k +:+ Path.extname fileName]).
Proof.
  induction fuel as [|fuel IH]; intros fileName uniquePath counter w w' found E;
    simpl in E; [discriminate|].
  rewrite run_bind, probe_spec in E.
  pose proof (tick_reads w) as Htick.
  destruct (FS.lookup (fs w) (Path.resolve uniquePath)) as [n|] eqn:Hlook;
    cbv beta iota delta [isSome] in E.
  - apply IH in E as (Hfree & Hreads & Hname).
    split; [exact Hfree|]. split; [etransitivity; eassumption|].
    right. destruct Hname as [->|(k & previous & Hk & ->)].
    + exists counter, uniquePath. auto.
    + exists k, previous. split; [lia|reflexivity].
  - injection E as <- <-. split; [|split; [exact Htick|left; reflexivity]].
    rewrite (reads_fs _ _ Htick). exact Hlook.
Qed.


(** ** The index of the destination *)

Section Index.

Context `{Platform}.

#[export] Instance indexes_preorder (m : nat) : PreOrder (indexes m).
Proof.
  split.
  - intros w. unfold indexes. auto.
  - intros w1 w2 w3 (Hf & Hl & Hk) (Hf' & Hl' & Hk').
    unfold indexes. repeat split; try congruence.
    intros k Hin. destruct (Hk' k Hin) as [Hin'|(p & content & Hlook & ->)].
    + apply Hk, Hin'.
    + right. exists p, content. rewrite <- Hf. auto.
Qed.

Lemma reads_indexes (m : nat) (w w' : World) : reads w w' -> indexes m w w'.
Proof.
  intros [(Hf & Hm & _) _]. unfold indexes, mapAt. rewrite Hf, Hm. auto.
Qed.

Lemma sameMaps_indexes (m : nat) (f : World -> World) :
  (forall w, fs (f w) = fs w) -> (forall w, maps (f w) = maps w) ->
  preserves (indexes m) (modify f).
Proof.
  intros Hf Hm w. unfold indexes, mapAt. simpl. rewrite Hf, Hm. auto.
Qed.

Lemma mapAt_mapSet (l m : nat) (key : string) (w : World) (k : string) :
  k ∈ mapAt (setMaps (<[l := {[key]} ∪ mapAt w l]> (maps w)) w) m ->
  k ∈ mapAt w m \/ (l = m /\ k = key).
Proof.
  unfold mapAt. simpl. destruct (decide (l = m)) as [->|Hne].
  - destruct (decide (m < List.length (maps w))) as [Hlt|Hge].
    + rewrite list_lookup_insert_eq by exact Hlt. simpl.
      intros Hin. apply elem_of_union in Hin as [Hin|Hin]; [|auto].
      apply elem_of_singleton in Hin. auto.
    + rewrite list_insert_ge by lia. auto.
  - rewrite list_lookup_insert_ne by exact Hne. auto.
Qed.

Lemma mapSet_other_indexes (m l : nat) (key : string) :
  l <> m -> preserves (indexes m) (mapSet l key).
Proof.
  intros Hne w. unfold indexes. simpl. split; [reflexivity|].
  split; [apply length_insert|].
  intros k Hin. apply mapAt_mapSet in Hin as [Hin|[Heq _]]; [auto|contradiction].
Qed.

Lemma mapSet_yields_index (m : nat) (w0 : World) (key : string) :
  (exists p content,
     FS.lookup (fs w0) (Path.resolve p) = Some (File content)
     /\ key = contentKey content) ->
  yields (indexes m) w0 (mapSet m key) (fun _ => True).
Proof.
  intros Hkey w (Hf & Hl & Hk). simpl. split; [exact I|].
  unfold indexes. simpl. split; [exact Hf|].
  split; [rewrite length_insert; exact Hl|].
  intros k Hin. apply mapAt_mapSet in Hin as [Hin|[_ ->]]; [apply Hk, Hin|auto].
Qed.

Lemma indexes_fs (m : nat) (w0 w : World) : indexes m w0 w -> fs w = fs w0.
Proof. now intros (Hf & _). Qed.

(** The three steps that put the key of a file in the index. *)
Lemma indexFile_indexes (m : nat) (fullPath : string) :
  preserves (indexes m)
    (let* stats := stat fullPath in
     let* hash := hashFile fullPath in
     mapSet m (keyOf (st_size stats) hash) >> ret Next).
Proof.
  pose proof (fun A mm => @reads_to A (indexes m) mm (reads_indexes m)) as Hq.
  apply yields_preserves; [typeclasses eauto|]. intros w0.
  eapply yields_bind.
  { apply stat_yields_size; [typeclasses eauto|apply indexes_fs|frame]. }
  intros stats Hsize.
  eapply yields_bind.
  { apply hashFile_yields; [typeclasses eauto|apply indexes_fs|frame]. }
  intros hash (content & Hlook & Hhash).
  eapply yields_bind; [|intros; apply yields_ret; exact I].
  apply mapSet_yields_index. exists fullPath, content. split; [exact Hlook|].
  unfold sizeAt in Hsize. rewrite Hlook in Hsize. injection Hsize as <-.
  unfold contentKey. rewrite digestOf_whole. now rewrite Hhash.
Qed.

Lemma scanDestinationRecursive_indexes (m : nat) (depth : nat) :
  forall (dirPath : string),
    preserves (indexes m) (scanDestinationRecursive depth m dirPath).
Proof.
  pose proof (fun A mm => @reads_to A (indexes m) mm (reads_indexes m)) as Hq.
  pose proof (indexFile_indexes m) as Hfile.
  induction depth as [|depth IH]; intros; simpl; frame.
Qed.

Lemma seedFileHashMap_indexes (m : nat) (folder : string) :
  preserves (indexes m) (seedFileHashMap m folder).
Proof.
  pose proof (fun A mm => @reads_to A (indexes m) mm (reads_indexes m)) as Hq.
  pose proof (indexFile_indexes m) as Hfile.
  unfold seedFileHashMap. frame.
Qed.

Lemma signDestinationFolders_indexes (m : nat) (depth : nat) (signatures : nat)
    (destinationFolder : string) (allowedExtensions : list string) :
  signatures <> m ->
  preserves (indexes m)
    (signDestinationFolders depth signatures destinationFolder allowedExtensions).
Proof.
  intros Hne.
  pose proof (fun A mm => @reads_to A (indexes m) mm (reads_indexes m)) as Hq.
  pose proof (scanDestinationFolder_reads depth).
  pose proof (fun key => mapSet_other_indexes m signatures key Hne).
  unfold signDestinationFolders. frame.
Qed.

Lemma sendProgress_indexes (m : nat) (currentFile : string) :
  preserves (indexes m) (sendProgress currentFile).
Proof.
  pose proof (fun A mm => @reads_to A (indexes m) mm (reads_indexes m)) as Hq.
  unfold sendProgress. frame. unfold send. apply sameMaps_indexes; reflexivity.
Qed.

Lemma fresh_index (w : World) (k : string) :
  k ∈ mapAt (setMaps ((maps w ++ [∅]) ++ [∅]) w) (List.length (maps w)) -> False.
Proof.
  unfold mapAt. simpl. rewrite <- app_assoc.
  rewrite lookup_app_r by lia. rewrite Nat.sub_diag. simpl.
  apply not_elem_of_empty.
Qed.

Lemma fresh_index_keys (m : nat) (w w2 w' : World) :
  m = List.length (maps w) ->
  w2 = setMaps ((maps w ++ [∅]) ++ [∅]) w ->
  indexes m w2 w' ->
  fs w' = fs w
  /\ List.length (maps w') = List.length (maps w) + 2
  /\ forall k, k ∈ mapAt w' m ->
       exists p content,
         FS.lookup (fs w) (Path.resolve p) = Some (File content)
         /\ k = contentKey content.
Proof.
  intros -> -> (Hf & Hl & Hk). split; [exact Hf|]. split.
  { rewrite Hl. simpl. rewrite !length_app. simpl. lia. }
  intros k Hin. destruct (Hk k Hin) as [Hin'|Hkey]; [|exact Hkey].
  exfalso. eapply fresh_index. exact Hin'.
Qed.

Lemma indexDestination_returns (depth : nat) (destinationFolder : string)
    (allowedExtensions : list string) (w : World) :
  exists w',
    indexDestination depth destinationFolder allowedExtensions w
    = (Ok (List.length (maps w), List.length (maps w) + 1), w')
    /\ fs w' = fs w
    /\ List.length (maps w') = List.length (maps w) + 2
    /\ forall k, k ∈ mapAt w' (List.length (maps w)) ->
         exists p content,
           FS.lookup (fs w) (Path.resolve p) = Some (File content)
           /\ k = contentKey content.
Proof.
  set (m := List.length (maps w)).
  set (w2 := setMaps ((maps w ++ [∅]) ++ [∅]) w).
  assert (Hne : m + 1 <> m) by lia.
  unfold indexDestination. rewrite run_bind. unfold newMap at 1.
  rewrite run_bind. unfold newMap at 1. simpl List.length.
  rewrite length_app. simpl List.length. fold m. rewrite run_bind.
  match goal with
  | |- context [catch ?body ?handler ?w0] =>
      assert (Hidx : preserves (indexes m) (catch body handler));
      [|change w0 with w2; specialize (Hidx w2);
        destruct (noThrow_catch body handler (fun e => noThrow_ret tt) w2)
          as ([] & w' & E); rewrite E in Hidx |- *]
  end.
  { pose proof (sendProgress_indexes m).
    pose proof (scanDestinationRecursive_indexes m depth).
    pose proof (signDestinationFolders_indexes m depth (m + 1) destinationFolder
                  allowedExtensions Hne).
    frame. }
  exists w'. split; [reflexivity|].
  apply (fresh_index_keys m w w2 w' eq_refl eq_refl Hidx).
Qed.

Lemma reindexDestination_returns (depth : nat) (destinationFolder : string)
    (allowedExtensions : list string) (w : World) :
  exists w',
    reindexDestination depth destinationFolder allowedExtensions w
    = (Ok (List.length (maps w), List.length (maps w) + 1), w')
    /\ fs w' = fs w
    /\ List.length (maps w') = List.length (maps w) + 2
    /\ forall k, k ∈ mapAt w' (List.length (maps w)) ->
         exists p content,
           FS.lookup (fs w) (Path.resolve p) = Some (File content)
           /\ k = contentKey content.
Proof.
  set (m := List.length (maps w)).
  set (w2 := setMaps ((maps w ++ [∅]) ++ [∅]) w).
  assert (Hne : m + 1 <> m) by lia.
  unfold reindexDestination. rewrite run_bind. unfold newMap at 1.
  rewrite run_bind. unfold newMap at 1. simpl List.length.
  rewrite length_app. simpl List.length. fold m. rewrite run_bind.
  match goal with
  | |- context [catch ?body ?handler ?w0] =>
      assert (Hidx : preserves (indexes m) (catch body handler));
      [|change w0 with w2; specialize (Hidx w2);
        destruct (noThrow_catch body handler (fun e => noThrow_ret tt) w2)
          as ([] & w' & E); rewrite E in Hidx |- *]
  end.
  { pose proof (seedFileHashMap_indexes m destinationFolder).
    pose proof (signDestinationFolders_indexes m depth (m + 1) destinationFolder
                  allowedExtensions Hne).
    frame. }
  exists w'. split; [reflexivity|].
  apply (fresh_index_keys m w w2 w' eq_refl eq_refl Hidx).
Qed.


End Index.

(** ** A run in which no pause is requested *)

#[export] Instance steady_preorder : PreOrder steady.
Proof.
  split.
  - intros w. unfold steady. auto.
  - intros w1 w2 w3 [Hs Hc] [Hs' Hc']. unfold steady. split; [congruence|].
    intros Hn. destruct (Hc Hn) as [Hn2 Hp2]. destruct (Hc' Hn2) as [Hn3 Hp3].
    split; congruence.
Qed.

Lemma tick_steady : preserves steady tick.
Proof.
  intros w. unfold tick, steady.
  destruct (pauseIn w) as [[|n]|] eqn:Hc; simpl; rewrite ?Hc;
    (split; [reflexivity|]); first [discriminate|auto].
Qed.

Lemma get_steady : preserves steady get.
Proof. intros w. reflexivity. Qed.

Lemma getState_steady : preserves steady getState.
Proof. intros w. reflexivity. Qed.

Lemma isPaused_steady : preserves steady isPaused.
Proof. intros w. reflexivity. Qed.

Lemma mapHas_steady (l : nat) (k : string) : preserves steady (mapHas l k).
Proof. intros w. reflexivity. Qed.

Lemma newMap_steady : preserves steady newMap.
Proof. intros w. unfold steady. simpl. auto. Qed.

Lemma lift_steady {A} (r : Res A) : preserves steady (fun w => (r, w)).
Proof. intros w. reflexivity. Qed.

#[export] Hint Resolve tick_steady get_steady getState_steady isPaused_steady
  mapHas_steady newMap_steady : frames.

Lemma readdir_steady (p : string) : preserves steady (readdir p).
Proof. unfold readdir. frame. Qed.

Lemma readdirRecursive_steady (p : string) : preserves steady (readdirRecursive p).
Proof. unfold readdirRecursive. frame. Qed.

Lemma stat_steady (p : string) : preserves steady (stat p).
Proof. unfold stat. frame. Qed.

Lemma access_steady (p : string) : preserves steady (access p).
Proof. unfold access. frame. Qed.

Lemma mkdir_steady (p : string) : preserves steady (mkdir p).
Proof. unfold mkdir. frame. Qed.

Lemma copyFile_steady (src dst : string) : preserves steady (copyFile src dst).
Proof. unfold copyFile. frame. Qed.

Lemma mapSet_steady (l : nat) (k : string) : preserves steady (mapSet l k).
Proof. unfold mapSet. frame. Qed.

Lemma sendProgress_steady (currentFile : string) :
  preserves steady (sendProgress currentFile).
Proof. unfold sendProgress, send. frame. Qed.

#[export] Hint Resolve readdir_steady readdirRecursive_steady stat_steady
  access_steady mkdir_steady copyFile_steady mapSet_steady
  sendProgress_steady : frames.

Section Calm.

Context `{Platform}.

Lemma readStream_steady (chunks : list string) : preserves steady (readStream chunks).
Proof. induction chunks; simpl; frame. Qed.

Lemma hashFile_steady (filePath : string) : preserves steady (hashFile filePath).
Proof.
  unfold hashFile. pose proof readStream_steady. pose proof (@lift_steady string).
  frame.
Qed.

Lemma scanDestinationFolder_steady (depth : nat) :
  forall (dirPath : string) (allowedExtensions : list string) (relativePath : string),
    preserves steady (scanDestinationFolder depth dirPath allowedExtensions relativePath).
Proof.
  pose proof hashFile_steady.
  induction depth as [|depth IH]; intros; simpl; frame.
Qed.

Lemma seedFileHashMap_steady (fileHashMap : nat) (folder : string) :
  preserves steady (seedFileHashMap fileHashMap folder).
Proof. pose proof hashFile_steady. unfold seedFileHashMap. frame. Qed.

Lemma signDestinationFolders_steady (depth : nat) (signatures : nat)
    (destinationFolder : string) (allowedExtensions : list string) :
  preserves steady
    (signDestinationFolders depth signatures destinationFolder allowedExtensions).
Proof.
  pose proof (scanDestinationFolder_steady depth).
  unfold signDestinationFolders. frame.
Qed.

Lemma reindexDestination_steady (depth : nat) (destinationFolder : string)
    (allowedExtensions : list string) :
  preserves steady (reindexDestination depth destinationFolder allowedExtensions).
Proof.
  pose proof seedFileHashMap_steady.
  pose proof (signDestinationFolders_steady depth).
  unfold reindexDestination. frame.
Qed.

Lemma uniquePathLoop_steady (fuel : nat) :
  forall (fileName uniquePath : string) (counter : nat),
    preserves steady (uniquePathLoop fuel fileName uniquePath counter).
Proof. induction fuel as [|fuel IH]; intros; simpl; frame. Qed.

Lemma steady_calm (n : nat) (w w' : World) : steady w w' -> calmAt n w -> calmAt n w'.
Proof.
  intros [Hs Hc] (Hp & Hn & Hscan). destruct (Hc Hn) as [Hn' Hp'].
  unfold calmAt. repeat split; congruence.
Qed.

(** A step that is steady, in front of the rest of a round. *)
Lemma calm_bind {A B} (n : nat) (m : M A) (k : A -> M B)
    (Q : B -> World -> Prop) :
  preserves steady m ->
  (forall a, ensures (calmAt n) (k a) Q (fun _ => calmAt n)) ->
  ensures (calmAt n) (bind m k) Q (fun _ => calmAt n).
Proof.
  intros Hm Hk. eapply ensures_bind; [|exact Hk].
  intros w Hw. specialize (Hm w).
  destruct (m w) as [[a|e] w1]; simpl in Hm; eapply steady_calm; eassumption.
Qed.

(** With the flag down, [if (state.paused)] takes the other branch. *)
Lemma calm_isPaused {B} (n : nat) (k : bool -> M B) (Q : B -> World -> Prop)
    (E : string -> World -> Prop) :
  ensures (calmAt n) (k false) Q E ->
  ensures (calmAt n) (bind isPaused k) Q E.
Proof.
  intros Hk w Hw. rewrite run_bind. unfold isPaused at 1.
  destruct Hw as (Hp & Hrest). rewrite Hp. apply Hk. split; assumption.
Qed.

Ltac calm_step :=
  match goal with
  | |- ensures (calmAt _) (bind isPaused _) _ _ => apply calm_isPaused
  | |- ensures (calmAt _) (bind _ _) _ _ =>
      apply calm_bind; [solve [frame]|intros ?]
  | |- ensures (calmAt _) (ret _) _ _ => apply ensures_ret; solve [auto]
  | |- ensures _ (if ?b then _ else _) _ _ => destruct b
  | |- ensures _ _ _ _ => progress cbv zeta
  end.

(** One round of the per-file pass in a run in which no pause is requested:
    the loop goes on, and the file is counted as scanned unless an absorbed
    folder holds it. *)
Lemma processFile_calm (destFolderOf : string -> string -> string)
    (destinationFolder : string) (destinationMap : nat)
    (processedFiles : gset string) (i : nat) (file : FileInfo) (n : nat) :
  ensures (calmAt n)
    (processFile destFolderOf destinationFolder destinationMap processedFiles i file)
    (fun c w' =>
       c = Next
       /\ calmAt (n + (if bool_decide (f_path file ∈ processedFiles) then 0 else 1)) w')
    (fun _ _ => False).
Proof.
  pose proof hashFile_steady. pose proof uniquePathLoop_steady.
  unfold processFile.
  destruct (bool_decide (f_path file ∈ processedFiles)).
  { apply ensures_ret. intros w Hw. rewrite Nat.add_0_r. auto. }
  eapply ensures_bind with (Qm := fun _ => calmAt (n + 1)).
  { intros w (Hp & Hn & Hs). simpl. unfold calmAt. simpl.
    repeat split; try assumption. rewrite Hs. lia. }
  intros u.
  eapply ensures_bind with (Qm := fun _ => calmAt (n + 1)).
  { intros w (Hp & Hn & Hs). simpl. unfold calmAt. simpl. auto. }
  intros u'.
  apply ensures_catch with (Em := fun _ => calmAt (n + 1));
    [|intros e; apply ensures_ret; auto].
  repeat calm_step.
Qed.

(** The per-file pass in a run in which no pause is requested: it goes
    through all the files and counts as scanned those that no absorbed
    folder holds. *)
Lemma fileLoop_calm (destFolderOf : string -> string -> string)
    (destinationFolder : string) (destinationMap : nat)
    (processedFiles : gset string) (files : list FileInfo) :
  forall (i n : nat) (w : World),
    calmAt n w ->
    exists w',
      fileLoop destFolderOf destinationFolder destinationMap processedFiles files i w
      = (Ok tt, w')
      /\ calmAt (n + List.length (filter (fun f => f_path f ∉ processedFiles) files)) w'.
Proof.
  induction files as [|file rest IH]; intros i n w Hw.
  - exists w. simpl. rewrite Nat.add_0_r. auto.
  - simpl fileLoop. rewrite run_bind. unfold isPaused at 1.
    pose proof Hw as (Hp & _). rewrite Hp. rewrite run_bind.
    pose proof (processFile_calm destFolderOf destinationFolder destinationMap
                  processedFiles i file n w Hw) as Hround.
    destruct (processFile _ _ _ _ _ _ w) as [[c|e] w1]; [|contradiction].
    destruct Hround as [-> Hw1].
    destruct (IH (S i) _ w1 Hw1) as (w' & E & Hw').
    exists w'. split; [exact E|].
    rewrite filter_cons.
    destruct (decide (f_path file ∉ processedFiles)) as [Hnot|Hin].
    + rewrite (bool_decide_eq_false_2 _ Hnot) in Hw'. simpl. 
      replace (n + S (List.length (filter (fun f => f_path f ∉ processedFiles) rest)))
        with (n + 1 + List.length (filter (fun f => f_path f ∉ processedFiles) rest))
        by lia.
      exact Hw'.
    + assert (Hin' : f_path file ∈ processedFiles).
      { destruct (decide (f_path file ∈ processedFiles)); [assumption|contradiction]. }
      rewrite (bool_decide_eq_true_2 _ Hin'), Nat.add_0_r in Hw'. exact Hw'.
Qed.

End Calm.

(** ** resume-process: indexing, then the per-file pass from the cursor *)

Section ResumeContinues.

Context `{Platform}.


End ResumeContinues.

(** ** A duplicate member counts the files of its signature *)

Section DuplicateMember.

Context `{Platform}.

(** The file count of a signature is the number of files it lists, and no
    more than the files of the folder record. *)
Lemma buildFolderSignature_count_bounds (folderInfo : FolderInfo)
    (allowedExtensions : list string) (w w' : World) (signature : Signature) :
  buildFolderSignature folderInfo allowedExtensions w = (Ok signature, w') ->
  s_fileCount signature = List.length (s_files signature)
  /\ s_fileCount signature <= List.length (d_files folderInfo).
Proof.
  unfold buildFolderSignature. rewrite run_bind.
  destruct (signLoop_spec (fs w) (d_files folderInfo) (d_files folderInfo) [] w)
    as (hashed & w1 & Hrun & Hlen & _); [reflexivity|auto|].
  rewrite Hrun. intros [= <- <-]. simpl.
  split; [symmetry; apply Permutation_length, sortByName_perm|exact Hlen].
Qed.

(** C6, as the code has it.  A member of a merge group is reached with the
    flag down, and its signature, built by buildFolderSignature, is one of
    the signatures of the folders directly under the destination root.  Then
    the member is added to the absorbed folders, the duplicate counter grows
    by the file count of the signature, the report gets the entry
    "Duplicate (Exists in Destination)" for it, and nothing else happens:
    the file system is the same, no copy is made, no suspension point is
    passed, and the loop goes on to the next member.  The file count of the
    signature is the number of files that were hashed when it was built: it
    is never more than the number of files of the folder record, and it is
    that number when all of them were there and the flag was still down
    after the last. *)
Theorem mergeMember_duplicate_adds_signature_count :
  forall (depth : nat) (destinationFolderSignatures : nat)
         (normalizedName destFolderPath : string) (fileHashMap : nat)
         (folderInfo : FolderInfo) (allowedExtensions : list string)
         (signature : Signature) (wSign wSigned w : World),
    buildFolderSignature folderInfo allowedExtensions wSign = (Ok signature, wSigned) ->
    paused (state w) = false ->
    s_hash signature ∈ mapAt w destinationFolderSignatures ->
    let '(r, w') :=
      mergeMember depth destinationFolderSignatures normalizedName destFolderPath
                  fileHashMap (mkFolderData signature folderInfo) w in
    r = Ok Next
    /\ copiedFolders (state w') = setAdd (d_path folderInfo) (copiedFolders (state w))
    /\ duplicates (stats (state w'))
       = duplicates (stats (state w)) + s_fileCount signature
    /\ s_fileCount signature = List.length (s_files signature)
    /\ s_fileCount signature <= List.length (d_files folderInfo)
    /\ ((forall file, file ∈ d_files folderInfo ->
           exists content,
             FS.lookup (fs wSign) (Path.resolve (f_path file)) = Some (File content)) ->
        paused (state wSigned) = false ->
        s_fileCount signature = List.length (d_files folderInfo))
    /\ copied (stats (state w')) = copied (stats (state w))
    /\ scanned (stats (state w')) = scanned (stats (state w))
    /\ folderReport (state w')
       = folderReport (state w)
         ++ [mkReportEntry (d_path folderInfo) destFolderPath
                           "Duplicate (Exists in Destination)"]
    /\ fs w' = fs w
    /\ copyLog w' = copyLog w
    /\ maps w' = maps w
    /\ pauseIn w' = pauseIn w.
Proof.
  intros depth sigs normalizedName destFolderPath fileHashMap folderInfo
         allowedExtensions signature wSign wSigned w Hsign Hp Hknown.
  destruct (buildFolderSignature_count_bounds _ _ _ _ _ Hsign) as [Hlisted Hbound].
  pose proof (buildFolderSignature_counts_all _ _ _ _ _ Hsign) as Hall.
  unfold mergeMember. rewrite run_bind. unfold isPaused at 1. rewrite Hp.
  rewrite run_bind. unfold mapHas at 1. simpl fd_signature. simpl fd_folderInfo.
  rewrite (bool_decide_eq_true_2 _ Hknown). cbv zeta.
  simpl. repeat split; try reflexivity; assumption.
Qed.

End DuplicateMember.

Section DuplicateMemberRuns.

#[local] Existing Instance samplePlatform.

(** C6, a folder one of whose files cannot be hashed.  The leaf folder
    /S/Trip_2 is scanned with its two files; the second is
    gone when the signatures are built, so that the folder is signed as the
    destination folder /D/Trip is, with the one file they share.  The member
    is reported as a duplicate and the duplicate counter stands at one,
    for a folder that was recorded with two files. *)
Lemma mergeMember_duplicate_counts_hashed_files :
  let scanned :=
    snd (scanSources sampleDepth ["/S"] [] (freshWorld vanishingBefore None)) in
  let merged := snd (indexAndMerge sampleDepth "/D" [] (setFs vanishingAfter scanned)) in
  map (fun d => (d_path d, List.length (d_files d)))
      (filter (fun d => d_isLeaf d = true) (folderList (state scanned)))
  = [("/S/Trip_2", 2)]
  /\ folderReport (state merged)
     = [mkReportEntry "/S/Trip_2" "/D/Trip" "Duplicate (Exists in Destination)"]
  /\ copiedFolders (state merged) = ["/S/Trip_2"]
  /\ duplicates (stats (state merged)) = 1
  /\ copyLog merged = []
  /\ fs merged = vanishingAfter.
Proof. cbv zeta. repeat split; vm_compute; reflexivity. Qed.

Lemma mergeMember_duplicate_adds_signature_count_witness :
  exists signature wSigned,
    buildFolderSignature folderXY [] (freshWorld orderRoot None) = (Ok signature, wSigned)
    /\ let w := setMaps [{[s_hash signature]}] wSigned in
       let '(r, w') :=
         mergeMember sampleDepth 0 "A" "/D/A" 1 (mkFolderData signature folderXY) w in
       r = Ok Next
       /\ copiedFolders (state w') = ["/A"]
       /\ duplicates (stats (state w')) = 2
       /\ fs w' = orderRoot
       /\ copyLog w' = [].
Proof.
  eexists _, _. split; [vm_compute; reflexivity|]. cbv zeta.
  match goal with
  | |- context [mergeMember _ _ _ _ _ (mkFolderData ?sig _) ?w] =>
      pose proof (mergeMember_duplicate_adds_signature_count
                    sampleDepth 0 "A" "/D/A" 1 folderXY []
                    sig (freshWorld orderRoot None) (freshWorld orderRoot None) w)
        as Hthm
  end.
  destruct (mergeMember _ _ _ _ _ _ _) as [r w'].
  destruct Hthm as (Hr & Hfolders & Hdup & _ & _ & _ & _ & _ & _ & Hfs & Hlog & _).
  - vm_compute. reflexivity.
  - reflexivity.
  - vm_compute. reflexivity.
  - repeat split; assumption.
Defined.

End DuplicateMemberRuns.

(** ** Names that the comparator does not tell apart *)

Section TiedNames.

#[local] Existing Instance canonicalPlatform.

(** C7. The signature of a folder does depend on the order in which its
    files are listed, when two of its names are ones that the comparator of
    the sort does not tell apart.  The folders /A and /B hold the same two
    files, under the two spellings of one name, and list them in opposite
    orders.  The scan records them in those orders; the sort, which is
    stable, leaves them so; and the two signatures, over the same triples of
    name, size and digest, differ.  So do the signature of the first, built
    as a source folder, and that of the second, built as a destination
    folder. *)
Theorem folder_signature_follows_order_of_tied_names :
  let scanned :=
    snd (scanSources sampleDepth ["/A"; "/B"] [] (freshWorld accentRoot None)) in
  composedName <> decomposedName
  /\ localeCompare composedName decomposedName = 0%Z
  /\ folderList (state scanned) = [folderComposedFirst; folderDecomposedFirst]
  /\ exists sigA sigB destFolder,
       fst (buildFolderSignature folderComposedFirst [] scanned) = Ok sigA
       /\ fst (buildFolderSignature folderDecomposedFirst [] scanned) = Ok sigB
       /\ fst (scanDestinationFolder sampleDepth "/B" [] "" scanned) = Ok destFolder
       /\ s_files sigA ≡ₚ s_files sigB
       /\ s_files sigA ≡ₚ destFileHashes destFolder
       /\ s_hash sigA <> s_hash sigB
       /\ s_hash sigA <> buildDestinationFolderSignature destFolder.
Proof.
  cbv zeta.
  split; [intros Heq; vm_compute in Heq; discriminate Heq|].
  split; [vm_compute; reflexivity|].
  split; [vm_compute; reflexivity|].
  eexists _, _, _.
  split; [vm_compute; reflexivity|].
  split; [vm_compute; reflexivity|].
  split; [vm_compute; reflexivity|].
  split; [vm_compute; apply perm_swap|].
  split; [vm_compute; apply perm_swap|].
  split; intros Heq; vm_compute in Heq; discriminate Heq.
Qed.

End TiedNames.

(** ** The further properties at work on the sample trees *)

Section MoreSampleRuns.

#[local] Existing Instance samplePlatform.




Lemma mergeFolderRecursive_failure_copies_nothing_witness :
  let w := setMaps [∅] (freshWorld photosRoot None) in
  let w' := snd (mergeFolderRecursive sampleDepth "/D/Nowhere" "/D/Photos" 0 w) in
  fst (mergeFolderRecursive sampleDepth "/D/Nowhere" "/D/Photos" 0 w) = Throw "ENOENT"
  /\ copyLog w' = copyLog w /\ maps w' = maps w.
Proof.
  split; [vm_compute; reflexivity|].
  apply (mergeFolderRecursive_failure_copies_nothing
           sampleDepth "/D/Nowhere" "/D/Photos" 0 _ _ "ENOENT").
  vm_compute. reflexivity.
Defined.


Lemma processFile_known_content_is_duplicate_witness :
  let w := withState (setDeduplicationMap {[ "3:#new" ]})
                     (setMaps [∅] (freshWorld clashRoot None)) in
  exists w',
    processFile destFolderPath_start "/D" 0 ∅ 0 clashFile w = (Ok Next, w')
    /\ fs w' = fs w /\ copyLog w' = copyLog w /\ maps w' = maps w
    /\ stats (state w') = addDuplicates 1 (incScanned (stats (state w)))
    /\ deduplicationMap (state w') = deduplicationMap (state w)
    /\ paused (state w') = false.
Proof.
  apply (processFile_known_content_is_duplicate
           destFolderPath_start "/D" 0 ∅ 0 clashFile _ "new").
  - apply not_elem_of_empty.
  - reflexivity.
  - reflexivity.
  - reflexivity.
  - left. vm_compute. reflexivity.
Defined.

Lemma processFile_copies_new_content_witness :
  let w := setMaps [∅] (freshWorld looseRoot None) in
  let file := mkFileInfo "/S/a.txt" 1 "a.txt" "a.txt" "/S" "." in
  exists w',
    processFile destFolderPath_start "/D" 0 ∅ 0 file w = (Ok Next, w')
    /\ FS.lookup (fs w') ["D"; "a.txt"] = Some (File "A")
    /\ map c_dst (copyLog w') = ["/D/a.txt"]
    /\ stats (state w') = mkStats 1 1 0 1.
Proof.
  cbv zeta.
  pose proof (processFile_copies_new_content
                destFolderPath_start "/D" 0 ∅ 0
                (mkFileInfo "/S/a.txt" 1 "a.txt" "a.txt" "/S" ".")
                (setMaps [∅] (freshWorld looseRoot None)) "A" looseRoot
                (Dir [("S", Dir [("a.txt", File "A");
                                 ("b.txt", File "B");
                                 ("sub", Dir [("c.txt", File "C")])]);
                      ("D", Dir [("a.txt", File "A")])])) as Hthm.
  cbv zeta in Hthm.
  destruct Hthm as (w' & E & Hfs & Hlog & _ & Hstats & _).
  - apply not_elem_of_empty.
  - vm_compute. reflexivity.
  - reflexivity.
  - reflexivity.
  - apply not_elem_of_empty.
  - apply not_elem_of_empty.
  - vm_compute. reflexivity.
  - vm_compute. reflexivity.
  - vm_compute. reflexivity.
  - exists w'. split; [exact E|]. rewrite Hfs, Hlog, Hstats.
    vm_compute. repeat split.
Defined.

Lemma mergeMember_merge_outcome_witness :
  let w := setMaps [∅; ∅] (freshWorld orderRoot None) in
  let folderData := mkFolderData (mkSignature "sig" 2 3 []) folderXY in
  let '(merged, w1) := mergeFolderRecursive sampleDepth "/A" "/D/A" 1 w in
  let '(r, w') := mergeMember sampleDepth 0 "A" "/D/A" 1 folderData w in
  merged = Ok tt
  /\ r = Ok Next
  /\ copiedFolders (state w') = ["/A"]
  /\ stats (state w') = mkStats 0 2 0 3
  /\ folderReport (state w') = [mkReportEntry "/A" "/D/A" "Copied"].
Proof.
  cbv zeta.
  pose proof (mergeMember_merge_outcome sampleDepth 0 "A" "/D/A" 1
                (mkFolderData (mkSignature "sig" 2 3 []) folderXY)
                (setMaps [∅; ∅] (freshWorld orderRoot None))) as Hthm.
  cbv zeta in Hthm.
  change (d_path (fd_folderInfo (mkFolderData (mkSignature "sig" 2 3 []) folderXY)))
    with "/A" in Hthm.
  assert (Hmerged : fst (mergeFolderRecursive sampleDepth "/A" "/D/A" 1
                           (setMaps [∅; ∅] (freshWorld orderRoot None))) = Ok tt)
    by (vm_compute; reflexivity).
  destruct (mergeFolderRecursive sampleDepth "/A" "/D/A" 1 _) as [merged w1].
  destruct (mergeMember _ _ _ _ _ _ _) as [r w'].
  simpl in Hmerged. subst merged.
  destruct Hthm as (Hr & _ & _ & _ & Hcf & Hst & Hfr & _).
  - reflexivity.
  - apply not_elem_of_empty.
  - repeat split; assumption.
Defined.


End MoreSampleRuns.
